(** * azdo-cli: parameter resolution and run-completion monitor

    A shallow embedding of the core of the [azdo] command line tool
    ([src/cli.ts] and the Azure DevOps client module that exports
    [waitForCompletion]) together with the properties its specification
    states about it.

    Layout:
    - [Js]   : the fragment of the JavaScript / Node runtime the code relies on
               (strings, [Number(...)], loosely typed values, [path.basename]);
    - [Azdo] : the run-completion monitor of the service client;
    - [Cli]  : the functions of [cli.ts], and the worlds used as examples;
    - [Service], [Client] : the trace of the monitor; refs, branches and the
               request for the stored definition;
    - [Tree] : the walk of the project tree ([findYamlFiles]);
    - [Dialogue], [Branch], [Init], [Commands] : the prompts of a command,
               the branch of [build], the catalog keys and poll interval of
               [init], the [run] action;
    - [Config], [PatStore], [EnvFile] : the environment, the stored token and
               the [.env] file;
    - the properties: strings, flag parsers, declared parameters and locator,
      selection and cancelled prompts, merge, definition failures, monitor;
      then, module by module, what else the code guarantees.

    Modelling conventions:
    - a JS string is the [string] of its UTF-8 bytes.  Every character the
      code inspects (['='], ['-'], digits, letters, ['/'], ['.']) is ASCII, and
      an ASCII byte never occurs inside a multi-byte sequence, so searching
      and slicing at those characters commute with the encoding;
    - a [Record<string, T>] that is only read is a [gmap string T] (own
      enumerable string-keyed data properties); one that is filled by
      [o[key] = v] is a [Plain] object, whose assignment treats the key
      [__proto__] as JavaScript does;
    - a number is an IEEE-754 double, kept in the canonical form
      [m * 2^e]; the sign of zero is not represented ([===] and
      [JSON.stringify] do not distinguish the two zeros);
    - promises are awaited in sequence, so asynchronous code is modelled by
      its sequential result: a value, a thrown error or a process exit. *)

From Stdlib Require Import ZArith List String Ascii Bool Lia.
From stdpp Require Import base decidable option list gmap strings pretty.

Local Open Scope string_scope.
Local Open Scope Z_scope.

(* ===================================================================== *)
(** * The JavaScript runtime fragment                                     *)
(* ===================================================================== *)

Module Js.

(** ** Characters *)

Definition code (c : ascii) : Z := Z.of_N (N_of_ascii c).

Definition is_digit (c : ascii) : bool := (48 <=? code c) && (code c <=? 57).
Definition is_lower (c : ascii) : bool := (97 <=? code c) && (code c <=? 122).
Definition is_upper (c : ascii) : bool := (65 <=? code c) && (code c <=? 90).

Definition chr (n : Z) : ascii := ascii_of_N (Z.to_N n).

(** ** [String.prototype] *)

Definition startsWith (s p : string) : bool := String.prefix p s.

Fixpoint indexOf_from (s needle : string) (i : Z) : Z :=
  if String.prefix needle s then i
  else match s with
       | "" => -1
       | String _ s' => indexOf_from s' needle (i + 1)
       end.

(** [s.indexOf(needle)]: the first position of [needle], or [-1]. *)
Definition indexOf (s needle : string) : Z := indexOf_from s needle 0.

Definition includes (s needle : string) : bool :=
  negb (indexOf s needle =? -1).

Definition len (s : string) : Z := Z.of_nat (String.length s).

(** The characters of a string, for statements about what it contains. *)
Definition chars (s : string) : list ascii := list_ascii_of_string s.

(** Relative index of [slice]: negative positions count from the end and
    everything is clamped to [0 .. length]. *)
Definition clampIndex (s : string) (i : Z) : Z :=
  if i <? 0 then Z.max (len s + i) 0 else Z.min i (len s).

(** [s.slice(from, to)] *)
Definition slice (s : string) (from to : Z) : string :=
  let a := clampIndex s from in
  let b := clampIndex s to in
  String.substring (Z.to_nat a) (Z.to_nat (b - a)) s.

(** [s.slice(from)] *)
Definition sliceFrom (s : string) (from : Z) : string :=
  slice s from (len s).

(** White space in the sense of [trim()] and of the numeric-literal grammar:
    TAB, LF, VT, FF, CR, SP and, in UTF-8, U+00A0, U+1680, U+2000..U+200A,
    U+2028, U+2029, U+202F, U+205F, U+3000 and U+FEFF.  [ws_prefix s] is the
    rest of [s] after one leading white-space character, if there is one. *)
Definition is_ascii_ws (c : ascii) : bool :=
  ((9 <=? code c) && (code c <=? 13)) || (code c =? 32).

Definition ws_prefix (s : string) : option string :=
  match s with
  | String c1 r1 =>
      if is_ascii_ws c1 then Some r1 else
      match r1 with
      | String c2 r2 =>
          if (code c1 =? 194) && (code c2 =? 160) then Some r2 else
          match r2 with
          | String c3 r3 =>
              let a := code c1 in let b := code c2 in let c := code c3 in
              if ((a =? 225) && (b =? 154) && (c =? 128))
                 || ((a =? 226) && (b =? 128)
                       && (((128 <=? c) && (c <=? 138))
                           || (c =? 168) || (c =? 169) || (c =? 175)))
                 || ((a =? 226) && (b =? 129) && (c =? 159))
                 || ((a =? 227) && (b =? 128) && (c =? 128))
                 || ((a =? 239) && (b =? 187) && (c =? 191))
              then Some r3 else None
          | "" => None
          end
      | "" => None
      end
  | "" => None
  end.

Fixpoint trimStart_fuel (n : nat) (s : string) : string :=
  match n with
  | O => s
  | S n' => match ws_prefix s with
            | Some r => trimStart_fuel n' r
            | None => s
            end
  end.

(** Each white-space character removes at least one byte, so the length of
    the string is enough fuel. *)
Definition trimStart (s : string) : string :=
  trimStart_fuel (String.length s) s.

Definition all_ws (s : string) : bool :=
  match trimStart s with "" => true | _ => false end.

Fixpoint trimEnd (s : string) : string :=
  match s with
  | "" => ""
  | String c s' => if all_ws s then "" else String c (trimEnd s')
  end.

Definition trim (s : string) : string := trimEnd (trimStart s).

(** [toLowerCase()].  ASCII letters are folded; among the non-ASCII
    characters only U+212A (KELVIN SIGN, to [k]) and U+0130 (to [i] followed
    by U+0307) produce an ASCII character.  Every other non-ASCII character
    lower-cases to non-ASCII characters, which are left as they are here:
    all consumers of the result either delete non-ASCII bytes or search for
    an ASCII needle. *)
Fixpoint toLowerCase (s : string) : string :=
  match s with
  | "" => ""
  | String c1 r1 =>
      if is_upper c1 then String (chr (code c1 + 32)) (toLowerCase r1) else
      match r1 with
      | String c2 r2 =>
          if (code c1 =? 196) && (code c2 =? 176)
          then String "i" (String (chr 204) (String (chr 135) (toLowerCase r2)))
          else
            match r2 with
            | String c3 r3 =>
                if (code c1 =? 226) && (code c2 =? 132) && (code c3 =? 170)
                then String "k" (toLowerCase r3)
                else String c1 (toLowerCase r1)
            | "" => String c1 (toLowerCase r1)
            end
      | "" => String c1 ""
      end
  end.

(** [s.replace(/[^a-z0-9]+/g, "")]: every maximal run of characters outside
    [a-z0-9] is replaced by nothing, that is, only those characters stay. *)
Fixpoint removeNonAlnum (s : string) : string :=
  match s with
  | "" => ""
  | String c r =>
      if is_lower c || is_digit c then String c (removeNonAlnum r)
      else removeNonAlnum r
  end.

(** ** Numbers *)

(** A double: not-a-number, an infinity, or the finite value [m * 2^e] with
    [m] odd, zero being [Finite 0 0]. *)
Inductive JsNumber : Type :=
  | NaN
  | Infinity (negative : bool)
  | Finite (m e : Z).

#[global] Instance JsNumber_eq_dec : EqDecision JsNumber.
Proof. solve_decision. Defined.

Definition isNaN (n : JsNumber) : bool :=
  match n with NaN => true | _ => false end.

(** [a === b] on numbers: [NaN] differs from everything, itself included. *)
Definition num_strict_eq (a b : JsNumber) : bool :=
  negb (isNaN a) && bool_decide (a = b).

(** [Number.isInteger] *)
Definition isInteger (n : JsNumber) : bool :=
  match n with
  | Finite m e => 0 <=? e
  | _ => false
  end.

Fixpoint strip_twos (p : positive) (e : Z) : positive * Z :=
  match p with
  | xO p' => strip_twos p' (e + 1)
  | _ => (p, e)
  end.

Definition dyadic (m e : Z) : JsNumber :=
  match m with
  | Z0 => Finite 0 0
  | Zpos p => let '(q, e') := strip_twos p e in Finite (Zpos q) e'
  | Zneg p => let '(q, e') := strip_twos p e in Finite (Zneg q) e'
  end.

Definition ofZ (z : Z) : JsNumber := dyadic z 0.

(** The double nearest to the rational [n / d] ([0 <= n], [0 < d]), ties to
    even, with gradual underflow and overflow to infinity. *)
Definition round_binary64 (negative : bool) (n d : Z) : JsNumber :=
  if n =? 0 then Finite 0 0 else
  let k := Z.log2 n - Z.log2 d in
  let above := if 0 <=? k then d * 2 ^ k <=? n else d <=? n * 2 ^ (- k) in
  let e0 := if above then k else k - 1 in
  let s := Z.max (e0 - 52) (-1074) in
  let num := if 0 <=? s then n else n * 2 ^ (- s) in
  let den := if 0 <=? s then d * 2 ^ s else d in
  let q := num / den in
  let r := num mod den in
  let M := if (den <? 2 * r) || ((den =? 2 * r) && Z.odd q) then q + 1 else q in
  if (0 <? M) && (1024 <=? Z.log2 M + s) then Infinity negative
  else dyadic (if negative then - M else M) s.

(** *** [Number(string)] (StringToNumber) *)

Definition decimal_digit (c : ascii) : option Z :=
  if is_digit c then Some (code c - 48) else None.

Definition hex_digit (c : ascii) : option Z :=
  if is_digit c then Some (code c - 48)
  else if (97 <=? code c) && (code c <=? 102) then Some (code c - 87)
  else if (65 <=? code c) && (code c <=? 70) then Some (code c - 55)
  else None.

Definition octal_digit (c : ascii) : option Z :=
  if (48 <=? code c) && (code c <=? 55) then Some (code c - 48) else None.

Definition binary_digit (c : ascii) : option Z :=
  if (48 <=? code c) && (code c <=? 49) then Some (code c - 48) else None.

(** Reads the longest run of digits: the accumulated value, the number of
    digits read and what follows them. *)
Fixpoint read_digits (digit : ascii -> option Z) (radix : Z)
    (s : string) (acc cnt : Z) : Z * Z * string :=
  match s with
  | "" => (acc, cnt, "")
  | String c s' =>
      match digit c with
      | Some v => read_digits digit radix s' (acc * radix + v) (cnt + 1)
      | None => (acc, cnt, s)
      end
  end.

Definition nonDecimalLiteral (digit : ascii -> option Z) (radix : Z)
    (s : string) : JsNumber :=
  let '(v, cnt, rest) := read_digits digit radix s 0 0 in
  if (0 <? cnt) && String.eqb rest "" then round_binary64 false v 1 else NaN.

(** ExponentPart: [e] or [E], an optional sign, at least one digit, and
    nothing after it.  No exponent part at all is exponent [0]. *)
Definition exponentPart (s : string) : option Z :=
  match s with
  | "" => Some 0
  | String c r =>
      if (code c =? 101) || (code c =? 69) then
        let '(negative, ds) :=
          match r with
          | String sg r' =>
              if code sg =? 43 then (false, r')
              else if code sg =? 45 then (true, r')
              else (false, r)
          | "" => (false, r)
          end in
        let '(v, cnt, rest) := read_digits decimal_digit 10 ds 0 0 in
        if (0 <? cnt) && String.eqb rest ""
        then Some (if negative then - v else v) else None
      else None
  end.

Definition unsignedDecimalLiteral (negative : bool) (s : string) : JsNumber :=
  if String.eqb s "Infinity" then Infinity negative else
  let '(ip, ci, r1) := read_digits decimal_digit 10 s 0 0 in
  let '(digits, cf, r2) :=
    match r1 with
    | String c r1' =>
        if code c =? 46 then read_digits decimal_digit 10 r1' ip 0
        else (ip, 0, r1)
    | "" => (ip, 0, r1)
    end in
  if 0 <? ci + cf then
    match exponentPart r2 with
    | Some x =>
        let p := x - cf in
        if 0 <=? p then round_binary64 negative (digits * 10 ^ p) 1
        else round_binary64 negative digits (10 ^ (- p))
    | None => NaN
    end
  else NaN.

Definition decimalLiteral (s : string) : JsNumber :=
  match s with
  | String c r =>
      if code c =? 43 then unsignedDecimalLiteral false r
      else if code c =? 45 then unsignedDecimalLiteral true r
      else unsignedDecimalLiteral false s
  | "" => NaN
  end.

(** [Number(s)] for a string [s]. *)
Definition Number (s : string) : JsNumber :=
  let t := trim s in
  match t with
  | "" => Finite 0 0
  | String c0 (String c1 r) =>
      if (code c0 =? 48) && ((code c1 =? 120) || (code c1 =? 88))
      then nonDecimalLiteral hex_digit 16 r
      else if (code c0 =? 48) && ((code c1 =? 111) || (code c1 =? 79))
      then nonDecimalLiteral octal_digit 8 r
      else if (code c0 =? 48) && ((code c1 =? 98) || (code c1 =? 66))
      then nonDecimalLiteral binary_digit 2 r
      else decimalLiteral t
  | _ => decimalLiteral t
  end.

(** ** Values *)

(** A loosely typed value, as produced by [YAML.parse] / [JSON.parse] or by
    the coercions of the command line.  An object carries its own
    enumerable properties in the order [Object.entries] reports them. *)
#[local] Unset Elimination Schemes.
Inductive JsValue : Type :=
  | VUndefined
  | VNull
  | VBool (b : bool)
  | VNum (n : JsNumber)
  | VStr (s : string)
  | VArr (items : list JsValue)
  | VObj (props : list (string * JsValue)).
#[local] Set Elimination Schemes.

(** [typeof v] *)
Definition typeof (v : JsValue) : string :=
  match v with
  | VUndefined => "undefined"
  | VNull => "object"
  | VBool _ => "boolean"
  | VNum _ => "number"
  | VStr _ => "string"
  | VArr _ => "object"
  | VObj _ => "object"
  end.

(** Truthiness ([if (v)], [Boolean(v)], [!v]). *)
Definition truthy (v : JsValue) : bool :=
  match v with
  | VUndefined | VNull => false
  | VBool b => b
  | VNum n => negb (isNaN n) && negb (bool_decide (n = Finite 0 0))
  | VStr s => negb (String.eqb s "")
  | VArr _ | VObj _ => true
  end.

Fixpoint assoc (k : string) (props : list (string * JsValue)) : JsValue :=
  match props with
  | [] => VUndefined
  | (k', v) :: rest => if String.eqb k k' then v else assoc k rest
  end.

(** *** Plain objects under assignment *)

(** What an object created by [{}] inherits from once [__proto__] has been
    assigned to: [Object.prototype] (the start), nothing, or a value. *)
Inductive Proto : Type :=
  | StandardProto
  | NullProto
  | ValueProto (v : JsValue).

(** An object used as a dictionary by [o[key] = v]: its own enumerable
    properties (what [Object.entries], a spread and [JSON.stringify] see)
    and its prototype. *)
Record Plain : Type := {
  own : gmap string JsValue;
  proto : Proto
}.

(** [{}] *)
Definition emptyObject : Plain := {| own := ∅; proto := StandardProto |}.

(** Whether an assignment to [__proto__] that goes up the prototype chain
    stops before the accessor of [Object.prototype]: the chain is empty, or
    the prototype is an object with an own property of that name. *)
Definition shadowsAccessor (p : Proto) : bool :=
  match p with
  | StandardProto => false
  | NullProto => true
  | ValueProto (VObj props) =>
      existsb (fun kv => String.eqb (fst kv) "__proto__") props
  | ValueProto _ => false
  end.

(** [o[key] = v].  Every key but [__proto__] becomes (or stays) an own
    property: the values that can be in the prototype chain have writable
    data properties only.  For [__proto__] an own property of that name is
    updated; failing that, the accessor of [Object.prototype], when the
    chain reaches it, replaces the prototype by an object or null and
    ignores every other value, and no own property is made; only when the
    chain does not reach the accessor is an own property made. *)
Definition assignProp (o : Plain) (key : string) (v : JsValue) : Plain :=
  if String.eqb key "__proto__" then
    match own o !! key with
    | Some _ => {| own := <[key := v]> (own o); proto := proto o |}
    | None =>
        if shadowsAccessor (proto o)
        then {| own := <[key := v]> (own o); proto := proto o |}
        else
          match v with
          | VObj _ | VArr _ => {| own := own o; proto := ValueProto v |}
          | VNull => {| own := own o; proto := NullProto |}
          | _ => o
          end
    end
  else {| own := <[key := v]> (own o); proto := proto o |}.

(** Whether [String(v)] throws: an object with an own property [toString]
    (which, coming from a parsed document, is not a function) cannot be
    converted, and a list is converted element by element. *)
Fixpoint unprintable (v : JsValue) : bool :=
  match v with
  | VObj props => existsb (fun kv => String.eqb (fst kv) "toString") props
  | VArr items => existsb unprintable items
  | _ => false
  end.

(** The message of the [TypeError] of a failed conversion. *)
Definition conversionError : string := "Cannot convert object to primitive value".

(** [v?.k] for a data property [k] that no prototype defines: the property
    of an object, [undefined] on everything else. *)
Definition getProp (v : JsValue) (k : string) : JsValue :=
  match v with
  | VObj props => assoc k props
  | _ => VUndefined
  end.

(** ** [node:path] (POSIX flavour) *)

Fixpoint split_slash (s cur : string) : list string :=
  match s with
  | "" => [String.rev cur]
  | String c r =>
      if code c =? 47 then String.rev cur :: split_slash r ""
      else split_slash r (String c cur)
  end.

(** The last non-empty component of a path, trailing slashes ignored. *)
Definition lastComponent (p : string) : string :=
  List.last (List.filter (fun seg => negb (String.eqb seg "")) (split_slash p "")) "".

(** Splits a component at its last dot: what precedes the dot, and the rest
    from the dot on. *)
Fixpoint lastDot (s : string) : option (string * string) :=
  match s with
  | "" => None
  | String c r =>
      match lastDot r with
      | Some (a, b) => Some (String c a, b)
      | None => if code c =? 46 then Some ("", s) else None
      end
  end.

(** [path.extname(p)]: from the last dot of the last component on; empty
    when there is no dot, when the dot opens the component, or when the
    component is [..]. *)
Definition extname (p : string) : string :=
  let comp := lastComponent p in
  match lastDot comp with
  | Some (stem, ext) =>
      if String.eqb stem "" || String.eqb comp ".." then "" else ext
  | None => ""
  end.

Definition endsWith (s suffix : string) : bool :=
  String.prefix (String.rev suffix) (String.rev s).

(** [path.basename(p, ext)]: the last component, without [ext] when the
    component ends with it and is more than it.  (Exact for every [ext]
    that is empty or at most as long as the last component, which covers
    [ext = extname(p)].) *)
Definition basename (p ext : string) : string :=
  let comp := lastComponent p in
  if negb (String.eqb ext "") && (len ext <=? len p) then
    if String.eqb ext p then ""
    else if endsWith comp ext && negb (String.eqb comp ext)
    then slice comp 0 (len comp - len ext)
    else comp
  else comp.

(** ** Results of effectful code *)

(** What a call into a library or onto the outside ends with: it returns,
    or it throws an [Error(message)]. *)
Inductive Attempt (A : Type) : Type :=
  | Returns (a : A)
  | Throws (message : string).
Arguments Returns {A} a.
Arguments Throws {A} message.

(** What a piece of sequential code ends with: a value, [process.exit(code)]
    or a thrown [Error(message)]. *)
Inductive Outcome (A : Type) : Type :=
  | Done (a : A)
  | Exit (code : Z)
  | Throw (message : string).
Arguments Done {A} a.
Arguments Exit {A} code.
Arguments Throw {A} message.

Definition attempted {A : Type} (x : Attempt A) : Outcome A :=
  match x with
  | Returns a => Done a
  | Throws m => Throw m
  end.

End Js.

Import Js.

(* ===================================================================== *)
(** * The service client: run-completion monitor                          *)
(* ===================================================================== *)

Module Azdo.

Record RunInfo : Type := {
  run_id : Z;
  state : option string;
  result : option string;
  url : option string
}.

(** [WaitOptions]; the optional [onUpdate] observer is represented by the
    list of runs it is called with (see [Trace]). *)
Record WaitOptions : Type := {
  pollMs : Z;
  timeoutMs : Z
}.

(** One turn of the service and of the clock, as the monitor meets them:
    what the next [getRun] call ends with (a run, or a thrown service
    error), and what [Date.now()] reads when the elapsed-time check that
    follows this call is evaluated. *)
Record Poll : Type := {
  response : Attempt RunInfo;
  clock : Z
}.

(** What the monitor did: the result of each [getRun] call, each run handed
    to [onUpdate], and the duration of each [sleep]. *)
Record Trace : Type := {
  queries : list (Attempt RunInfo);
  updates : list RunInfo;
  sleeps : list Z
}.

Definition noTrace : Trace := {| queries := []; updates := []; sleeps := [] |}.

Definition onQuery (o : Attempt RunInfo) (t : Trace) : Trace :=
  {| queries := queries t ++ [o]; updates := updates t; sleeps := sleeps t |}.

Definition onUpdate (r : RunInfo) (t : Trace) : Trace :=
  {| queries := queries t; updates := updates t ++ [r]; sleeps := sleeps t |}.

Definition sleep (ms : Z) (t : Trace) : Trace :=
  {| queries := queries t; updates := updates t; sleeps := sleeps t ++ [ms] |}.

Definition timedOut : string := "Timed out waiting for pipeline run to complete".

Definition isCompleted (r : RunInfo) : bool :=
  match state r with
  | Some s => String.eqb s "completed"
  | None => false
  end.

(** The [while (true)] loop.  Each iteration consumes one [Poll]; when the
    script of the service ends before the loop does, the monitor is still
    polling and there is no result yet ([None]). *)
Fixpoint waitLoop (options : WaitOptions) (started : Z) (script : list Poll)
    (t : Trace) : option (Attempt RunInfo) * Trace :=
  match script with
  | [] => (None, t)
  | p :: rest =>
      let t := onQuery (response p) t in
      match response p with
      | Returns run =>
          let t := onUpdate run t in
          if isCompleted run then (Some (Returns run), t)
          else if timeoutMs options <? clock p - started
          then (Some (Throws timedOut), t)
          else waitLoop options started rest (sleep (pollMs options) t)
      | Throws m => (Some (Throws m), t)
      end
  end.

(** [waitForCompletion(config, pipelineId, runId, options)]: [started] is
    the first reading of the clock, [script] the behaviour of
    [getRun(config, pipelineId, runId)] and of the clock afterwards. *)
Definition waitForCompletion (options : WaitOptions) (started : Z)
    (script : list Poll) : option (Attempt RunInfo) * Trace :=
  waitLoop options started script noTrace.

(** Run 42 as the service reports it in a given state. *)
Definition runIn (s : string) (outcome : option string) : RunInfo :=
  {| run_id := 42; state := Some s; result := outcome; url := None |}.

End Azdo.

(* ===================================================================== *)
(** * cli.ts                                                              *)
(* ===================================================================== *)

Module Cli.

(** ** The world outside the process *)

(** What [getPipelineYaml] of the service client resolves to. *)
Record YamlInfo : Type := {
  content : option string;
  yaml_path : option string;
  repositoryType : option string
}.

Record TriggerRunInput : Type := {
  pipelineId : JsNumber;
  branch : string;
  parameters : gmap string JsValue
}.

(** Everything the command obtains from outside: the two parsers it
    imports, the file system, the pipeline service and the person at the
    terminal.  A prompt is identified by its position among the prompts of
    the invocation; its answer is a value of the kind the prompt resolves
    to, [None] standing for the cancel symbol that [isCancel] recognises.
    [findYamlFiles] is what the walk of the project tree collects (the
    [.yml] and [.yaml] files outside the ignored directories, in the order
    of the walk), or the error of a directory that cannot be read. *)
Record World : Type := {
  YAML_parse : string -> Attempt JsValue;
  JSON_parse : string -> Attempt JsValue;
  readFile : string -> Attempt string;
  findYamlFiles : Attempt (list string);
  getPipelineYaml : JsNumber -> string -> Attempt YamlInfo;
  triggerPipelineRun : TriggerRunInput -> Attempt Azdo.RunInfo;
  select : nat -> option JsValue;
  selectText : nat -> option string;
  confirm : nat -> option bool;
  text : nat -> option string
}.


Inductive Notice : Type :=
  | FoundParameters (count : nat) (label : string)
  | SkippingPrompts (repoType : string)
  | CouldNotReadYaml (error : string)
  | NoYamlFound
  | Reported (message : string).


(** The state a command threads: how many prompts have been answered and
    what has been reported. *)
Record State : Type := {
  asked : nat;
  notices : list Notice
}.

Definition initial : State := {| asked := 0; notices := [] |}.

(** Sequential code of the command: from a state to an outcome and the
    state reached.  A thrown error or an exit keeps the state it left. *)
Definition Run (A : Type) : Type := State -> Outcome A * State.

Definition ret {A : Type} (a : A) : Run A := fun st => (Done a, st).

Definition bind {A B : Type} (m : Run A) (k : A -> Run B) : Run B :=
  fun st =>
    match m st with
    | (Done a, st') => k a st'
    | (Exit c, st') => (Exit c, st')
    | (Throw e, st') => (Throw e, st')
    end.

Notation "x <~ m ;; k" := (bind m (fun x => k))
  (at level 100, m at next level, right associativity).

Definition lift {A : Type} (o : Outcome A) : Run A := fun st => (o, st).

(** Awaits a call that returns or throws. *)
Definition call {A : Type} (x : Attempt A) : Run A := lift (attempted x).

Definition throw {A : Type} (message : string) : Run A := lift (Throw message).

Definition notice (n : Notice) : Run unit :=
  fun st => (Done tt, {| asked := asked st; notices := notices st ++ [n] |}).

(** Awaits the next prompt. *)
Definition ask {A : Type} (answers : nat -> option A) : Run (option A) :=
  fun st =>
    (Done (answers (asked st)),
     {| asked := S (asked st); notices := notices st |}).

(** [try { body } catch (err) { handler(err.message) }] *)
Definition tryCatch {A : Type} (body : Run A) (handler : string -> Run A) : Run A :=
  fun st =>
    match body st with
    | (Throw e, st') => handler e st'
    | other => other
    end.

(** On the cancel symbol: [outro], then [process.exit(1)]; any other value is
    handed back. *)
Definition exitIfCancel {A : Type} (value : option A) : Run A :=
  match value with
  | None => lift (Exit 1)
  | Some v => ret v
  end.

(** [m] never ends the process with another code than [code]. *)
Definition exitsOnlyWith {A : Type} (code : Z) (m : Run A) : Prop :=
  forall st c st', m st = (Exit c, st') -> c = code.

(** ** Literal coercion and the two flag parsers *)

Definition parseParamValue (raw : string) : JsValue :=
  let trimmed := trim raw in
  if String.eqb trimmed "true" then VBool true
  else if String.eqb trimmed "false" then VBool false
  else
    let num := Number trimmed in
    if negb (isNaN num) && negb (String.eqb trimmed "") then VNum num
    else VStr trimmed.

(** The body of the [for ... of] loop of [parseParams], threading the
    [params] object. *)
Fixpoint parseParams_loop (paramEntries : list string) (params : Plain) : Plain :=
  match paramEntries with
  | [] => params
  | entry :: rest =>
      let idx := indexOf entry "=" in
      if idx =? -1 then parseParams_loop rest params
      else
        let key := trim (slice entry 0 idx) in
        let value := sliceFrom entry (idx + 1) in
        if String.eqb key "" then parseParams_loop rest params
        else parseParams_loop rest (assignProp params key (parseParamValue value))
  end.

(** The entries of the object [parseParams] returns. *)
Definition parseParams (paramEntries : list string) : gmap string JsValue :=
  own (parseParams_loop paramEntries emptyObject).

(** [/^-\d/.test(s)] *)
Definition dashDigit (s : string) : bool :=
  match s with
  | String c0 (String c1 _) => (code c0 =? 45) && is_digit c1
  | _ => false
  end.

(** The [for] loop of [parseUnknownParamFlags] from position [i] on, [args]
    being the arguments from [i]; the branch that does [i += 1] continues
    after the consumed token. *)
Fixpoint parseUnknownParamFlags_loop (args : list string) (params : Plain) : Plain :=
  match args with
  | [] => params
  | arg :: rest =>
      if String.eqb arg "" then parseUnknownParamFlags_loop rest params
      else if String.eqb arg "--" then parseUnknownParamFlags_loop rest params
      else if startsWith arg "--no-" then
        let key := sliceFrom arg 5 in
        if negb (String.eqb key "")
        then parseUnknownParamFlags_loop rest (assignProp params key (VBool false))
        else parseUnknownParamFlags_loop rest params
      else if startsWith arg "--" then
        let eq := indexOf arg "=" in
        if negb (eq =? -1) then
          let key := slice arg 2 eq in
          let value := sliceFrom arg (eq + 1) in
          if negb (String.eqb key "")
          then parseUnknownParamFlags_loop rest
                 (assignProp params key (parseParamValue value))
          else parseUnknownParamFlags_loop rest params
        else
          let key := sliceFrom arg 2 in
          if negb (String.eqb key "") then
            match rest with
            | next :: rest' =>
                if negb (String.eqb next "")
                   && (negb (startsWith next "-") || dashDigit next)
                then parseUnknownParamFlags_loop rest'
                       (assignProp params key (parseParamValue next))
                else parseUnknownParamFlags_loop rest (assignProp params key (VBool true))
            | [] => parseUnknownParamFlags_loop rest (assignProp params key (VBool true))
            end
          else parseUnknownParamFlags_loop rest params
      else parseUnknownParamFlags_loop rest params
  end.

(** The entries of the object [parseUnknownParamFlags] returns. *)
Definition parseUnknownParamFlags (args : list string) : gmap string JsValue :=
  own (parseUnknownParamFlags_loop args emptyObject).

(** ** Local definition locator *)

Definition normalizeForMatch (value : option string) : string :=
  match value with
  | None => ""
  | Some v => if String.eqb v "" then "" else removeNonAlnum (toLowerCase v)
  end.

Definition nonEmpty (s : string) : bool := negb (String.eqb s "").

Definition scoreYamlCandidate (filePath : string)
    (pipelineKey pipelineName : option string) : Z :=
  let base := toLowerCase (basename filePath (extname filePath)) in
  let baseNorm := normalizeForMatch (Some base) in
  let pathNorm := normalizeForMatch (Some filePath) in
  let keyNorm := normalizeForMatch pipelineKey in
  let nameNorm := normalizeForMatch pipelineName in
  let score := 0 in
  let score := if nonEmpty keyNorm && includes baseNorm keyNorm then score + 8 else score in
  let score := if nonEmpty nameNorm && includes baseNorm nameNorm then score + 6 else score in
  let score := if nonEmpty keyNorm && includes pathNorm keyNorm then score + 4 else score in
  let score := if nonEmpty nameNorm && includes pathNorm nameNorm then score + 3 else score in
  let score := if includes base "azure-pipelines" then score + 2 else score in
  let score := if includes pathNorm "pipeline" then score + 1 else score in
  score.

Record Scored : Type := { file : string; score : Z }.

(** [.sort((a, b) => b.score - a.score)]: by decreasing score, candidates of
    equal score keeping their order (the sort of the engine is stable). *)
Fixpoint insertByScore (x : Scored) (sorted : list Scored) : list Scored :=
  match sorted with
  | [] => [x]
  | y :: rest =>
      if score x <? score y then y :: insertByScore x rest
      else x :: sorted
  end.

Definition sortByScore (items : list Scored) : list Scored :=
  List.fold_right insertByScore [] items.

(** The candidates that survive, best first: what [scored] holds. *)
Definition scoreCandidates (files : list string)
    (pipelineKey pipelineName : option string) : list Scored :=
  sortByScore
    (List.filter (fun item => 0 <? score item)
       (List.map (fun f => {| file := f;
                              score := scoreYamlCandidate f pipelineKey pipelineName |})
          files)).

Definition selectLocalYamlFile (w : World) (pipelineKey pipelineName : option string)
    (interactive : bool) : Run (option string) :=
  files <~ call (findYamlFiles w) ;;
  match scoreCandidates files pipelineKey pipelineName with
  | [] => ret None
  | [only] => ret (Some (file only))
  | (first :: _) as scored =>
      let topScore := score first in
      let top := List.filter (fun item => score item =? topScore) scored in
      match top with
      | [one] => ret (Some (file one))
      | _ =>
          if negb interactive then ret (Some (file first))
          else
            selection <~ bind (ask (selectText w)) exitIfCancel ;;
            ret (Some selection)
      end
  end.

Definition readLocalYaml (w : World) (filePath : string) : Run (option string) :=
  tryCatch
    (content <~ call (readFile w filePath) ;; ret (Some content))
    (fun _ => ret None).

(** ** Declared parameters *)

Record PipelineParamSpec : Type := {
  spec_name : string;
  spec_type : string;
  spec_default : JsValue;
  spec_values : option (list JsValue)
}.

Definition isUndefined (v : JsValue) : bool :=
  match v with VUndefined => true | _ => false end.

(** The loop of [defaultsFromSpecs]. *)
Fixpoint defaultsFromSpecs_loop (specs : list PipelineParamSpec) (params : Plain) : Plain :=
  match specs with
  | [] => params
  | spec :: rest =>
      if negb (isUndefined (spec_default spec))
      then defaultsFromSpecs_loop rest (assignProp params (spec_name spec) (spec_default spec))
      else defaultsFromSpecs_loop rest params
  end.

(** The entries of the object [defaultsFromSpecs] returns. *)
Definition defaultsFromSpecs (specs : list PipelineParamSpec) : gmap string JsValue :=
  own (defaultsFromSpecs_loop specs emptyObject).

Definition inferParamType (value : JsValue) : string :=
  match value with
  | VNull | VUndefined => "string"
  | VArr _ => "array"
  | _ => typeof value
  end.

Definition normalizeParamSpec (param : JsValue) : option PipelineParamSpec :=
  match param with
  | VStr s =>
      Some {| spec_name := s; spec_type := "string";
              spec_default := VUndefined; spec_values := None |}
  | VObj _ =>
      match getProp param "name" with
      | VStr name =>
          let type :=
            match getProp param "type" with
            | VStr t => t
            | _ => inferParamType (getProp param "default")
            end in
          let values :=
            match getProp param "values" with
            | VArr vs => Some vs
            | _ => None
            end in
          Some {| spec_name := name; spec_type := type;
                  spec_default := getProp param "default"; spec_values := values |}
      | _ => None
      end
  | _ => None
  end.

Definition extractParamsFromYaml (w : World) (yamlText : string)
    : Attempt (list PipelineParamSpec) :=
  match YAML_parse w yamlText with
  | Throws e => Throws e
  | Returns doc =>
      let params := getProp doc "parameters" in
      if negb (truthy params) then Returns []
      else
        match params with
        | VArr items => Returns (omap normalizeParamSpec items)
        | VObj props =>
            Returns (List.map
                       (fun '(name, value) =>
                          {| spec_name := name; spec_type := inferParamType value;
                             spec_default := value; spec_values := None |})
                       props)
        | _ => Returns []
        end
  end.

(** ** Pipeline selection *)

Definition CONFIG_FILENAME : string := "azdo.config.json".

Record PipelineEntry : Type := {
  entry_id : JsNumber;
  entry_name : option string;
  entry_branch : option string;
  entry_path : option string
}.

(** [AzdoConfig] of the configuration file; [pipelines] lists the catalog in
    the order of [Object.entries]. *)
Record AzdoFileConfig : Type := {
  orgUrl : string;
  project : string;
  pipelines : option (list (string * PipelineEntry))
}.

Record PipelineSelection : Type := {
  sel_key : option string;
  sel_id : JsNumber;
  sel_name : option string;
  sel_branch : option string;
  sel_path : option string
}.

(** [Number(entry.id)] is [entry.id] itself, the field being a number. *)
Definition normalizePipelineEntry (entry : option PipelineEntry) : option PipelineEntry :=
  match entry with
  | None => None
  | Some e =>
      let id := entry_id e in
      if isNaN id then None
      else Some {| entry_id := id; entry_name := entry_name e;
                   entry_branch := entry_branch e; entry_path := entry_path e |}
  end.

Fixpoint listConfigPipelines_loop (entries : list (string * PipelineEntry))
    : list (string * PipelineEntry) :=
  match entries with
  | [] => []
  | (key, entry) :: rest =>
      match normalizePipelineEntry (Some entry) with
      | None => listConfigPipelines_loop rest
      | Some normalized => (key, normalized) :: listConfigPipelines_loop rest
      end
  end.

Definition listConfigPipelines (pipelines : option (list (string * PipelineEntry)))
    : list (string * PipelineEntry) :=
  match pipelines with
  | None => []
  | Some entries => listConfigPipelines_loop entries
  end.

(** [a ?? b] *)
Definition orElse {A : Type} (a b : option A) : option A :=
  match a with Some _ => a | None => b end.

(** The selection built from a catalog entry. *)
Definition selectionOf (key : string) (entry : PipelineEntry) : PipelineSelection :=
  {| sel_id := entry_id entry;
     sel_name := orElse (entry_name entry) (Some key);
     sel_branch := entry_branch entry;
     sel_path := entry_path entry;
     sel_key := Some key |}.

Definition quoted (s : string) : string :=
  String.append (String (chr 34) s) (String (chr 34) "").

Definition resolvePipelineSelection (w : World) (config : AzdoFileConfig)
    (pipelineArg : option string) : Run PipelineSelection :=
  let entries := listConfigPipelines (pipelines config) in
  let byKey (k : string) := List.find (fun e => String.eqb (fst e) k) entries in
  let interactively : Run PipelineSelection :=
    match entries with
    | [] => throw (String.append "No pipelines found in " CONFIG_FILENAME)
    | _ =>
        selection <~ bind (ask (selectText w)) exitIfCancel ;;
        match byKey selection with
        | Some (key, entry) => ret (selectionOf key entry)
        | None => throw "Invalid pipeline selection"
        end
    end in
  match pipelineArg with
  | Some arg =>
      if nonEmpty arg then
        let asNumber := Number arg in
        if negb (isNaN asNumber) then
          let found := List.find (fun e => num_strict_eq (entry_id (snd e)) asNumber) entries in
          ret {| sel_id := asNumber;
                 sel_name := orElse (found ≫= (fun e => entry_name (snd e))) (fst <$> found);
                 sel_branch := found ≫= (fun e => entry_branch (snd e));
                 sel_path := found ≫= (fun e => entry_path (snd e));
                 sel_key := fst <$> found |}
        else
          match byKey arg with
          | Some (key, entry) => ret (selectionOf key entry)
          | None =>
              throw (String.append "Unknown pipeline "
                       (String.append (quoted arg)
                          (String.append " in " CONFIG_FILENAME)))
          end
      else interactively
  | None => interactively
  end.

(** ** Interactive parameters *)

(** The loop of [promptForParameters], threading [result].  The prompt
    provider resolves a text prompt to a string and a confirmation to a
    boolean, on which [String(...)] and [Boolean(...)] are the identity.
    The options of a menu are built before the menu is shown, with
    [String(value)] as the label of each value. *)
Fixpoint promptForParameters_loop (w : World) (params : list PipelineParamSpec)
    (result : Plain) : Run Plain :=
  match params with
  | [] => ret result
  | param :: rest =>
      let type := toLowerCase (spec_type param) in
      let name := spec_name param in
      match spec_values param with
      | Some ((_ :: _) as values) =>
          if existsb unprintable values then throw conversionError
          else
            picked <~ bind (ask (select w)) exitIfCancel ;;
            promptForParameters_loop w rest (assignProp result name picked)
      | _ =>
          if String.eqb type "boolean" then
            picked <~ bind (ask (confirm w)) exitIfCancel ;;
            promptForParameters_loop w rest (assignProp result name (VBool picked))
          else
            input <~ bind (ask (text w)) exitIfCancel ;;
            if String.eqb (trim input) "" then
              if negb (isUndefined (spec_default param))
              then promptForParameters_loop w rest
                     (assignProp result name (spec_default param))
              else promptForParameters_loop w rest result
            else if String.eqb type "number" then
              let num := Number input in
              promptForParameters_loop w rest
                (assignProp result name (if isNaN num then VStr input else VNum num))
            else if String.eqb type "object" || String.eqb type "array" then
              let parsed :=
                match JSON_parse w input with
                | Returns v => v
                | Throws _ => VStr input
                end in
              promptForParameters_loop w rest (assignProp result name parsed)
            else promptForParameters_loop w rest (assignProp result name (VStr input))
      end
  end.

(** The entries of the object [promptForParameters] resolves to. *)
Definition promptForParameters (w : World) (params : list PipelineParamSpec)
    : Run (gmap string JsValue) :=
  result <~ promptForParameters_loop w params emptyObject ;;
  ret (own result).

(** ** The [build] action, from the known selection to the trigger *)

Record BuildOptions : Type := {
  opt_prompt : bool;
  opt_param : list string;
  opt_args : list string
}.

(** [{ ...a, ...b }]: the entries of [b] over those of [a]. *)
Definition spread (a b : gmap string JsValue) : gmap string JsValue := b ∪ a.

(** The variables of the search for the definition text. *)
Record YamlSearch : Type := {
  yamlContent : option string;
  yamlLabel : option string;
  repoType : option string;
  yamlError : option string
}.

(** [if (s)] on an optional string. *)
Definition present (s : option string) : bool :=
  match s with Some v => nonEmpty v | None => false end.

Definition noYaml : YamlSearch :=
  {| yamlContent := None; yamlLabel := None; repoType := None; yamlError := None |}.

Definition found (content label : string) (s : YamlSearch) : YamlSearch :=
  {| yamlContent := Some content; yamlLabel := Some label;
     repoType := repoType s; yamlError := yamlError s |}.

(** First source: the file the catalog names for the pipeline. *)
Definition searchLocalPath (w : World) (selection : PipelineSelection)
    (s : YamlSearch) : Run YamlSearch :=
  match sel_path selection with
  | Some path =>
      if nonEmpty path then
        local <~ readLocalYaml w path ;;
        if present local then ret (found (default "" local) path s) else ret s
      else ret s
  | None => ret s
  end.

(** Second source: the definition stored by the service. *)
Definition searchRemote (w : World) (selection : PipelineSelection)
    (branch : string) (s : YamlSearch) : Run YamlSearch :=
  if present (yamlContent s) then ret s
  else
    tryCatch
      (yamlInfo <~ call (getPipelineYaml w (sel_id selection) branch) ;;
       let s := {| yamlContent := yamlContent s; yamlLabel := yamlLabel s;
                   repoType := repositoryType yamlInfo; yamlError := yamlError s |} in
       if present (content yamlInfo)
       then ret (found (default "" (content yamlInfo))
                   (default "pipeline YAML" (yaml_path yamlInfo)) s)
       else ret s)
      (fun err =>
         ret {| yamlContent := yamlContent s; yamlLabel := yamlLabel s;
                repoType := repoType s; yamlError := Some err |}).

(** Third source: the best-scoring file of the project tree. *)
Definition searchLocator (w : World) (options : BuildOptions)
    (selection : PipelineSelection) (s : YamlSearch) : Run YamlSearch :=
  if present (yamlContent s) then ret s
  else
    localPick <~ selectLocalYamlFile w (sel_key selection) (sel_name selection)
                   (opt_prompt options) ;;
    if present localPick then
      local <~ readLocalYaml w (default "" localPick) ;;
      if present local then ret (found (default "" local) (default "" localPick) s)
      else ret s
    else ret s.

Definition findDefinition (w : World) (options : BuildOptions)
    (selection : PipelineSelection) (branch : string) : Run YamlSearch :=
  s <~ searchLocalPath w selection noYaml ;;
  s <~ searchRemote w selection branch s ;;
  searchLocator w options selection s.

(** The parameters obtained from the declared specs: prompted for, or
    their defaults when prompting is off. *)
Definition parametersFromSpecs (w : World) (options : BuildOptions)
    (label : option string) (specs : list PipelineParamSpec)
    : Run (gmap string JsValue) :=
  match specs with
  | [] => ret ∅
  | _ =>
      _ <~ notice (FoundParameters (List.length specs) (default "pipeline YAML" label)) ;;
      if opt_prompt options then promptForParameters w specs
      else ret (defaultsFromSpecs specs)
  end.

Definition parametersFromDefinition (w : World) (options : BuildOptions)
    (s : YamlSearch) : Run (gmap string JsValue) :=
  if present (yamlContent s) then
    specs <~ call (extractParamsFromYaml w (default "" (yamlContent s))) ;;
    parametersFromSpecs w options (yamlLabel s) specs
  else if present (repoType s)
          && negb (String.eqb (default "" (repoType s)) "azureReposGit") then
    _ <~ notice (SkippingPrompts (default "" (repoType s))) ;; ret ∅
  else if present (yamlError s) then
    _ <~ notice (CouldNotReadYaml (default "" (yamlError s))) ;; ret ∅
  else
    _ <~ notice NoYamlFound ;; ret ∅.

Definition mergedParams (parameters : gmap string JsValue) (options : BuildOptions)
    : gmap string JsValue :=
  let overrideParams := parseParams (opt_param options) in
  let flagParams := parseUnknownParamFlags (opt_args options) in
  spread (spread parameters overrideParams) flagParams.

Definition buildParameters (w : World) (options : BuildOptions)
    (selection : PipelineSelection) (branch : string)
    : Run (gmap string JsValue) :=
  s <~ findDefinition w options selection branch ;;
  parameters <~ parametersFromDefinition w options s ;;
  ret (mergedParams parameters options).

Definition buildTrigger (w : World) (options : BuildOptions)
    (selection : PipelineSelection) (branch : string) : Run Azdo.RunInfo :=
  merged <~ buildParameters w options selection branch ;;
  call (triggerPipelineRun w {| pipelineId := sel_id selection;
                                branch := branch;
                                parameters := merged |}).

(** The [try { ... } catch (err)] around an action and the exit of the
    process: a thrown error is reported (unless it is a missing-environment
    error, already reported) and sets the exit code to [1]; [process.exit]
    fixes the code itself. *)
Definition exitCode {A : Type} (r : Outcome A * State) : Z :=
  match r with
  | (Done _, _) => 0
  | (Exit c, _) => c
  | (Throw _, _) => 1
  end.

Definition reported {A : Type} (r : Outcome A * State) : list Notice :=
  match r with
  | (Throw e, st) =>
      if startsWith e "Missing env " then notices st
      else notices st ++ [Reported e]
  | (_, st) => notices st
  end.

(** ** Sample worlds *)

(** A world in which nothing outside answers: files and service calls fail,
    every prompt is cancelled; [parse] is its YAML parser and [files] what
    the enumeration of the project tree finds. *)
Definition silentWorld (parse : string -> Attempt JsValue) (files : list string) : World :=
  {| YAML_parse := parse;
     JSON_parse := fun _ => Throws "Unexpected end of JSON input";
     readFile := fun _ => Throws "ENOENT: no such file or directory";
     findYamlFiles := Returns files;
     getPipelineYaml := fun _ _ => Throws "AzDO API error 404: ";
     triggerPipelineRun := fun _ => Throws "AzDO API error 401: ";
     select := fun _ => None;
     selectText := fun _ => None;
     confirm := fun _ => None;
     text := fun _ => None |}.

(** The world [w] in which the enumeration of the project tree finds
    [files]. *)
Definition withFiles (w : World) (files : list string) : World :=
  {| YAML_parse := YAML_parse w;
     JSON_parse := JSON_parse w;
     readFile := readFile w;
     findYamlFiles := Returns files;
     getPipelineYaml := getPipelineYaml w;
     triggerPipelineRun := triggerPipelineRun w;
     select := select w;
     selectText := selectText w;
     confirm := confirm w;
     text := text w |}.

(** The parsed form of
    [parameters: [{name: a, type: boolean, default: true}, b]]. *)
Definition sequenceDocument : JsValue :=
  VObj [("parameters",
         VArr [VObj [("name", VStr "a"); ("type", VStr "boolean"); ("default", VBool true)];
               VStr "b"])].

(** A world without YAML: its parser rejects every text. *)
Definition bareWorld : World := silentWorld (fun _ => Throws "YAMLParseError") [].

(** A configuration whose catalog is [entries]. *)
Definition configOf (entries : list (string * PipelineEntry)) : AzdoFileConfig :=
  {| orgUrl := "https://dev.azure.com/org"; project := "App"; pipelines := Some entries |}.

Definition androidEntry : PipelineEntry :=
  {| entry_id := ofZ 12; entry_name := Some "Android Staging";
     entry_branch := None; entry_path := None |}.


(** A world whose only voice is the person typing: the [i]-th prompt, when
    it is a text prompt, is answered by the [i]-th text of [typed]. *)
Definition typingWorld (typed : list string) : World :=
  {| YAML_parse := fun _ => Throws "YAMLParseError";
     JSON_parse := fun _ => Throws "Unexpected end of JSON input";
     readFile := fun _ => Throws "ENOENT: no such file or directory";
     findYamlFiles := Returns [];
     getPipelineYaml := fun _ _ => Throws "AzDO API error 404: ";
     triggerPipelineRun := fun _ => Throws "AzDO API error 401: ";
     select := fun _ => None;
     selectText := fun _ => None;
     confirm := fun _ => None;
     text := fun i => typed !! i |}.

Definition sampleSpecs : list PipelineParamSpec :=
  [ {| spec_name := "env"; spec_type := "string";
       spec_default := VStr "dev"; spec_values := None |};
    {| spec_name := "region"; spec_type := "string";
       spec_default := VStr "eu"; spec_values := None |} ].

Definition sampleOptions (prompt : bool) : BuildOptions :=
  {| opt_prompt := prompt; opt_param := ["env=prod"; "retries=3"];
     opt_args := ["--env"; "qa"; "--verbose"] |}.

(** A world in which the catalog path [azure-pipelines.yml] is readable and
    holds a text that the YAML parser rejects. *)
Definition brokenYamlWorld : World :=
  {| YAML_parse := fun _ => Throws "Flow sequence in block collection must be terminated";
     JSON_parse := fun _ => Throws "Unexpected end of JSON input";
     readFile := fun path =>
       if String.eqb path "azure-pipelines.yml" then Returns "parameters: ["
       else Throws "ENOENT: no such file or directory";
     findYamlFiles := Returns [];
     getPipelineYaml := fun _ _ => Throws "AzDO API error 404: ";
     triggerPipelineRun := fun _ =>
       Returns {| Azdo.run_id := 7; Azdo.state := Some "queued";
                  Azdo.result := None; Azdo.url := None |};
     select := fun _ => None;
     selectText := fun _ => None;
     confirm := fun _ => None;
     text := fun _ => None |}.

Definition sampleSelection (path : option string) : PipelineSelection :=
  {| sel_key := Some "android_staging"; sel_id := ofZ 12;
     sel_name := Some "Android Staging"; sel_branch := None; sel_path := path |}.

(** ** Shapes used to state what the parsers produce *)

(** An object with the entries [m] that still inherits from
    [Object.prototype]. *)
Definition plainObject (m : gmap string JsValue) : Plain :=
  {| own := m; proto := StandardProto |}.

(** The entries after a parameter has been set: the name [__proto__] sets
    nothing, any other name gets the value. *)
Definition stored (key : string) (v : JsValue) (m : gmap string JsValue)
    : gmap string JsValue :=
  if String.eqb key "__proto__" then m else <[key := v]> m.

(** An entry of a [--param] list, by its shape: a text without ['='], or
    [key=value], the key being what is before the first ['=']. *)
Inductive ParamItem : Type :=
  | Bare (entry : string)
  | Pair (key value : string).

Definition rendered (item : ParamItem) : string :=
  match item with
  | Bare entry => entry
  | Pair key value => key +:+ "=" +:+ value
  end.

(** The key of an item is before its first ['=']. *)
Definition shaped (item : ParamItem) : Prop :=
  match item with
  | Bare entry => ~ In "="%char (chars entry)
  | Pair key _ => ~ In "="%char (chars key)
  end.

(** What an item does to the overrides: a pair with a key that is not
    blank sets the trimmed key to the coerced value; every other item does
    nothing. *)
Definition setOverride (m : gmap string JsValue) (item : ParamItem)
    : gmap string JsValue :=
  match item with
  | Bare _ => m
  | Pair key value =>
      if String.eqb (trim key) "" then m
      else stored (trim key) (parseParamValue value) m
  end.

(** Whether the menu of a spec cannot be built: one of its values has no
    label. *)
Definition menuFails (param : PipelineParamSpec) : bool :=
  match spec_values param with
  | Some ((_ :: _) as values) => existsb unprintable values
  | _ => false
  end.

(** What literal coercion can produce: a boolean, a number other than NaN,
    or text. *)
Definition coerced (v : JsValue) : bool :=
  match v with
  | VBool _ | VStr _ => true
  | VNum n => negb (isNaN n)
  | _ => false
  end.

(** A parameter as the parsers may produce it. *)
Definition wellFormed (k : string) (v : JsValue) : Prop :=
  k <> "" /\ coerced v = true.

(** A file with the score it gets for a pipeline. *)
Definition candidate (pipelineKey pipelineName : option string) (f : string) : Scored :=
  {| file := f; score := scoreYamlCandidate f pipelineKey pipelineName |}.

(** The candidates with a positive score, in the order of the files. *)
Definition keptCandidates (pipelineKey pipelineName : option string)
    (files : list string) : list Scored :=
  List.filter (fun item => 0 <? score item)
    (List.map (candidate pipelineKey pipelineName) files).

End Cli.

(* ===================================================================== *)
(** * The service client: the rest of the module                          *)
(* ===================================================================== *)

Module Service.
Import Azdo.

(** ** Reading the trace of the monitor *)

(** The runs among the results of the queries. *)
Definition returned (qs : list (Attempt RunInfo)) : list RunInfo :=
  omap (fun q => match q with Returns r => Some r | Throws _ => None end) qs.

(** A turn after which the loop goes round again: the query returned a run
    that is not completed, and the deadline had not passed at the check. *)
Definition keepsWaiting (options : WaitOptions) (started : Z) (p : Poll) : bool :=
  match response p with
  | Returns run => negb (isCompleted run) && (clock p - started <=? timeoutMs options)
  | Throws _ => false
  end.

(** The trace [t] after the loop has gone round on each turn of [turns]. *)
Definition passedOver (options : WaitOptions) (turns : list Poll) (t : Trace) : Trace :=
  {| queries := queries t ++ List.map response turns;
     updates := updates t ++ returned (List.map response turns);
     sleeps := sleeps t ++ replicate (length turns) (pollMs options) |}.

End Service.

(* ===================================================================== *)
(** * cli.ts: the walk of the project tree                                *)
(* ===================================================================== *)

Module Tree.

(** An entry as [readdir(dir, { withFileTypes: true })] reports it: a file,
    a directory (with what reading it will give: its entries, or the error
    of a directory that cannot be read), or something that is neither (a
    symbolic link, a socket).  Names are plain: not empty, no slash. *)
#[local] Unset Elimination Schemes.
Inductive Dirent : Type :=
  | FileEntry (name : string)
  | DirEntry (name : string) (listing : Attempt (list Dirent))
  | OtherEntry (name : string).
#[local] Set Elimination Schemes.

Definition IGNORE_DIRS : list string :=
  [".git"; "node_modules"; "dist"; "build"; ".next"; ".turbo"; ".idea"; ".vscode"; ".cache"].

(** [IGNORE_DIRS.has(name)] *)
Definition ignored (name : string) : bool := existsb (String.eqb name) IGNORE_DIRS.

(** [ext === ".yml" || ext === ".yaml"] for the lower-cased extension. *)
Definition isYamlName (name : string) : bool :=
  let ext := toLowerCase (extname name) in
  String.eqb ext ".yml" || String.eqb ext ".yaml".

(** [relative(cwd, resolve(current, name))], [current] being given relative
    to [cwd] (the empty path for [cwd] itself). *)
Definition child (current name : string) : string :=
  if String.eqb current "" then name else current +:+ "/" +:+ name.

(** A directory waiting in [queue]: its path and what [readdir] gives. *)
Definition Pending : Type := string * Attempt (list Dirent).

(** The [for ... of entries] loop over one directory. *)
Fixpoint scan (current : string) (entries : list Dirent)
    (queue : list Pending) (results : list string) : list Pending * list string :=
  match entries with
  | [] => (queue, results)
  | DirEntry name listing :: rest =>
      if ignored name then scan current rest queue results
      else scan current rest (queue ++ [(child current name, listing)]) results
  | FileEntry name :: rest =>
      if isYamlName name then scan current rest queue (results ++ [child current name])
      else scan current rest queue results
  | OtherEntry _ :: rest => scan current rest queue results
  end.

(** [queue.pop()]: the last element and what is before it. *)
Fixpoint pop {A : Type} (queue : list A) : option (list A * A) :=
  match queue with
  | [] => None
  | x :: rest =>
      match pop rest with
      | None => Some ([], x)
      | Some (before, last) => Some (x :: before, last)
      end
  end.

(** The [while (queue.length > 0)] loop, for at most [fuel] directories;
    [None] when the fuel does not suffice. *)
Fixpoint walk (fuel : nat) (queue : list Pending) (results : list string)
    : option (Attempt (list string)) :=
  match fuel with
  | O => None
  | S fuel' =>
      match pop queue with
      | None => Some (Returns results)
      | Some (queue', (current, listing)) =>
          match listing with
          | Throws e => Some (Throws e)
          | Returns entries =>
              let '(queue'', results') := scan current entries queue' results in
              walk fuel' queue'' results'
          end
      end
  end.

(** [findYamlFiles(cwd)], [root] being what reading [cwd] gives. *)
Definition findYamlFiles (fuel : nat) (root : Attempt (list Dirent))
    : option (Attempt (list string)) :=
  walk fuel [("", root)] [].

(** *** What the walk amounts to *)

(** The YAML files directly in a directory, in the order of its entries. *)
Fixpoint filesOf (current : string) (entries : list Dirent) : list string :=
  match entries with
  | [] => []
  | FileEntry name :: rest =>
      if isYamlName name then child current name :: filesOf current rest
      else filesOf current rest
  | _ :: rest => filesOf current rest
  end.

(** The number of directories the walk reads at or below an entry. *)
Fixpoint reads (e : Dirent) : nat :=
  match e with
  | DirEntry name listing =>
      if ignored name then O
      else S (match listing with
              | Returns entries => list_sum (List.map reads entries)
              | Throws _ => O
              end)
  | _ => O
  end.

(** The walk at or below an entry of [current], continuing from [acc]: the
    files of the directory itself, then those of its sub-directories, the
    last one first; the first directory that cannot be read ends it. *)
Fixpoint visit (current : string) (e : Dirent) (acc : Attempt (list string))
    : Attempt (list string) :=
  match e with
  | DirEntry name listing =>
      if ignored name then acc
      else
        match acc, listing with
        | Throws e, _ => Throws e
        | Returns _, Throws e => Throws e
        | Returns results, Returns entries =>
            let here := child current name in
            List.fold_right (visit here) (Returns (results ++ filesOf here entries)%list) entries
        end
  | _ => acc
  end.

(** The sub-directories of a directory that the walk queues, in the order
    of its entries. *)
Fixpoint subdirs (current : string) (entries : list Dirent) : list Pending :=
  match entries with
  | [] => []
  | DirEntry name listing :: rest =>
      if ignored name then subdirs current rest
      else (child current name, listing) :: subdirs current rest
  | _ :: rest => subdirs current rest
  end.

(** The walk of a queued directory, continuing from [acc]. *)
Definition visitPending (d : Pending) (acc : Attempt (list string))
    : Attempt (list string) :=
  match acc, snd d with
  | Throws e, _ => Throws e
  | Returns _, Throws e => Throws e
  | Returns results, Returns entries =>
      List.fold_right (visit (fst d)) (Returns (results ++ filesOf (fst d) entries)%list)
        entries
  end.

(** The number of directories the walk reads for a queue. *)
Definition readsOf (queue : list Pending) : nat :=
  list_sum (List.map (fun d => S (match snd d with
                                  | Returns entries => list_sum (List.map reads entries)
                                  | Throws _ => O
                                  end)) queue).

(** A path the walk lists: a YAML file of the directory, or a path listed in
    a readable sub-directory that is not ignored. *)
Inductive Listed : string -> list Dirent -> string -> Prop :=
  | listed_here current entries name :
      In (FileEntry name) entries ->
      isYamlName name = true ->
      Listed current entries (child current name)
  | listed_below current entries name sub path :
      In (DirEntry name (Returns sub)) entries ->
      ignored name = false ->
      Listed (child current name) sub path ->
      Listed current entries path.

(** A directory the walk would read and cannot: one of the directory, not
    ignored, or one inside a readable sub-directory that is not ignored. *)
Inductive Unreadable : list Dirent -> Prop :=
  | unreadable_here entries name e :
      In (DirEntry name (Throws e)) entries ->
      ignored name = false ->
      Unreadable entries
  | unreadable_below entries name sub :
      In (DirEntry name (Returns sub)) entries ->
      ignored name = false ->
      Unreadable sub ->
      Unreadable entries.

(** A path listed in one of the sub-directories of a directory. *)
Definition ListedBelow (current : string) (entries : list Dirent) (path : string) : Prop :=
  exists name sub,
    In (DirEntry name (Returns sub)) entries
    /\ ignored name = false
    /\ Listed (child current name) sub path.

(** What a walk that started from [results] has come to: with a list, the
    list continues [results] with exactly the listed paths, the files of the
    directory first, and no directory was unreadable; with an error, some
    directory was. *)
Definition Walked (current : string) (entries : list Dirent) (results : list string)
    (out : Attempt (list string)) : Prop :=
  match out with
  | Returns files =>
      (exists more, files = (results ++ filesOf current entries ++ more)%list
                    /\ forall path, In path (filesOf current entries ++ more)
                                    <-> Listed current entries path)
      /\ ~ Unreadable entries
  | Throws _ => Unreadable entries
  end.

Definition WalkedBelow (e : Dirent) : Prop :=
  match e with
  | DirEntry _ (Returns sub) =>
      forall current results,
        Walked current sub results (visitPending (current, Returns sub) (Returns results))
  | _ => True
  end.

(** The fuel that suffices for a tree: one unit for each directory read,
    and one to find the queue empty. *)
Definition enoughFuel (entries : list Dirent) : nat :=
  2 + list_sum (List.map reads entries).

End Tree.

(* ===================================================================== *)
(** * cli.ts: the dialogue of a command                                   *)
(* ===================================================================== *)

Module Dialogue.
Import Js Cli.

(** The state after one more prompt. *)
Definition afterPrompts (n : nat) (st : State) : State :=
  {| asked := asked st + n; notices := notices st |}.

(** Whether the prompt that [promptForParameters] brings up for a spec is
    cancelled when it is the [n]-th prompt of the invocation: a menu for a
    spec with values, a confirmation for a boolean, a text field else. *)
Definition cancelledAt (w : World) (param : PipelineParamSpec) (n : nat) : bool :=
  match spec_values param with
  | Some (_ :: _) => match select w n with Some _ => false | None => true end
  | _ =>
      if String.eqb (toLowerCase (spec_type param)) "boolean"
      then match confirm w n with Some _ => false | None => true end
      else match text w n with Some _ => false | None => true end
  end.

(** A spec that [promptForParameters] asks for in a text field. *)
Definition textual (param : PipelineParamSpec) : bool :=
  match spec_values param with
  | Some (_ :: _) => false
  | _ => negb (String.eqb (toLowerCase (spec_type param)) "boolean")
  end.

(** A text answer that [input.trim() === ""] takes for no answer. *)
Definition blank (answer : option string) : bool :=
  match answer with
  | Some input => String.eqb (trim input) ""
  | None => false
  end.

(** The default a spec declares, if it declares one. *)
Definition declaredDefault (param : PipelineParamSpec) : option JsValue :=
  if isUndefined (spec_default param) then None else Some (spec_default param).

(** The value entered for a spec at the [n]-th prompt of the invocation:
    the value picked in its menu, the boolean confirmed, or the text typed,
    read as the type of the spec says; nothing for a blank text and for a
    cancelled prompt. *)
Definition entered (w : World) (param : PipelineParamSpec) (n : nat) : option JsValue :=
  let type := toLowerCase (spec_type param) in
  match spec_values param with
  | Some (_ :: _) => select w n
  | _ =>
      if String.eqb type "boolean" then VBool <$> confirm w n
      else
        match text w n with
        | Some input =>
            if String.eqb (trim input) "" then None
            else if String.eqb type "number" then
              Some (if isNaN (Number input) then VStr input else VNum (Number input))
            else if String.eqb type "object" || String.eqb type "array" then
              Some (match JSON_parse w input with
                    | Returns v => v
                    | Throws _ => VStr input
                    end)
            else Some (VStr input)
        | None => None
        end
  end.

(** The result object after the prompt of a spec has been answered: the
    value entered, or else the declared default, is assigned to the name of
    the spec; with neither, nothing is assigned. *)
Definition answered (w : World) (param : PipelineParamSpec) (n : nat) (result : Plain)
    : Plain :=
  match orElse (entered w param n) (declaredDefault param) with
  | Some v => assignProp result (spec_name param) v
  | None => result
  end.










End Dialogue.

(* ===================================================================== *)
(** * cli.ts: what [init] writes into the catalog                         *)
(* ===================================================================== *)

Module Init.
Import Js Cli.

(** A character of [a-z0-9]. *)
Definition is_alnum (c : ascii) : bool := is_lower c || is_digit c.

Definition is_underscore (c : ascii) : bool := code c =? 95.

(** [s.replace(/[^a-z0-9]+/g, "_")]: every maximal run of characters
    outside [a-z0-9] becomes one underscore; [inRun] tells that the
    character before belongs to such a run. *)
Fixpoint underscoreRuns_from (inRun : bool) (s : string) : string :=
  match s with
  | "" => ""
  | String c r =>
      if is_alnum c then String c (underscoreRuns_from false r)
      else if inRun then underscoreRuns_from true r
      else String "_" (underscoreRuns_from true r)
  end.

Definition underscoreRuns (s : string) : string := underscoreRuns_from false s.

Fixpoint all_underscores (s : string) : bool :=
  match s with
  | "" => true
  | String c r => is_underscore c && all_underscores r
  end.

(** The alternative [^_+] of [s.replace(/^_+|_+$/g, "")]. *)
Fixpoint dropLeadingUnderscores (s : string) : string :=
  match s with
  | "" => ""
  | String c r => if is_underscore c then dropLeadingUnderscores r else s
  end.

(** The alternative [_+$]: the underscores that reach the end. *)
Fixpoint dropTrailingUnderscores (s : string) : string :=
  match s with
  | "" => ""
  | String c r =>
      if all_underscores s then "" else String c (dropTrailingUnderscores r)
  end.

Definition slugifyPipelineName (name : string) : string :=
  let slug :=
    dropTrailingUnderscores
      (dropLeadingUnderscores (underscoreRuns (toLowerCase name))) in
  if String.eqb slug "" then "pipeline" else slug.

(** What the service lists for a pipeline ([folder] plays no part). *)
Record PipelineInfo : Type := {
  info_id : JsNumber;
  info_name : string
}.

(** An entry of the catalog as [init] writes it: [{ id, name }]. *)
Definition catalogEntry (pipeline : PipelineInfo) : JsNumber * string :=
  (info_id pipeline, info_name pipeline).

(** [if (map[key])] for a slug: the entries are objects, hence truthy, and
    of the properties every object inherits only [constructor] has a name
    that a slug can be. *)
Definition taken (map : gmap string (JsNumber * string)) (key : string) : bool :=
  match map !! key with
  | Some _ => true
  | None => String.eqb key "constructor"
  end.

(** The key under which the loop of [buildPipelineMap] stores a pipeline;
    [toString] is the conversion of the id in the template literal. *)
Definition keyFor (toString : JsNumber -> string)
    (map : gmap string (JsNumber * string)) (pipeline : PipelineInfo) : string :=
  let key := slugifyPipelineName (info_name pipeline) in
  if taken map key then key +:+ "_" +:+ toString (info_id pipeline) else key.

Fixpoint buildPipelineMap_loop (toString : JsNumber -> string)
    (pipelines : list PipelineInfo) (map : gmap string (JsNumber * string))
    : gmap string (JsNumber * string) :=
  match pipelines with
  | [] => map
  | pipeline :: rest =>
      buildPipelineMap_loop toString rest
        (<[keyFor toString map pipeline := catalogEntry pipeline]> map)
  end.

Definition buildPipelineMap (toString : JsNumber -> string)
    (pipelines : list PipelineInfo) : gmap string (JsNumber * string) :=
  buildPipelineMap_loop toString pipelines ∅.

(** [n <= 0] on numbers. *)
Definition notPositive (n : JsNumber) : bool :=
  match n with
  | NaN => false
  | Infinity negative => negative
  | Finite m _ => m <=? 0
  end.

(** What [parsePollMs] is given: a string, a number, or nothing (undefined
    or null). *)
Inductive PollValue : Type :=
  | PollNone
  | PollText (s : string)
  | PollNumber (n : JsNumber).

Definition parsePollMs (value : PollValue) : JsNumber :=
  match value with
  | PollNone => ofZ 7000
  | PollText s =>
      if String.eqb s "" then ofZ 7000
      else
        let parsed := Number s in
        if isNaN parsed || notPositive parsed then ofZ 7000 else parsed
  | PollNumber parsed =>
      if isNaN parsed || notPositive parsed then ofZ 7000 else parsed
  end.

(** The check of [--poll] in the [run] action:
    [Number.isNaN(pollMs) || pollMs <= 0] rejects. *)
Definition pollAccepted (poll : string) : bool :=
  negb (isNaN (Number poll) || notPositive (Number poll)).

(** *** Shapes *)

(** Not beginning with an underscore. *)
Definition startsPlain (s : string) : bool :=
  match s with String c _ => negb (is_underscore c) | "" => true end.

(** No underscore is followed by an underscore, and every character is of
    [a-z0-9_]. *)
Fixpoint tidy (s : string) : bool :=
  match s with
  | "" => true
  | String c r =>
      if is_alnum c then tidy r
      else is_underscore c
           && match r with String d _ => is_alnum d | "" => true end
           && tidy r
  end.

(** As [tidy], and no underscore at the end. *)
Fixpoint slugTail (s : string) : bool :=
  match s with
  | "" => true
  | String c r =>
      if is_alnum c then slugTail r
      else is_underscore c
           && match r with String d _ => is_alnum d | "" => false end
           && slugTail r
  end.

(** [/^[a-z0-9]+(_[a-z0-9]+)*$/] *)
Definition isSlug (s : string) : bool :=
  match s with
  | String c _ => is_alnum c && slugTail s
  | "" => false
  end.

(** A printer of integers, for examples. *)
Definition digitsOf (n : JsNumber) : string :=
  match n with
  | Finite m e => if 0 <=? e then pretty (m * 2 ^ e) else "?"
  | _ => "?"
  end.

End Init.

(* ===================================================================== *)
(** * The service client: branches and the stored definition              *)
(* ===================================================================== *)

Module Client.
Import Js Cli.

(** [s] without the prefix [p], when it begins with it. *)
Fixpoint removePrefix (p s : string) : option string :=
  match p, s with
  | "", _ => Some s
  | String a p', String b s' =>
      if Ascii.eqb a b then removePrefix p' s' else None
  | String _ _, "" => None
  end.

(** [refName] of [triggerPipelineRun]: the ref the run is asked for. *)
Definition refName (branch : string) : string :=
  if startsWith branch "refs/" then branch else "refs/heads/" +:+ branch.

(** [branch.replace(/^refs\/heads\//, "")] *)
Definition stripHeads (branch : string) : string :=
  default branch (removePrefix "refs/heads/" branch).

Definition normalizeBranch (branch : option string) : option string :=
  match branch with
  | Some b => if nonEmpty b then Some (stripHeads b) else None
  | None => None
  end.

(** [PipelineDefinition], as far as [getPipelineYaml] reads it. *)
Record Repository : Type := {
  repo_id : option string;
  repo_type : option string;
  repo_defaultBranch : option string
}.

Record Configuration : Type := {
  cfg_type : option string;
  cfg_path : option string;
  cfg_repository : option Repository
}.

Record PipelineDefinition : Type := {
  configuration : option Configuration
}.

(** The query for the definition file: the repository, the path and, when
    a branch is known, the version descriptor. *)
Record ItemsQuery : Type := {
  q_repository : string;
  q_path : string;
  q_version : option string
}.

(** What [getPipelineYaml] does once it has the pipeline: it answers at
    once, or it asks the repository for a file. *)
Inductive YamlRequest : Type :=
  | Answer (info : YamlInfo)
  | Fetch (query : ItemsQuery) (path repositoryType : string).

Definition yamlRequest (pipeline : PipelineDefinition) (branch : option string)
    : YamlRequest :=
  match configuration pipeline with
  | None =>
      Answer {| content := None; yaml_path := None; repositoryType := None |}
  | Some cfg =>
      if negb (bool_decide (cfg_type cfg = Some "yaml")) then
        Answer {| content := None; yaml_path := None; repositoryType := cfg_type cfg |}
      else
        let unusable :=
          Answer {| content := None; yaml_path := cfg_path cfg;
                    repositoryType := cfg_repository cfg ≫= repo_type |} in
        match cfg_repository cfg with
        | None => unusable
        | Some repo =>
            if negb (present (repo_id repo))
               || negb (bool_decide (repo_type repo = Some "azureReposGit"))
               || negb (present (cfg_path cfg))
            then unusable
            else
              let branchName :=
                orElse (normalizeBranch branch)
                       (normalizeBranch (repo_defaultBranch repo)) in
              Fetch {| q_repository := default "" (repo_id repo);
                       q_path := default "" (cfg_path cfg);
                       q_version := if present branchName then branchName else None |}
                    (default "" (cfg_path cfg)) "azureReposGit"
        end
  end.

(** [getPipelineYaml(config, pipelineId, branch)], given what the request
    for the pipeline ends with and what a request for a file would end
    with (the [content] field of the item, if it has one). *)
Definition getPipelineYaml (definition : Attempt PipelineDefinition)
    (items : ItemsQuery -> Attempt (option string)) (branch : option string)
    : Attempt YamlInfo :=
  match definition with
  | Throws e => Throws e
  | Returns pipeline =>
      match yamlRequest pipeline branch with
      | Answer info => Returns info
      | Fetch query path type =>
          match items query with
          | Throws e => Throws e
          | Returns text =>
              Returns {| content := text; yaml_path := Some path;
                         repositoryType := Some type |}
          end
      end
  end.


End Client.

(* ===================================================================== *)
(** * config.ts: the environment                                          *)
(* ===================================================================== *)

Module Config.
Import Js Cli.

Record AzdoEnv : Type := {
  env_orgUrl : option string;
  env_project : option string;
  env_pat : string;
  env_defaultBranch : string
}.

Record AzdoConfig : Type := {
  conf_orgUrl : string;
  conf_project : string;
  conf_pat : string;
  conf_defaultBranch : string
}.

(** A line written through the logger. *)
Inductive Line : Type :=
  | ErrorLine (message : string)
  | InfoLine (message : string).

(** [value && value.trim().length > 0] on a variable of [process.env]. *)
Definition filled (value : option string) : bool :=
  match value with
  | Some v => nonEmpty v && (0 <? len (trim v))
  | None => false
  end.

(** A function of the module: what it returns or throws, and what it has
    logged by then. *)
Definition Logged (A : Type) : Type := Attempt A * list Line.

(** What [requireEnv] does for a variable that is not filled. *)
Definition missingEnv (name : string) : Logged string :=
  (Throws ("Missing env " +:+ name),
   [ ErrorLine ("Missing required env: " +:+ name);
     InfoLine "Create a .env file with required variables:";
     InfoLine "  AZDO_ORG_URL=https://dev.azure.com/your-org";
     InfoLine "  AZDO_PROJECT=Your Project";
     InfoLine "  AZDO_PAT=xxxxxxxxxxxxxxxx" ]).

Definition requireEnv (env : gmap string string) (name : string) : Logged string :=
  match env !! name with
  | Some value =>
      if negb (nonEmpty value) || (len (trim value) =? 0) then missingEnv name
      else (Returns value, [])
  | None => missingEnv name
  end.

Definition optionalEnv (env : gmap string string) (name : string) : option string :=
  if filled (env !! name) then env !! name else None.

(** [process.env.AZDO_DEFAULT_BRANCH?.trim() || "develop"] *)
Definition defaultBranchOf (env : gmap string string) : string :=
  match env !! "AZDO_DEFAULT_BRANCH" with
  | Some v => if nonEmpty (trim v) then trim v else "develop"
  | None => "develop"
  end.

Definition getAzdoEnv (requireOrgProject : bool) (env : gmap string string)
    : Logged AzdoEnv :=
  match requireEnv env "AZDO_PAT" with
  | (Throws e, lines) => (Throws e, lines)
  | (Returns pat, lines) =>
      let orgUrl := optionalEnv env "AZDO_ORG_URL" in
      let project := optionalEnv env "AZDO_PROJECT" in
      let defaultBranch := defaultBranchOf env in
      if requireOrgProject && negb (present orgUrl) then
        (Throws "Missing env AZDO_ORG_URL",
         (lines ++ [ErrorLine "Missing required env: AZDO_ORG_URL"])%list)
      else if requireOrgProject && negb (present project) then
        (Throws "Missing env AZDO_PROJECT",
         (lines ++ [ErrorLine "Missing required env: AZDO_PROJECT"])%list)
      else
        (Returns {| env_orgUrl := orgUrl; env_project := project;
                    env_pat := pat; env_defaultBranch := defaultBranch |},
         lines)
  end.

(** [env.orgUrl as string]: the value is there once [getAzdoEnv(true)]
    has returned. *)
Definition getAzdoConfig (env : gmap string string) : Logged AzdoConfig :=
  match getAzdoEnv true env with
  | (Throws e, lines) => (Throws e, lines)
  | (Returns e, lines) =>
      (Returns {| conf_orgUrl := default "" (env_orgUrl e);
                  conf_project := default "" (env_project e);
                  conf_pat := env_pat e;
                  conf_defaultBranch := env_defaultBranch e |},
       lines)
  end.

(** The variables [getAzdoEnv] insists on, in the order it looks at them. *)
Definition required (requireOrgProject : bool) : list string :=
  if requireOrgProject then ["AZDO_PAT"; "AZDO_ORG_URL"; "AZDO_PROJECT"]
  else ["AZDO_PAT"].

(** The first of them that the environment does not fill. *)
Definition firstMissing (requireOrgProject : bool) (env : gmap string string)
    : option string :=
  List.find (fun name => negb (filled (env !! name))) (required requireOrgProject).

(** An environment for examples. *)
Definition sampleEnv : gmap string string :=
  {[ "AZDO_PAT" := "s3cr3t";
     "AZDO_ORG_URL" := "https://dev.azure.com/org";
     "AZDO_PROJECT" := "   " ]}.

End Config.

(* ===================================================================== *)
(** * cli.ts: the [run] action                                            *)
(* ===================================================================== *)

Module Commands.
Import Js Cli Init.

Record RunOptions : Type := {
  run_pipeline : string;
  run_branch : option string;
  run_param : list string;
  run_wait : bool;
  run_poll : string;
  run_args : list string
}.

(** What an invocation of [run] has done when it ends: the trigger request
    it sent, if any; the poll interval it waited with, if it waited; the
    messages it gave to [ui.error]; and the exit code of the process. *)
Record Ended : Type := {
  triggered : option TriggerRunInput;
  waitedWith : option JsNumber;
  errors : list string;
  code : Z
}.

(** The [catch] of the action: the error is reported unless it is a
    missing-environment error, and the exit code is set to [1]. *)
Definition failed (triggered : option TriggerRunInput) (waitedWith : option JsNumber)
    (message : string) : Ended :=
  {| triggered := triggered; waitedWith := waitedWith;
     errors := if startsWith message "Missing env " then [] else [message];
     code := 1 |}.

(** The end of a wait that returned: [completed.result !== "succeeded"]
    is reported and sets the exit code. *)
Definition completedWith (triggered : option TriggerRunInput)
    (waitedWith : option JsNumber) (completed : Azdo.RunInfo) : Ended :=
  if bool_decide (Azdo.result completed = Some "succeeded") then
    {| triggered := triggered; waitedWith := waitedWith; errors := []; code := 0 |}
  else
    {| triggered := triggered; waitedWith := waitedWith;
       errors := ["Result: " +:+ default "unknown" (Azdo.result completed)];
       code := 1 |}.

(** The request [run] sends to the trigger: the pipeline of [--pipeline],
    the branch of [--branch] or else the default branch, the [--param]
    pairs under the ad-hoc flags. *)
Definition runInput (config : Config.AzdoConfig) (options : RunOptions)
    : TriggerRunInput :=
  let pipelineId := Number (run_pipeline options) in
  let branch := default (Config.conf_defaultBranch config) (run_branch options) in
  let parameters := parseParams (run_param options) in
  let flagParams := parseUnknownParamFlags (run_args options) in
  {| pipelineId := pipelineId; branch := branch;
     parameters := spread parameters flagParams |}.

(** The [run] action.  [config] is what [getAzdoConfig()] ends with,
    [trigger] and [wait] what [triggerPipelineRun] and [waitForCompletion]
    (for a poll interval and a run id) end with. *)
Definition runAction (config : Attempt Config.AzdoConfig)
    (trigger : TriggerRunInput -> Attempt Azdo.RunInfo)
    (wait : JsNumber -> Z -> Attempt Azdo.RunInfo)
    (options : RunOptions) : Ended :=
  match config with
  | Throws e => failed None None e
  | Returns config =>
      let pipelineId := Number (run_pipeline options) in
      if isNaN pipelineId then failed None None "--pipeline must be a number"
      else
        let input := runInput config options in
        match trigger input with
        | Throws e => failed (Some input) None e
        | Returns run =>
            if run_wait options then
              let pollMs := Number (run_poll options) in
              if isNaN pollMs || notPositive pollMs then
                failed (Some input) None "--poll must be a positive number"
              else
                match wait pollMs (Azdo.run_id run) with
                | Throws e => failed (Some input) (Some pollMs) e
                | Returns completed => completedWith (Some input) (Some pollMs) completed
                end
            else
              {| triggered := Some input; waitedWith := None; errors := []; code := 0 |}
        end
  end.

(** An invocation for examples: every request succeeds. *)
Definition sampleConfig : Config.AzdoConfig :=
  {| Config.conf_orgUrl := "https://dev.azure.com/org"; Config.conf_project := "App";
     Config.conf_pat := "s3cr3t"; Config.conf_defaultBranch := "develop" |}.

Definition sampleRun (outcome : option string) : Azdo.RunInfo :=
  {| Azdo.run_id := 7; Azdo.state := Some "completed";
     Azdo.result := outcome; Azdo.url := None |}.

Definition sampleRunOptions (pipeline poll : string) : RunOptions :=
  {| run_pipeline := pipeline; run_branch := None; run_param := ["env=prod"];
     run_wait := true; run_poll := poll; run_args := ["--env"; "qa"] |}.

End Commands.

(* ===================================================================== *)
(** * env-file.ts                                                         *)
(* ===================================================================== *)

Module EnvFile.
Import Js.

Definition newline : string := String (chr 10) "".

(** [content.split(/\r?\n/)]: the pieces between line feeds, a carriage
    return just before a line feed belonging to the separator. *)
Fixpoint splitLines (content : string) : list string :=
  match content with
  | "" => [""]
  | String c r =>
      if code c =? 10 then "" :: splitLines r
      else
        match r with
        | String d r' =>
            if (code c =? 13) && (code d =? 10) then "" :: splitLines r'
            else
              match splitLines r with
              | first :: rest => String c first :: rest
              | [] => [String c ""]
              end
        | "" => [String c ""]
        end
  end.

(** [lines.join("\n")] *)
Fixpoint joinLines (lines : list string) : string :=
  match lines with
  | [] => ""
  | [l] => l
  | l :: rest => l +:+ newline +:+ joinLines rest
  end.

(** [l.startsWith(`${key}=`)] *)
Definition isKeyLine (key l : string) : bool := startsWith l (key +:+ "=").

(** [out.filter((l, i, arr) => !(i === arr.length - 1 && l.trim() === ""))]:
    the last element goes when it is blank. *)
Fixpoint dropFinalBlank (out : list string) : list string :=
  match out with
  | [] => []
  | [l] => if String.eqb (trim l) "" then [] else [l]
  | l :: rest => l :: dropFinalBlank rest
  end.

(** The lines [upsertEnvVar] writes for a file that has the lines
    [lines]. *)
Definition upsertLines (key value : string) (lines : list string) : list string :=
  let line := key +:+ "=" +:+ value in
  let out := List.map (fun l => if isKeyLine key l then line else l) lines in
  let found := existsb (isKeyLine key) lines in
  dropFinalBlank (if found then out else (out ++ [line])%list).

(** [upsertEnvVar(cwd, key, value)] as a function of the content of
    [.env], if the file exists, to its new content. *)
Definition upsertEnvVar (existing : option string) (key value : string) : string :=
  match existing with
  | None => (key +:+ "=" +:+ value) +:+ newline
  | Some content => joinLines (upsertLines key value (splitLines content)) +:+ newline
  end.

End EnvFile.

(* ===================================================================== *)
(** * cli.ts: the branch of the [build] action                            *)
(* ===================================================================== *)

Module Branch.
Import Js Cli.

(** Where the [build] action can take the branch from: [--branch], the
    catalog entry, [defaults.branch] of the configuration file, and the
    default branch of the environment. *)
Record Sources : Type := {
  given : option string;
  fromCatalog : option string;
  fromDefaults : option string;
  fromEnv : string
}.

(** [options.branch ?? selection.branch ?? defaultBranch], with
    [defaultBranch = fileConfig.defaults?.branch ?? env.defaultBranch]. *)
Definition preselected (src : Sources) : string :=
  default (default (default (fromEnv src) (fromDefaults src)) (fromCatalog src))
    (given src).

(** The text question for a branch name: a blank answer keeps [branch]. *)
Definition enterBranch (w : World) (branch : string) : Run string :=
  answer <~ bind (ask (text w)) exitIfCancel ;;
  let input := trim answer in
  if nonEmpty input then ret input else ret branch.

(** The part of the action that settles the branch.  [branches] is what
    [listGitBranches] returns (it never throws).  The menus resolve to
    text; the warning printed when there are no git branches is not among
    the notices kept in the state. *)
Definition chooseBranch (w : World) (prompt : bool) (branches : list string)
    (src : Sources) : Run string :=
  let branch := preselected src in
  if negb (present (given src)) && prompt then
    method <~ bind (ask (selectText w)) exitIfCancel ;;
    if String.eqb method "enter" then enterBranch w branch
    else
      match branches with
      | [] => enterBranch w branch
      | _ =>
          selected <~ bind (ask (selectText w)) exitIfCancel ;;
          if nonEmpty selected then ret selected else ret branch
      end
  else ret branch.

End Branch.

(* ===================================================================== *)
(** * pat-store.ts and the token of config.ts                             *)
(* ===================================================================== *)

Module PatStore.
Import Js.

(** [loadStoredPat()], given the JSON parser and the content of the
    credentials file, if the file exists.  A file that does not parse, or
    whose [pat] is not a string or is blank, gives nothing. *)
Definition loadStoredPat (parse : string -> Attempt JsValue) (file : option string)
    : option string :=
  match file with
  | None => None
  | Some raw =>
      match parse raw with
      | Throws _ => None
      | Returns parsed =>
          let pat :=
            match getProp parsed "pat" with
            | VStr p => trim p
            | _ => ""
            end in
          if 0 <? len pat then Some pat else None
      end
  end.

(** [Boolean(loadStoredPat())] *)
Definition hasStoredPat (parse : string -> Attempt JsValue) (file : option string) : bool :=
  match loadStoredPat parse file with
  | Some pat => negb (String.eqb pat "")
  | None => false
  end.

(** The object [saveStoredPat] stores. *)
Definition payload (token updatedAt : string) : JsValue :=
  VObj [("pat", VStr token); ("updatedAt", VStr updatedAt)].

(** [saveStoredPat(pat)]: the content it writes to the credentials file,
    [stringify] being [JSON.stringify(_, null, 2)] and [now] the time stamp;
    the directory and the permissions of the file are left out. *)
Definition saveStoredPat (stringify : JsValue -> string) (now : string) (pat : string)
    : Attempt string :=
  let token := trim pat in
  if String.eqb token "" then Throws "PAT cannot be empty"
  else Returns (stringify (payload token now) +:+ String (chr 10) "").

(** [resolvePat()] of the configuration module that reads the token from
    the store. *)
Definition resolvePat (parse : string -> Attempt JsValue) (file : option string)
    : Attempt string :=
  match loadStoredPat parse file with
  | Some storedPat =>
      if negb (String.eqb storedPat "") then Returns storedPat
      else Throws "Not authenticated. Run azdo login first."
  | None => Throws "Not authenticated. Run azdo login first."
  end.

End PatStore.

(* ===================================================================== *)
(** * Properties                                                          *)
(* ===================================================================== *)

(** ** Strings: searching and slicing concatenations *)

Module StringFacts.

Lemma app_nil_l' b : "" +:+ b = b.
Proof. reflexivity. Qed.

Lemma app_cons x a b : String x a +:+ b = String x (a +:+ b).
Proof. reflexivity. Qed.

Ltac string_ind a :=
  induction a as [|? a ?IH]; rewrite ?app_nil_l', ?app_cons.

Lemma len_cons x a : len (String x a) = 1 + len a.
Proof. unfold len. cbn [String.length]. lia. Qed.

Lemma len_nonneg s : 0 <= len s.
Proof. unfold len. lia. Qed.

Lemma len_app a b : len (a +:+ b) = len a + len b.
Proof. string_ind a; [reflexivity|]. rewrite !len_cons, IH. lia. Qed.

Lemma app_assoc' a b c : (a +:+ b) +:+ c = a +:+ (b +:+ c).
Proof. string_ind a; congruence. Qed.

Lemma app_empty_r a : a +:+ "" = a.
Proof. string_ind a; congruence. Qed.

Lemma prefix_app p s : String.prefix p (p +:+ s) = true.
Proof.
  string_ind p; simpl; [by destruct s|].
  destruct (ascii_dec a a); [exact IH | congruence].
Qed.

Lemma prefix_char_absent c s :
  ~ In c (chars s) -> String.prefix (String c "") s = false.
Proof.
  destruct s as [|a s]; simpl; [done|].
  intros H. destruct (ascii_dec c a) as [->|]; [|done].
  exfalso. apply H. by left.
Qed.

Lemma indexOf_from_absent c s i :
  ~ In c (chars s) -> indexOf_from s (String c "") i = -1.
Proof.
  revert i. induction s as [|a s IH]; intros i H.
  - reflexivity.
  - cbn [indexOf_from]. rewrite (prefix_char_absent c (String a s) H).
    apply IH. intros Hin. apply H. by right.
Qed.

Lemma indexOf_absent c s : ~ In c (chars s) -> indexOf s (String c "") = -1.
Proof. apply indexOf_from_absent. Qed.

Lemma indexOf_from_first c a b i :
  ~ In c (chars a) ->
  indexOf_from (a +:+ String c b) (String c "") i = i + len a.
Proof.
  revert i. induction a as [|x a IH]; intros i H.
  - rewrite app_nil_l'. cbn. destruct (ascii_dec c c); [|congruence].
    destruct b; unfold len; simpl; lia.
  - rewrite app_cons. cbn [indexOf_from].
    assert (Hx : c <> x) by (intros ->; apply H; by left).
    assert (Hp : String.prefix (String c "") (String x (a +:+ String c b)) = false).
    { simpl. by destruct (ascii_dec c x). }
    rewrite Hp, IH, len_cons; [lia|].
    intros Hin. apply H. by right.
Qed.

(** The first occurrence of a character that the text before it lacks. *)
Lemma indexOf_first c a b :
  ~ In c (chars a) -> indexOf (a +:+ String c b) (String c "") = len a.
Proof. intros H. unfold indexOf. rewrite indexOf_from_first by done. lia. Qed.

Lemma substring_0_0 s : String.substring 0 0 s = "".
Proof. by destruct s. Qed.

Lemma substring_0_app a b n :
  String.substring 0 (String.length a + n) (a +:+ b) = a +:+ String.substring 0 n b.
Proof. string_ind a; simpl; congruence. Qed.

Lemma substring_skip a b n :
  String.substring (String.length a) n (a +:+ b) = String.substring 0 n b.
Proof. string_ind a; simpl; [done | exact IH]. Qed.

Lemma substring_0_prefix a b :
  String.substring 0 (String.length a) (a +:+ b) = a.
Proof.
  rewrite <- (Nat.add_0_r (String.length a)), substring_0_app, substring_0_0.
  apply app_empty_r.
Qed.

(** [(a + b + c).slice(|a|, |a| + |b|)] is [b]. *)
Lemma slice_middle a b c :
  slice (a +:+ b +:+ c) (len a) (len a + len b) = b.
Proof.
  unfold slice, clampIndex. rewrite !len_app.
  pose proof (len_nonneg a). pose proof (len_nonneg b). pose proof (len_nonneg c).
  destruct (Z.ltb_spec (len a) 0); [lia|].
  destruct (Z.ltb_spec (len a + len b) 0); [lia|].
  rewrite !Z.min_l by lia.
  replace (len a + len b - len a) with (len b) by lia.
  unfold len. rewrite !Nat2Z.id, substring_skip. apply substring_0_prefix.
Qed.

(** [(a + b).slice(|a|)] is [b]. *)
Lemma sliceFrom_app a b : sliceFrom (a +:+ b) (len a) = b.
Proof.
  unfold sliceFrom. rewrite len_app.
  pose proof (slice_middle a b "") as H. by rewrite app_empty_r in H.
Qed.

End StringFacts.

(** ** Assignment to a plain object *)

Module ObjectFacts.
Import Js Cli.

Lemma assign_other (o : Plain) key v :
  key <> "__proto__" ->
  assignProp o key v = {| own := <[key := v]> (own o); proto := proto o |}.
Proof. intros Hkey. unfold assignProp. by apply String.eqb_neq in Hkey as ->. Qed.

(** A parameter set by a parser: the value is a boolean, a number or text,
    which the accessor of [__proto__] ignores. *)
Lemma assign_stored (m : gmap string JsValue) key v :
  coerced v = true ->
  m !! "__proto__" = None ->
  assignProp (plainObject m) key v = plainObject (stored key v m).
Proof.
  intros Hv Hm. unfold assignProp, stored, plainObject. cbn [own proto].
  destruct (String.eqb key "__proto__") eqn:Hkey; [|done].
  apply String.eqb_eq in Hkey as ->. rewrite Hm. cbn [shadowsAccessor].
  by destruct v.
Qed.

Lemma stored_plain (m : gmap string JsValue) key v :
  m !! "__proto__" = None -> stored key v m !! "__proto__" = None.
Proof.
  intros Hm. unfold stored. destruct (String.eqb key "__proto__") eqn:Hkey; [done|].
  apply String.eqb_neq in Hkey. by rewrite lookup_insert_ne.
Qed.

Lemma stored_other (m : gmap string JsValue) key v :
  key <> "__proto__" -> stored key v m = <[key := v]> m.
Proof. intros Hkey. unfold stored. by apply String.eqb_neq in Hkey as ->. Qed.

End ObjectFacts.

(** ** The two flag parsers *)

Module FlagProps.
Import Cli StringFacts ObjectFacts.

Lemma nonempty_eqb s : s <> "" -> String.eqb s "" = false.
Proof. by destruct s. Qed.











Lemma parseParamValue_coerced raw : coerced (parseParamValue raw) = true.
Proof.
  unfold parseParamValue. cbv zeta.
  destruct (String.eqb (trim raw) "true"); [done|].
  destruct (String.eqb (trim raw) "false"); [done|].
  destruct (isNaN (Number (trim raw))) eqn:Hnan; [done|].
  destruct (String.eqb (trim raw) ""); [done|]. cbn. by rewrite Hnan.
Qed.

Section Steps.
Variables (name : string) (rest : list string) (params : gmap string JsValue).
Hypothesis name_given : name <> "".
Hypothesis params_plain : params !! "__proto__" = None.


Hypothesis not_no : String.prefix "no-" name = false.
Hypothesis no_eq : ~ In "="%char (chars name).





End Steps.





End FlagProps.

(** ** Declared parameters and the locator *)

Module SpecProps.
Import Cli.

(** C3.  Whatever else the parsed document holds: the sequence form
    [parameters: [{name: a, type: boolean, default: true}, b]] yields exactly
    the two specs [a] (boolean, default [true]) and [b] (string, no
    default); the mapping form [parameters: {c: 3}] yields exactly the spec
    [c] (number, default [3]); a document without a [parameters] section
    yields the empty list. *)
Theorem extractParamsFromYaml_forms (w : World) (yamlText : string) (doc : JsValue) :
  YAML_parse w yamlText = Returns doc ->
  (getProp doc "parameters"
   = VArr [VObj [("name", VStr "a"); ("type", VStr "boolean"); ("default", VBool true)];
           VStr "b"] ->
   extractParamsFromYaml w yamlText
   = Returns [ {| spec_name := "a"; spec_type := "boolean";
               spec_default := VBool true; spec_values := None |};
            {| spec_name := "b"; spec_type := "string";
               spec_default := VUndefined; spec_values := None |} ])
  /\ (getProp doc "parameters" = VObj [("c", VNum (ofZ 3))] ->
      extractParamsFromYaml w yamlText
      = Returns [ {| spec_name := "c"; spec_type := "number";
                  spec_default := VNum (ofZ 3); spec_values := None |} ])
  /\ (getProp doc "parameters" = VUndefined ->
      extractParamsFromYaml w yamlText = Returns []).
Proof.
  intros Hparse. unfold extractParamsFromYaml. rewrite Hparse.
  repeat split; intros Hsection; rewrite Hsection; reflexivity.
Qed.

Lemma extractParamsFromYaml_forms_witness :
  let w := silentWorld (fun _ => Returns sequenceDocument) [] in
  YAML_parse w "parameters: [{name: a, type: boolean, default: true}, b]"
  = Returns sequenceDocument
  /\ extractParamsFromYaml w "parameters: [{name: a, type: boolean, default: true}, b]"
     = Returns [ {| spec_name := "a"; spec_type := "boolean";
                 spec_default := VBool true; spec_values := None |};
              {| spec_name := "b"; spec_type := "string";
                 spec_default := VUndefined; spec_values := None |} ].
Proof.
  intros w. split; [reflexivity|].
  apply (extractParamsFromYaml_forms w _ sequenceDocument eq_refl). reflexivity.
Defined.

Lemma In_insertByScore x y l : In x (insertByScore y l) <-> x = y \/ In x l.
Proof.
  induction l as [|z l IH]; cbn [insertByScore].
  - cbn. intuition.
  - destruct (score y <? score z); cbn [In]; [rewrite IH|]; intuition.
Qed.

Lemma In_sortByScore x l : In x (sortByScore l) <-> In x l.
Proof.
  unfold sortByScore. induction l as [|y l IH]; cbn [fold_right]; [done|].
  rewrite In_insertByScore, IH. cbn. intuition.
Qed.

(** What the locator keeps: candidates of the enumeration, with their score,
    which is positive. *)
Lemma scoreCandidates_kept files key name item :
  In item (scoreCandidates files key name) ->
  In (file item) files
  /\ score item = scoreYamlCandidate (file item) key name
  /\ 0 < score item.
Proof.
  unfold scoreCandidates. rewrite In_sortByScore, filter_In, in_map_iff.
  intros [(f & <- & Hf) Hpos]. cbn in *. repeat split; [done | lia].
Qed.

End SpecProps.

(** ** Pipeline selection and cancelled prompts *)

Module SelectionProps.
Import Cli.

Lemma listConfigPipelines_loop_In key entry entries :
  In (key, entry) (listConfigPipelines_loop entries) ->
  isNaN (entry_id entry) = false
  /\ exists raw, In (key, raw) entries /\ entry_id raw = entry_id entry.
Proof.
  induction entries as [|[k e] entries IH]; cbn [listConfigPipelines_loop]; [done|].
  unfold normalizePipelineEntry. destruct (isNaN (entry_id e)) eqn:Hnan.
  - intros Hin. destruct (IH Hin) as (? & raw & ? & ?).
    split; [done|]. exists raw. split; [by right | done].
  - intros [Heq | Hin].
    + injection Heq as <- <-. cbn. split; [done|]. exists e. split; [by left | done].
    + destruct (IH Hin) as (? & raw & ? & ?).
      split; [done|]. exists raw. split; [by right | done].
Qed.

Lemma listConfigPipelines_In key entry pipelines :
  In (key, entry) (listConfigPipelines pipelines) ->
  isNaN (entry_id entry) = false
  /\ exists raw, In (key, raw) (default [] pipelines) /\ entry_id raw = entry_id entry.
Proof. destruct pipelines; [apply listConfigPipelines_loop_In | done]. Qed.

Lemma find_absent {A : Type} (f : A -> bool) (l : list A) :
  (forall x, In x l -> f x = false) -> List.find f l = None.
Proof.
  induction l as [|y l IH]; [done|]. intros H. cbn [List.find].
  rewrite (H y) by by left. apply IH. intros x Hx. apply H. by right.
Qed.

Lemma num_strict_eq_true a b : num_strict_eq a b = true -> a = b.
Proof.
  unfold num_strict_eq. intros [_ H]%andb_true_iff. by apply bool_decide_eq_true in H.
Qed.

(** The selection taken from a catalog entry found by [find]. *)
Lemma found_entry_id (f : string * PipelineEntry -> bool) pipelines key entry :
  List.find f (listConfigPipelines pipelines) = Some (key, entry) ->
  isNaN (sel_id (selectionOf key entry)) = false.
Proof.
  intros [Hin _]%find_some. by apply listConfigPipelines_In in Hin as [? _].
Qed.

Lemma interactive_selection_id (w : World) pipelines st sel st' :
  (match listConfigPipelines pipelines with
   | [] => throw (String.append "No pipelines found in " CONFIG_FILENAME)
   | _ =>
       selection <~ bind (ask (selectText w)) exitIfCancel ;;
       match List.find (fun e => String.eqb (fst e) selection)
               (listConfigPipelines pipelines) with
       | Some (key, entry) => ret (selectionOf key entry)
       | None => throw "Invalid pipeline selection"
       end
   end) st = (Done sel, st') ->
  isNaN (sel_id sel) = false.
Proof.
  destruct (listConfigPipelines pipelines) as [|e0 es] eqn:Hentries; [done|].
  unfold bind, ask, exitIfCancel, ret, lift, throw.
  destruct (selectText w (asked st)) as [selection|]; [|done].
  destruct (List.find _ (e0 :: es)) as [[key entry]|] eqn:Hfind; [|done].
  intros [= <- _]. rewrite <- Hentries in Hfind. by eapply found_entry_id.
Qed.

(** *** Where an exit can come from *)

Lemma exits_ret {A} code (a : A) : exitsOnlyWith code (ret a).
Proof. by intros st c st'. Qed.

Lemma exits_call {A} code (x : Attempt A) : exitsOnlyWith code (call x).
Proof. intros st c st'. unfold call, lift. by destruct x. Qed.

Lemma exits_throw {A} code m : exitsOnlyWith code (@throw A m).
Proof. by intros st c st'. Qed.

Lemma exits_notice code n : exitsOnlyWith code (notice n).
Proof. by intros st c st'. Qed.

Lemma exits_ask {A} code (answers : nat -> option A) : exitsOnlyWith code (ask answers).
Proof. by intros st c st'. Qed.

Lemma exits_exitIfCancel {A} (v : option A) : exitsOnlyWith 1 (exitIfCancel v).
Proof. intros st c st'. destruct v; [done|]. by intros [= <- _]. Qed.

Lemma exits_bind {A B} code (m : Run A) (k : A -> Run B) :
  exitsOnlyWith code m -> (forall a, exitsOnlyWith code (k a)) ->
  exitsOnlyWith code (a <~ m ;; k a).
Proof.
  intros Hm Hk st c st'. unfold bind.
  destruct (m st) as [[a|c0|e] st1] eqn:Hrun.
  - apply Hk.
  - intros [= <- _]. by eapply Hm.
  - done.
Qed.

Lemma exits_tryCatch {A} code (body : Run A) (handler : string -> Run A) :
  exitsOnlyWith code body -> (forall e, exitsOnlyWith code (handler e)) ->
  exitsOnlyWith code (tryCatch body handler).
Proof.
  intros Hbody Hhandler st c st'. unfold tryCatch.
  destruct (body st) as [[a|c0|e] st1] eqn:Hrun.
  - done.
  - intros [= <- _]. by eapply Hbody.
  - apply Hhandler.
Qed.

Ltac exits :=
  repeat first
    [ apply exits_ret | apply exits_throw | apply exits_call | apply exits_notice
    | apply exits_exitIfCancel | apply exits_ask
    | apply exits_bind; [|intros ?]
    | apply exits_tryCatch; [|intros ?]
    | progress cbv zeta
    | match goal with
      | |- exitsOnlyWith _ (match ?x with _ => _ end) => destruct x
      | |- exitsOnlyWith _ (if ?x then _ else _) => destruct x
      end ].

Lemma exits_resolvePipelineSelection w config pipelineArg :
  exitsOnlyWith 1 (resolvePipelineSelection w config pipelineArg).
Proof. unfold resolvePipelineSelection. exits. Qed.

Lemma exits_selectLocalYamlFile w key name interactive :
  exitsOnlyWith 1 (selectLocalYamlFile w key name interactive).
Proof. unfold selectLocalYamlFile. exits. Qed.

Lemma exits_promptForParameters_loop w params result :
  exitsOnlyWith 1 (promptForParameters_loop w params result).
Proof.
  revert result. induction params as [|param rest IH]; intros result;
    cbn [promptForParameters_loop]; exits; apply IH.
Qed.

Lemma exits_readLocalYaml w filePath : exitsOnlyWith 1 (readLocalYaml w filePath).
Proof. unfold readLocalYaml. exits. Qed.

Lemma exits_buildTrigger w options selection branch :
  exitsOnlyWith 1 (buildTrigger w options selection branch).
Proof.
  unfold buildTrigger, buildParameters, findDefinition, searchLocalPath, searchRemote,
    searchLocator, parametersFromDefinition, parametersFromSpecs, promptForParameters.
  exits;
    first [ apply exits_readLocalYaml | apply exits_selectLocalYamlFile
          | apply exits_promptForParameters_loop ].
Qed.

(** C2, as amended.  The [id] of a returned selection is always a number
    other than NaN: the numeric value of the identifier when the identifier
    converts to a number, the [id] of a catalog entry otherwise.  When the
    (non-empty) identifier converts to a number that no catalog entry has as
    its [id], the resolver returns, without prompting, the bare selection
    whose only populated field is that number. *)
Theorem resolvePipelineSelection_id :
  (forall w config pipelineArg st sel st',
      resolvePipelineSelection w config pipelineArg st = (Done sel, st') ->
      isNaN (sel_id sel) = false)
  /\ (forall w config arg st,
         arg <> "" ->
         isNaN (Number arg) = false ->
         (forall key entry,
             In (key, entry) (default [] (pipelines config)) ->
             entry_id entry <> Number arg) ->
         resolvePipelineSelection w config (Some arg) st
         = (Done {| sel_key := None; sel_id := Number arg; sel_name := None;
                    sel_branch := None; sel_path := None |}, st)).
Proof.
  split.
  - intros w config pipelineArg st sel st'. unfold resolvePipelineSelection.
    destruct pipelineArg as [arg|]; [|apply interactive_selection_id].
    destruct (nonEmpty arg); [|apply interactive_selection_id].
    destruct (isNaN (Number arg)) eqn:Hnan; cbn [negb].
    + destruct (List.find _ _) as [[key entry]|] eqn:Hfind; [|done].
      intros [= <- _]. by eapply found_entry_id.
    + by intros [= <- _].
  - intros w config arg st Harg Hnum Habsent. unfold resolvePipelineSelection.
    unfold nonEmpty. rewrite FlagProps.nonempty_eqb by done. cbn [negb].
    rewrite Hnum. cbn [negb]. rewrite find_absent; [done|].
    intros [key entry] Hin. cbn [snd].
    apply listConfigPipelines_In in Hin as (_ & raw & Hraw & Hid).
    destruct (num_strict_eq (entry_id entry) (Number arg)) eqn:Heq; [|done].
    apply num_strict_eq_true in Heq. exfalso.
    apply (Habsent key raw Hraw). congruence.
Qed.

(** C2, as the specification states it, fails on an identifier that is a
    number but not an integer: [--pipeline 1.5] is accepted and yields the
    selection whose [id] is 1.5 (that is, [3 * 2^-1]). *)
Lemma resolvePipelineSelection_fraction :
  resolvePipelineSelection bareWorld (configOf [("android_staging", androidEntry)])
    (Some "1.5") initial
  = (Done {| sel_key := None; sel_id := Finite 3 (-1); sel_name := None;
             sel_branch := None; sel_path := None |}, initial)
  /\ isInteger (Finite 3 (-1)) = false.
Proof. by vm_compute. Qed.

(** C8, as amended.  A cancelled prompt ends the process at once, and the
    exit code is 1, the code of an error: [exitIfCancel] on the cancel
    symbol is [process.exit(1)]; cancelling the pipeline menu, or the first
    parameter prompt, exits with 1 right after that prompt, nothing further
    being asked or reported (a parameter menu that cannot be built, one of
    its values having no text form, throws before anything is asked, so
    there is no prompt to cancel); and no part of the [build] action up to
    the trigger exits with any other code. *)
Theorem cancelled_prompt_exits_with_1 :
  (forall (A : Type) st, exitIfCancel (@None A) st = (Exit 1, st))
  /\ (forall w config st,
         listConfigPipelines (pipelines config) <> [] ->
         selectText w (asked st) = None ->
         resolvePipelineSelection w config None st
         = (Exit 1, {| asked := S (asked st); notices := notices st |}))
  /\ (forall w spec rest st,
         menuFails spec = false ->
         select w (asked st) = None ->
         confirm w (asked st) = None ->
         text w (asked st) = None ->
         promptForParameters w (spec :: rest) st
         = (Exit 1, {| asked := S (asked st); notices := notices st |}))
  /\ (forall w spec rest st,
         menuFails spec = true ->
         promptForParameters w (spec :: rest) st = (Throw conversionError, st))
  /\ (forall w config pipelineArg,
         exitsOnlyWith 1 (resolvePipelineSelection w config pipelineArg))
  /\ (forall w options selection branch,
         exitsOnlyWith 1 (buildTrigger w options selection branch))
  /\ (forall (A : Type) st, exitCode (@Exit A 1, st) = 1).
Proof.
  split; [done|]. split; [|split; [|split; [|split; [|split]]]].
  - intros w config st Hentries Hcancel. unfold resolvePipelineSelection.
    destruct (listConfigPipelines (pipelines config)); [done|].
    unfold bind, ask, exitIfCancel, lift. by rewrite Hcancel.
  - intros w spec rest st Hmenu Hselect Hconfirm Htext.
    unfold promptForParameters, menuFails in *. cbn [promptForParameters_loop].
    destruct (spec_values spec) as [[|v vs]|]; rewrite ?Hmenu;
      try destruct (String.eqb (toLowerCase (spec_type spec)) "boolean");
      unfold bind, ask, exitIfCancel, lift; by rewrite ?Hselect, ?Hconfirm, ?Htext.
  - intros w spec rest st Hmenu.
    unfold promptForParameters, menuFails in *. cbn [promptForParameters_loop].
    destruct (spec_values spec) as [[|v vs]|]; [done| |done].
    unfold bind. by rewrite Hmenu.
  - apply exits_resolvePipelineSelection.
  - apply exits_buildTrigger.
  - done.
Qed.

(** C8, as the specification states it, fails: with one pipeline in the
    catalog and no [--pipeline], cancelling the menu ends the process with
    exit code 1, not 0. *)
Lemma cancelled_menu_exit_code :
  resolvePipelineSelection bareWorld (configOf [("android_staging", androidEntry)])
    None initial
  = (Exit 1, {| asked := 1; notices := [] |})
  /\ exitCode (resolvePipelineSelection bareWorld
                 (configOf [("android_staging", androidEntry)]) None initial) = 1
  /\ exitCode (resolvePipelineSelection bareWorld
                 (configOf [("android_staging", androidEntry)]) None initial) <> 0.
Proof. by vm_compute. Qed.

End SelectionProps.

(** ** Merging the parameter sources *)

Module MergeProps.
Import Cli.


End MergeProps.

(** ** Failures while looking for the definition *)

Module DefinitionProps.
Import Cli.








(** The first half at work: the same action when the file cannot be read
    reaches the trigger. *)
Example unreadable_local_file_goes_on :
  exitCode (buildTrigger brokenYamlWorld (sampleOptions false)
              (sampleSelection (Some "ci/missing.yml")) "develop" initial) = 0.
Proof. by vm_compute. Qed.

End DefinitionProps.

(** ** The run-completion monitor *)

Module MonitorProps.
Import Azdo.

(** The loop only ever adds to the trace it starts from. *)
Lemma waitLoop_extends options started script t :
  exists more,
    queries (snd (waitLoop options started script t)) = (queries t ++ more)%list.
Proof.
  revert t. induction script as [|p rest IH]; intros t; cbn [waitLoop].
  - exists []. by rewrite app_nil_r.
  - destruct (response p) as [run|e]; [|by exists [Throws e]].
    destruct (isCompleted run); [by exists [Returns run]|].
    destruct (timeoutMs options <? clock p - started); [by exists [Returns run]|].
    destruct (IH (sleep (pollMs options) (onUpdate run (onQuery (Returns run) t))))
      as [more Hmore].
    exists (Returns run :: more). rewrite Hmore. cbn. by rewrite <- app_assoc.
Qed.

(** One poll that does not settle the wait: the run is not completed and the
    deadline has not passed. *)
Lemma waitLoop_goes_on options started p rest run t :
  response p = Returns run ->
  isCompleted run = false ->
  clock p - started <= timeoutMs options ->
  waitLoop options started (p :: rest) t
  = waitLoop options started rest
      (sleep (pollMs options) (onUpdate run (onQuery (Returns run) t))).
Proof.
  intros Hresponse Hstate Hclock. cbn [waitLoop]. rewrite Hresponse, Hstate.
  destruct (Z.ltb_spec (timeoutMs options) (clock p - started)); [lia | done].
Qed.

(** The monitor reaches the third response whenever the deadline has not
    passed at the first two checks. *)
Lemma three_polls_in_time options started p1 p2 p3 rest r1 r2 r3 :
  response p1 = Returns r1 -> response p2 = Returns r2 -> response p3 = Returns r3 ->
  isCompleted r1 = false -> isCompleted r2 = false -> isCompleted r3 = true ->
  clock p1 - started <= timeoutMs options ->
  clock p2 - started <= timeoutMs options ->
  waitForCompletion options started (p1 :: p2 :: p3 :: rest)
  = (Some (Returns r3),
     {| queries := [Returns r1; Returns r2; Returns r3];
        updates := [r1; r2; r3];
        sleeps := [pollMs options; pollMs options] |}).
Proof.
  intros H1 H2 H3 Hs1 Hs2 Hs3 Hc1 Hc2. unfold waitForCompletion.
  rewrite (waitLoop_goes_on _ _ _ _ r1) by done.
  rewrite (waitLoop_goes_on _ _ _ _ r2) by done.
  cbn [waitLoop]. by rewrite H3, Hs3.
Qed.

(** What the loop has asked, one poll in. *)
Lemma waitLoop_first_query options started p rest t :
  exists more,
    queries (snd (waitLoop options started (p :: rest) t))
    = (queries t ++ response p :: more)%list
    /\ (more <> [] ->
        exists run, response p = Returns run
          /\ waitLoop options started (p :: rest) t
             = waitLoop options started rest
                 (sleep (pollMs options) (onUpdate run (onQuery (Returns run) t)))).
Proof.
  cbn [waitLoop].
  destruct (response p) as [run|e] eqn:Hresponse; [|by exists []].
  destruct (isCompleted run); [by exists []|].
  destruct (timeoutMs options <? clock p - started); [by exists []|].
  destruct (waitLoop_extends options started rest
              (sleep (pollMs options) (onUpdate run (onQuery (Returns run) t))))
    as [more Hmore].
  exists more. split.
  - rewrite Hmore. cbn. by rewrite <- app_assoc.
  - intros _. by exists run.
Qed.

(** C5, as amended.  Let the service answer the first three [getRun]
    requests with a queued run, an in-progress run and a completed run.
    When no more than the timeout has elapsed since the start at the two
    checks that follow the first two responses, the monitor hands each of
    the three runs to the observer, returns the third as its result, and
    has slept exactly twice, each time for the poll interval.  When more
    has elapsed at the first check, it fails with the timeout error after
    one query and no sleep; when more has elapsed at the second check only,
    after two queries and one sleep. *)
Theorem three_responses_two_sleeps
    (options : WaitOptions) (started : Z) (p1 p2 p3 : Poll) (rest : list Poll)
    (r1 r2 r3 : RunInfo) :
  response p1 = Returns r1 ->
  response p2 = Returns r2 ->
  response p3 = Returns r3 ->
  state r1 = Some "queued" ->
  state r2 = Some "inProgress" ->
  state r3 = Some "completed" ->
  (clock p1 - started <= timeoutMs options ->
   clock p2 - started <= timeoutMs options ->
   waitForCompletion options started (p1 :: p2 :: p3 :: rest)
   = (Some (Returns r3),
      {| queries := [Returns r1; Returns r2; Returns r3];
         updates := [r1; r2; r3];
         sleeps := [pollMs options; pollMs options] |}))
  /\ (timeoutMs options < clock p1 - started ->
      waitForCompletion options started (p1 :: p2 :: p3 :: rest)
      = (Some (Throws timedOut),
         {| queries := [Returns r1]; updates := [r1]; sleeps := [] |}))
  /\ (clock p1 - started <= timeoutMs options ->
      timeoutMs options < clock p2 - started ->
      waitForCompletion options started (p1 :: p2 :: p3 :: rest)
      = (Some (Throws timedOut),
         {| queries := [Returns r1; Returns r2]; updates := [r1; r2];
            sleeps := [pollMs options] |})).
Proof.
  intros H1 H2 H3 Hs1 Hs2 Hs3.
  assert (Hc1 : isCompleted r1 = false) by (unfold isCompleted; by rewrite Hs1).
  assert (Hc2 : isCompleted r2 = false) by (unfold isCompleted; by rewrite Hs2).
  assert (Hc3 : isCompleted r3 = true) by (unfold isCompleted; by rewrite Hs3).
  split; [|split].
  - intros Ht1 Ht2. by apply three_polls_in_time.
  - intros Ht1. unfold waitForCompletion. cbn [waitLoop]. rewrite H1, Hc1.
    by destruct (Z.ltb_spec (timeoutMs options) (clock p1 - started)); [|lia].
  - intros Ht1 Ht2. unfold waitForCompletion.
    rewrite (waitLoop_goes_on _ _ _ _ r1) by done.
    cbn [waitLoop]. rewrite H2, Hc2.
    by destruct (Z.ltb_spec (timeoutMs options) (clock p2 - started)); [|lia].
Qed.

Lemma three_responses_two_sleeps_witness :
  let options := {| pollMs := 7000; timeoutMs := 3600000 |} in
  let r1 := runIn "queued" None in
  let r2 := runIn "inProgress" None in
  let r3 := runIn "completed" (Some "succeeded") in
  let script := [ {| response := Returns r1; clock := 120 |};
                  {| response := Returns r2; clock := 7300 |};
                  {| response := Returns r3; clock := 14500 |} ] in
  waitForCompletion options 0 script
  = (Some (Returns r3),
     {| queries := [Returns r1; Returns r2; Returns r3];
        updates := [r1; r2; r3];
        sleeps := [7000; 7000] |}).
Proof.
  intros options r1 r2 r3 script.
  refine (proj1 (three_responses_two_sleeps options 0
                   {| response := Returns r1; clock := 120 |}
                   {| response := Returns r2; clock := 7300 |}
                   {| response := Returns r3; clock := 14500 |} [] r1 r2 r3
                   eq_refl eq_refl eq_refl eq_refl eq_refl eq_refl) _ _);
    cbn; lia.
Defined.

(** C5, as the specification states it, fails when the first response is
    slow: with poll interval 10 ms and timeout 5 ms, the service answers
    queued, in progress, completed, but the first check comes 6 ms after
    the start; the monitor fails with the timeout error after one query,
    without any sleep and without the completed run. *)
Lemma slow_first_response_times_out :
  let options := {| pollMs := 10; timeoutMs := 5 |} in
  let r1 := runIn "queued" None in
  let r2 := runIn "inProgress" None in
  let r3 := runIn "completed" (Some "succeeded") in
  let script := [ {| response := Returns r1; clock := 1006 |};
                  {| response := Returns r2; clock := 1017 |};
                  {| response := Returns r3; clock := 1028 |} ] in
  List.map response script = [Returns r1; Returns r2; Returns r3]
  /\ state r1 = Some "queued" /\ state r2 = Some "inProgress"
  /\ state r3 = Some "completed"
  /\ waitForCompletion options 1000 script
     = (Some (Throws timedOut),
        {| queries := [Returns r1]; updates := [r1]; sleeps := [] |})
  /\ fst (waitForCompletion options 1000 script) <> Some (Returns r3)
  /\ sleeps (snd (waitForCompletion options 1000 script)) <> [10; 10].
Proof. by vm_compute. Qed.

(** C6, as amended.  Whatever the poll interval and the timeout (so also
    with 10 ms and 5 ms), the monitor does not end, by a timeout or
    otherwise, before it has made a query: the elapsed time is looked at
    only after a query has returned a run that is not completed.  After such
    a first query the monitor fails with the timeout error when, at that
    check, more than the timeout has elapsed since the start; when not, it
    sleeps for the poll interval and queries again. *)
Theorem first_query_then_deadline
    (options : WaitOptions) (started : Z) (script : list Poll) :
  (forall outcome t,
      waitForCompletion options started script = (Some outcome, t) -> queries t <> [])
  /\ (forall p rest run,
         script = p :: rest ->
         response p = Returns run ->
         isCompleted run = false ->
         (timeoutMs options < clock p - started ->
          waitForCompletion options started script
          = (Some (Throws timedOut),
             {| queries := [Returns run]; updates := [run]; sleeps := [] |}))
         /\ (clock p - started <= timeoutMs options ->
             waitForCompletion options started script
             = waitLoop options started rest
                 {| queries := [Returns run]; updates := [run];
                    sleeps := [pollMs options] |})).
Proof.
  split.
  - intros outcome t. unfold waitForCompletion. destruct script as [|p rest]; [done|].
    destruct (waitLoop_first_query options started p rest noTrace) as (more & Hq & _).
    intros Hrun. rewrite Hrun in Hq. cbn in Hq. by rewrite Hq.
  - intros p rest run -> Hresponse Hstate. split; intros Hclock.
    + unfold waitForCompletion. cbn [waitLoop]. rewrite Hresponse, Hstate.
      by destruct (Z.ltb_spec (timeoutMs options) (clock p - started)); [|lia].
    + unfold waitForCompletion. by rewrite (waitLoop_goes_on _ _ _ _ run).
Qed.

(** C6, as the specification states it, fails when the first query is quick:
    with poll interval 10 ms and timeout 5 ms, a first response that is
    queued, checked 2 ms after the start, is followed by a sleep and by a
    second query, whose completed run is returned; there is no timeout. *)
Lemma quick_first_query_no_timeout :
  let options := {| pollMs := 10; timeoutMs := 5 |} in
  let queued := runIn "queued" None in
  let completed := runIn "completed" (Some "succeeded") in
  let script := [ {| response := Returns queued; clock := 1002 |};
                  {| response := Returns completed; clock := 1013 |} ] in
  isCompleted queued = false
  /\ waitForCompletion options 1000 script
     = (Some (Returns completed),
        {| queries := [Returns queued; Returns completed];
           updates := [queued; completed];
           sleeps := [10] |})
  /\ fst (waitForCompletion options 1000 script) <> Some (Throws timedOut).
Proof. by vm_compute. Qed.

End MonitorProps.

(** ** The monitor over any number of polls *)

Module MonitorMore.
Import Azdo Service.

Lemma returned_app qs qs' : returned (qs ++ qs') = (returned qs ++ returned qs')%list.
Proof. unfold returned. apply omap_app. Qed.

Lemma passedOver_nil options t : passedOver options [] t = t.
Proof. destruct t. unfold passedOver. cbn. by rewrite !app_nil_r. Qed.

Lemma passedOver_cons options p run turns t :
  response p = Returns run ->
  passedOver options (p :: turns) t
  = passedOver options turns
      (sleep (pollMs options) (onUpdate run (onQuery (Returns run) t))).
Proof.
  intros Hp. unfold passedOver, sleep, onUpdate, onQuery. cbn. rewrite Hp. cbn.
  by rewrite <- !app_assoc.
Qed.

(** The loop goes round on every turn that keeps it waiting. *)
Lemma waitLoop_passes options started turns rest t :
  forallb (keepsWaiting options started) turns = true ->
  waitLoop options started (turns ++ rest) t
  = waitLoop options started rest (passedOver options turns t).
Proof.
  revert t. induction turns as [|p turns IH]; intros t Hturns.
  - by rewrite passedOver_nil.
  - cbn [forallb] in Hturns. apply andb_true_iff in Hturns as [Hp Hturns].
    unfold keepsWaiting in Hp. destruct (response p) as [run|] eqn:Hresponse; [|done].
    apply andb_true_iff in Hp as [Hstate Hclock].
    apply negb_true_iff in Hstate. apply Z.leb_le in Hclock.
    change ((p :: turns) ++ rest)%list with (p :: (turns ++ rest))%list.
    rewrite (MonitorProps.waitLoop_goes_on _ _ _ _ run) by done.
    rewrite IH by done. by rewrite (passedOver_cons _ _ run).
Qed.

(** Every script splits into the turns that keep the loop waiting and, if
    any, the first turn that does not. *)
Lemma script_split options started script :
  exists turns,
    forallb (keepsWaiting options started) turns = true
    /\ (script = turns
        \/ exists p rest, script = (turns ++ p :: rest)%list
                          /\ keepsWaiting options started p = false).
Proof.
  induction script as [|p script (turns & Hturns & Hsplit)].
  - exists []. split; [done | by left].
  - destruct (keepsWaiting options started p) eqn:Hp.
    + exists (p :: turns). split; [cbn; by rewrite Hp|].
      destruct Hsplit as [-> | (q & rest & -> & Hq)]; [by left|].
      right. by exists q, rest.
    + exists []. split; [done|]. right. by exists p, script.
Qed.

(** The loop at a turn that does not keep it waiting. *)
Lemma waitLoop_ends options started p rest t :
  keepsWaiting options started p = false ->
  waitLoop options started (p :: rest) t
  = match response p with
    | Returns run =>
        (Some (if isCompleted run then Returns run else Throws timedOut),
         onUpdate run (onQuery (Returns run) t))
    | Throws m => (Some (Throws m), onQuery (Throws m) t)
    end.
Proof.
  unfold keepsWaiting. cbn [waitLoop]. destruct (response p) as [run|m]; [|done].
  destruct (isCompleted run); [done|]. cbn [negb andb]. intros Hclock.
  apply Z.leb_gt in Hclock.
  by destruct (Z.ltb_spec (timeoutMs options) (clock p - started)); [|lia].
Qed.

(** X1.  A failure of [getRun] is not retried: after any number of turns
    that keep the monitor waiting, the first query that throws ends the
    wait with that very error; the monitor has then slept once per earlier
    turn, has not called the observer for the failed query, and asks
    nothing of the turns that follow. *)
Theorem query_failure_ends_wait
    (options : WaitOptions) (started : Z) (turns rest : list Poll) (p : Poll)
    (message : string) :
  forallb (keepsWaiting options started) turns = true ->
  response p = Throws message ->
  waitForCompletion options started (turns ++ p :: rest)
  = (Some (Throws message),
     {| queries := List.map response turns ++ [Throws message];
        updates := returned (List.map response turns);
        sleeps := replicate (length turns) (pollMs options) |}).
Proof.
  intros Hturns Hp. unfold waitForCompletion. rewrite waitLoop_passes by done.
  rewrite waitLoop_ends by (unfold keepsWaiting; by rewrite Hp).
  by rewrite Hp.
Qed.

Lemma query_failure_ends_wait_witness :
  let options := {| pollMs := 7000; timeoutMs := 3600000 |} in
  let turns := [ {| response := Returns (runIn "queued" None); clock := 150 |} ] in
  let p := {| response := Throws "AzDO API error 503: "; clock := 7400 |} in
  let rest := [ {| response := Returns (runIn "completed" (Some "succeeded"));
                   clock := 14600 |} ] in
  forallb (keepsWaiting options 0) turns = true
  /\ waitForCompletion options 0 (turns ++ p :: rest)
     = (Some (Throws "AzDO API error 503: "),
        {| queries := [Returns (runIn "queued" None); Throws "AzDO API error 503: "];
           updates := [runIn "queued" None];
           sleeps := [7000] |}).
Proof.
  intros options turns p rest.
  assert (Hturns : forallb (keepsWaiting options 0) turns = true) by reflexivity.
  split; [exact Hturns|].
  exact (query_failure_ends_wait options 0 turns rest p _ Hturns eq_refl).
Defined.

(** X2.  The monitor returns the first completed run it is given: after any
    number of turns that keep it waiting, a query that returns a completed
    run ends the wait with that run, whatever the clock reads by then (a
    completed run is never turned into a timeout) and whatever the service
    would have answered afterwards. *)
Theorem first_completed_run_is_returned
    (options : WaitOptions) (started : Z) (turns rest : list Poll) (p : Poll)
    (run : RunInfo) :
  forallb (keepsWaiting options started) turns = true ->
  response p = Returns run ->
  isCompleted run = true ->
  waitForCompletion options started (turns ++ p :: rest)
  = (Some (Returns run),
     {| queries := List.map response turns ++ [Returns run];
        updates := returned (List.map response turns) ++ [run];
        sleeps := replicate (length turns) (pollMs options) |}).
Proof.
  intros Hturns Hp Hdone. unfold waitForCompletion. rewrite waitLoop_passes by done.
  rewrite waitLoop_ends by (unfold keepsWaiting; by rewrite Hp, Hdone).
  by rewrite Hp, Hdone.
Qed.

Lemma first_completed_run_is_returned_witness :
  let options := {| pollMs := 10; timeoutMs := 5 |} in
  let done := runIn "completed" (Some "failed") in
  let p := {| response := Returns done; clock := 900 |} in
  let rest := [ {| response := Throws "AzDO API error 500: "; clock := 950 |} ] in
  forallb (keepsWaiting options 0) [] = true
  /\ waitForCompletion options 0 ([] ++ p :: rest)
     = (Some (Returns done),
        {| queries := [Returns done]; updates := [done]; sleeps := [] |}).
Proof.
  intros options done p rest. split; [reflexivity|].
  exact (first_completed_run_is_returned options 0 [] rest p done eq_refl eq_refl eq_refl).
Defined.

(** X3.  The deadline is enforced at the first check that finds it passed:
    after any number of turns that keep the monitor waiting, a query that
    returns a run that is not completed, checked later than the timeout
    after the start, ends the wait with the timeout error; the observer has
    still been given that run, and no sleep follows it. *)
Theorem overdue_check_times_out
    (options : WaitOptions) (started : Z) (turns rest : list Poll) (p : Poll)
    (run : RunInfo) :
  forallb (keepsWaiting options started) turns = true ->
  response p = Returns run ->
  isCompleted run = false ->
  timeoutMs options < clock p - started ->
  waitForCompletion options started (turns ++ p :: rest)
  = (Some (Throws timedOut),
     {| queries := List.map response turns ++ [Returns run];
        updates := returned (List.map response turns) ++ [run];
        sleeps := replicate (length turns) (pollMs options) |}).
Proof.
  intros Hturns Hp Hstate Hclock. unfold waitForCompletion.
  rewrite waitLoop_passes by done.
  assert (Hlate : (clock p - started <=? timeoutMs options) = false)
    by (apply Z.leb_gt; lia).
  rewrite waitLoop_ends by (unfold keepsWaiting; by rewrite Hp, Hstate, Hlate).
  by rewrite Hp, Hstate.
Qed.

Lemma overdue_check_times_out_witness :
  let options := {| pollMs := 7000; timeoutMs := 10000 |} in
  let turns := [ {| response := Returns (runIn "queued" None); clock := 1200 |} ] in
  let p := {| response := Returns (runIn "inProgress" None); clock := 11300 |} in
  forallb (keepsWaiting options 1000) turns = true
  /\ 10000 < 11300 - 1000
  /\ waitForCompletion options 1000 (turns ++ [p])
     = (Some (Throws timedOut),
        {| queries := [Returns (runIn "queued" None); Returns (runIn "inProgress" None)];
           updates := [runIn "queued" None; runIn "inProgress" None];
           sleeps := [7000] |}).
Proof.
  intros options turns p.
  assert (Hturns : forallb (keepsWaiting options 1000) turns = true) by reflexivity.
  assert (Hlate : 10000 < 11300 - 1000) by lia.
  split; [exact Hturns|]. split; [exact Hlate|].
  exact (overdue_check_times_out options 1000 turns [] p _ Hturns eq_refl eq_refl Hlate).
Defined.

Lemma take_turns (turns : list Poll) p rest (q : Attempt RunInfo) :
  List.map response (take (length (List.map response turns ++ [q])) (turns ++ p :: rest))
  = (List.map response turns ++ [response p])%list.
Proof.
  rewrite length_app, length_map. cbn [length].
  replace (length turns + 1)%nat with (length (turns ++ [p])) by by rewrite length_app.
  replace (turns ++ p :: rest)%list with ((turns ++ [p]) ++ rest)%list
    by by rewrite <- app_assoc.
  by rewrite take_app_length, map_app.
Qed.

(** X4.  What every wait leaves behind, finished or not.  The observer has
    been given exactly the runs the queries returned, in order; the queries
    are the answers of the service in order, none skipped; every sleep lasts
    the poll interval, and there is one sleep between two queries and none
    after the last query of a finished wait.  A run that is returned is
    completed, and it is the last run the observer was given.  The wait is
    unfinished only when every answer the service had has been used. *)
Theorem wait_trace_invariants (options : WaitOptions) (started : Z) (script : list Poll) :
  let r := waitForCompletion options started script in
  updates (snd r) = returned (queries (snd r))
  /\ queries (snd r) = List.map response (take (length (queries (snd r))) script)
  /\ sleeps (snd r)
     = replicate (length (queries (snd r))
                  - match fst r with Some _ => 1 | None => 0 end) (pollMs options)
  /\ (forall run,
         fst r = Some (Returns run) ->
         isCompleted run = true /\ last (updates (snd r)) = Some run)
  /\ (fst r = None -> length (queries (snd r)) = length script).
Proof.
  cbv zeta. unfold waitForCompletion.
  destruct (script_split options started script)
    as (turns & Hturns & [-> | (p & rest & -> & Hp)]).
  - assert (Hrun : waitLoop options started turns noTrace
                   = (None, passedOver options turns noTrace)).
    { pose proof (waitLoop_passes options started turns [] noTrace Hturns) as H.
      by rewrite app_nil_r in H. }
    rewrite Hrun. cbn [fst snd passedOver queries updates sleeps noTrace app].
    rewrite length_map, take_ge by lia. rewrite Nat.sub_0_r.
    repeat split; done.
  - rewrite waitLoop_passes, waitLoop_ends by done.
    destruct (response p) as [run|m] eqn:Hresponse;
      cbn [fst snd passedOver queries updates sleeps noTrace app onUpdate onQuery].
    + rewrite (take_turns turns p rest), Hresponse.
      rewrite returned_app, length_app, length_map. cbn [length returned omap].
      replace (length turns + 1 - 1)%nat with (length turns) by lia.
      split; [done|]. split; [done|]. split; [done|]. split; [|done].
      intros r Hr. destruct (isCompleted run) eqn:Hdone; [|done].
      injection Hr as <-. split; [done|]. by rewrite last_snoc.
    + rewrite (take_turns turns p rest), Hresponse.
      rewrite returned_app, length_app, length_map. cbn [length returned omap].
      rewrite app_nil_r.
      replace (length turns + 1 - 1)%nat with (length turns) by lia.
      split; [done|]. split; [done|]. split; [done|]. split; done.
Qed.

End MonitorMore.

(** ** More on the two flag parsers *)

Module FlagMore.
Import Cli StringFacts ObjectFacts.

Lemma parseParams_loop_app l1 l2 params :
  parseParams_loop (l1 ++ l2) params = parseParams_loop l2 (parseParams_loop l1 params).
Proof.
  revert params. induction l1 as [|e l1 IH]; intros params; [done|].
  cbn [app parseParams_loop].
  destruct (indexOf e "=" =? -1); [apply IH|].
  destruct (String.eqb _ ""); apply IH.
Qed.

(** An entry [key=value] whose key has no ['=']. *)
Lemma parseParams_pair key value rest (m : gmap string JsValue) :
  ~ In "="%char (chars key) ->
  m !! "__proto__" = None ->
  parseParams_loop ((key +:+ "=" +:+ value) :: rest) (plainObject m)
  = parseParams_loop rest (plainObject (setOverride m (Pair key value))).
Proof.
  intros Hkey Hm. cbn [parseParams_loop setOverride].
  change (key +:+ "=" +:+ value) with (key +:+ String "="%char value).
  change "=" with (String "="%char "") at 1.
  rewrite indexOf_first by done.
  pose proof (len_nonneg key).
  destruct (Z.eqb_spec (len key) (-1)); [lia|].
  pose proof (slice_middle "" key (String "="%char value)) as Hslice.
  rewrite app_nil_l' in Hslice. change (len "") with 0 in Hslice.
  rewrite Z.add_0_l in Hslice. rewrite Hslice.
  pose proof (sliceFrom_app (key +:+ "=") value) as Hvalue.
  rewrite len_app, app_assoc' in Hvalue. change (len "=") with 1 in Hvalue.
  change ("=" +:+ value) with (String "="%char value) in Hvalue. rewrite Hvalue.
  destruct (String.eqb (trim key) ""); [done|].
  by rewrite assign_stored by (done || apply FlagProps.parseParamValue_coerced).
Qed.

(** An entry without ['=']. *)
Lemma parseParams_bare entry rest params :
  ~ In "="%char (chars entry) ->
  parseParams_loop (entry :: rest) params = parseParams_loop rest params.
Proof.
  intros Hentry. cbn [parseParams_loop].
  change "=" with (String "="%char "") at 1. by rewrite indexOf_absent.
Qed.

Lemma setOverride_plain (m : gmap string JsValue) item :
  m !! "__proto__" = None -> setOverride m item !! "__proto__" = None.
Proof.
  intros Hm. destruct item as [entry|key value]; [done|]. cbn [setOverride].
  destruct (String.eqb (trim key) ""); [done | by apply stored_plain].
Qed.

Lemma foldl_setOverride_plain items (m : gmap string JsValue) :
  m !! "__proto__" = None -> foldl setOverride m items !! "__proto__" = None.
Proof.
  revert m. induction items as [|item items IH]; intros m Hm; [done|].
  cbn [foldl]. by apply IH, setOverride_plain.
Qed.

Lemma parseParams_loop_items items (m : gmap string JsValue) :
  Forall shaped items ->
  m !! "__proto__" = None ->
  parseParams_loop (List.map rendered items) (plainObject m)
  = plainObject (foldl setOverride m items).
Proof.
  intros Hitems. revert m. induction Hitems as [|item items Hitem _ IH]; intros m Hm;
    [done|].
  cbn [List.map foldl]. destruct item as [entry|key value]; cbn [rendered].
  - rewrite parseParams_bare by done. by apply IH.
  - rewrite parseParams_pair by done. by apply IH, setOverride_plain.
Qed.

(** Every entry has a shape. *)
Lemma item_of_entry entry : exists item, shaped item /\ rendered item = entry.
Proof.
  assert (Hsplit : forall s,
    ~ In "="%char (chars s)
    \/ exists key value, ~ In "="%char (chars key) /\ s = key +:+ "=" +:+ value).
  { induction s as [|c r IH]; [left; by intros []|].
    destruct (decide (c = "="%char)) as [->|Hc].
    - right. exists "", r. split; [by intros [] | done].
    - destruct IH as [Hr | (key & value & Hkey & ->)].
      + left. intros [? | ?]; [done | by apply Hr].
      + right. exists (String c key), value. split.
        * intros [? | ?]; [done | by apply Hkey].
        * by rewrite !app_cons. }
  destruct (Hsplit entry) as [Hbare | (key & value & Hkey & ->)].
  - by exists (Bare entry).
  - by exists (Pair key value).
Qed.

Lemma items_of_entries entries :
  exists items, Forall shaped items /\ List.map rendered items = entries.
Proof.
  induction entries as [|entry entries (items & Hitems & <-)]; [by exists []|].
  destruct (item_of_entry entry) as (item & Hitem & <-).
  exists (item :: items). split; [by constructor | done].
Qed.

(** The object [parseParams] fills never leaves the plain objects. *)
Lemma parseParams_loop_plain entries (m : gmap string JsValue) :
  m !! "__proto__" = None ->
  exists m', parseParams_loop entries (plainObject m) = plainObject m'
             /\ m' !! "__proto__" = None.
Proof.
  intros Hm. destruct (items_of_entries entries) as (items & Hitems & <-).
  rewrite parseParams_loop_items by done. eexists. split; [done|].
  by apply foldl_setOverride_plain.
Qed.

(** C10.  The overrides are read off the entries one by one, from left to
    right: an entry without any ['='] is passed over and does nothing (no
    error result exists), and each entry [key=value] is processed as if the
    entries without ['='] were not there, setting the trimmed key, unless
    it is blank, to the coerced value (a later entry replacing an earlier
    one; the key [__proto__] storing nothing).  In particular, removing an
    entry without ['='] from the list, wherever it stands, leaves the
    result unchanged.  Every list of entries is made of entries of these
    two kinds. *)
Theorem parseParams_skips_entry_without_equals (items : list ParamItem) :
  Forall shaped items ->
  parseParams (List.map rendered items) = foldl setOverride ∅ items
  /\ (forall before after entry,
        items = (before ++ Bare entry :: after)%list ->
        parseParams (List.map rendered items)
        = parseParams (List.map rendered (before ++ after))
        /\ parseParams (List.map rendered items)
           = foldl setOverride ∅ (before ++ after))
  /\ (forall entries : list string,
        exists read, Forall shaped read /\ List.map rendered read = entries).
Proof.
  intros Hitems.
  assert (Hall : forall l, Forall shaped l ->
            parseParams (List.map rendered l) = foldl setOverride ∅ l).
  { intros l Hl. unfold parseParams.
    change emptyObject with (plainObject ∅). by rewrite parseParams_loop_items. }
  split; [by apply Hall|]. split; [|exact items_of_entries].
  intros before after entry ->.
  assert (Hrest : Forall shaped (before ++ after)).
  { apply Forall_app in Hitems as [Hb Ha]. apply Forall_cons in Ha as [_ Ha].
    by apply Forall_app. }
  rewrite !Hall by done. split; by rewrite !foldl_app.
Qed.

Lemma parseParams_skips_entry_without_equals_witness :
  parseParams ["a=1"; "verbose"; "b=two"]
  = {[ "a" := VNum (ofZ 1); "b" := VStr "two" ]}
  /\ parseParams ["a=1"; "verbose"; "b=two"] = parseParams ["a=1"; "b=two"].
Proof.
  assert (Hitems : Forall shaped [Pair "a" "1"; Bare "verbose"; Pair "b" "two"]).
  { repeat constructor; cbv; intuition discriminate. }
  destruct (parseParams_skips_entry_without_equals _ Hitems) as (Hall & Hskip & _).
  split.
  - etrans; [exact Hall|]. by vm_compute.
  - exact (proj1 (Hskip [Pair "a" "1"] [Pair "b" "two"] "verbose" eq_refl)).
Defined.

(** X5.  A later [--param] replaces an earlier one: appending the entry
    [key=value] (no ['='] in [key], [key] not blank) to any list of entries
    sets the trimmed [key] to the coerced [value], which may itself contain
    ['='], and leaves every other key as the earlier entries made it; only
    the key [__proto__] is never stored, so that such an entry changes
    nothing. *)
Theorem parseParams_last_entry_wins (before : list string) (key value : string) :
  ~ In "="%char (chars key) ->
  trim key <> "" ->
  parseParams (before ++ [key +:+ "=" +:+ value])
  = (if String.eqb (trim key) "__proto__" then parseParams before
     else <[trim key := parseParamValue value]> (parseParams before))
  /\ parseParams (before ++ [key +:+ "=" +:+ value]) !! "__proto__" = None.
Proof.
  intros Hkey Htrim. unfold parseParams. rewrite parseParams_loop_app.
  change emptyObject with (plainObject ∅).
  destruct (parseParams_loop_plain before ∅) as (m & -> & Hm); [done|].
  rewrite parseParams_pair by done. cbn [parseParams_loop setOverride own plainObject].
  apply String.eqb_neq in Htrim. rewrite Htrim. split; [done|].
  by apply stored_plain.
Qed.

Lemma parseParams_last_entry_wins_witness :
  parseParams (["env=dev"; "tag=a"] ++ [" env " +:+ "=" +:+ "x=1"])
  = <["env" := VStr "x=1"]> (parseParams ["env=dev"; "tag=a"])
  /\ parseParams (["env=dev"; "__proto__=1"] ++ ["__proto__" +:+ "=" +:+ "2"])
     = parseParams ["env=dev"; "__proto__=1"].
Proof.
  assert (H1 : ~ In "="%char (chars " env ")) by (cbv; intuition discriminate).
  assert (H2 : trim " env " <> "") by (vm_compute; discriminate).
  assert (H3 : ~ In "="%char (chars "__proto__")) by (cbv; intuition discriminate).
  assert (H4 : trim "__proto__" <> "") by (vm_compute; discriminate).
  split.
  - exact (proj1 (parseParams_last_entry_wins ["env=dev"; "tag=a"] " env " "x=1" H1 H2)).
  - exact (proj1 (parseParams_last_entry_wins ["env=dev"; "__proto__=1"] "__proto__" "2"
                    H3 H4)).
Defined.

Lemma eqb_false_nonempty k : String.eqb k "" = false -> k <> "".
Proof. by intros H ->. Qed.

Lemma stored_wellFormed (m : gmap string JsValue) k v :
  String.eqb k "" = false -> coerced v = true ->
  map_Forall wellFormed m -> map_Forall wellFormed (stored k v m).
Proof.
  intros Hk Hv Hm. unfold stored. destruct (String.eqb k "__proto__"); [done|].
  apply map_Forall_insert_2; [|done].
  split; [by apply eqb_false_nonempty | done].
Qed.

Lemma parseParams_loop_wellFormed entries (m : gmap string JsValue) :
  m !! "__proto__" = None ->
  map_Forall wellFormed m ->
  map_Forall wellFormed (own (parseParams_loop entries (plainObject m))).
Proof.
  intros Hplain Hm. destruct (items_of_entries entries) as (items & Hitems & <-).
  rewrite parseParams_loop_items by done. cbn [own plainObject].
  clear Hitems Hplain. revert m Hm.
  induction items as [|item items IH]; intros m Hm; [done|].
  cbn [foldl]. apply IH. destruct item as [entry|key value]; [done|].
  cbn [setOverride]. destruct (String.eqb (trim key) "") eqn:Hkey; [done|].
  apply stored_wellFormed; [done | apply FlagProps.parseParamValue_coerced | done].
Qed.

Lemma parseUnknownParamFlags_loop_wellFormed args (m : gmap string JsValue) :
  m !! "__proto__" = None ->
  map_Forall wellFormed m ->
  exists m', parseUnknownParamFlags_loop args (plainObject m) = plainObject m'
             /\ m' !! "__proto__" = None /\ map_Forall wellFormed m'.
Proof.
  remember (length args) as n eqn:Hn. revert args m Hn.
  induction n as [n IH] using lt_wf_ind. intros args m -> Hplain Hm.
  destruct args as [|arg rest]; [by exists m|]. cbn [parseUnknownParamFlags_loop].
  assert (Hrest : forall m0, m0 !! "__proto__" = None -> map_Forall wellFormed m0 ->
            exists m', parseUnknownParamFlags_loop rest (plainObject m0) = plainObject m'
                       /\ m' !! "__proto__" = None /\ map_Forall wellFormed m').
  { intros m0 H0 Hm0. eapply (IH (length rest)); [cbn; lia | done | done | done]. }
  assert (Hset : forall k v, String.eqb k "" = false -> coerced v = true ->
            assignProp (plainObject m) k v = plainObject (stored k v m)
            /\ stored k v m !! "__proto__" = None
            /\ map_Forall wellFormed (stored k v m)).
  { intros k v Hk Hv. split; [by apply assign_stored|].
    split; [by apply stored_plain | by apply stored_wellFormed]. }
  repeat match goal with
         | |- context [if negb ?b then _ else _] => destruct b eqn:?; cbn [negb]
         | |- context [if ?b then _ else _] => destruct b eqn:?
         end;
    try (by apply Hrest);
    try (match goal with
         | |- context [assignProp (plainObject m) ?k ?v] =>
             destruct (Hset k v) as (-> & ? & ?);
             [done | first [done | apply FlagProps.parseParamValue_coerced] | by apply Hrest]
         end).
  all: destruct rest as [|next rest'].
  all: try (destruct (Hset (sliceFrom arg 2) (VBool true)) as (-> & ? & ?); [done|done|];
            by eexists).
  all: destruct (negb (String.eqb next "") && (negb (startsWith next "-") || dashDigit next)).
  all: first
    [ destruct (Hset (sliceFrom arg 2) (parseParamValue next)) as (-> & ? & ?);
      [done | apply FlagProps.parseParamValue_coerced |];
      eapply (IH (length rest')); [cbn; lia | done | done | done]
    | destruct (Hset (sliceFrom arg 2) (VBool true)) as (-> & ? & ?); [done|done|];
      by apply Hrest ].
Qed.

(** X6.  Neither parser ever yields a parameter with an empty name, and
    every value either parser yields is a boolean, a number other than NaN
    or text: never null, undefined, a list or an object. *)
Theorem parsed_parameters_well_formed :
  (forall entries k v,
      parseParams entries !! k = Some v -> k <> "" /\ coerced v = true)
  /\ (forall args k v,
         parseUnknownParamFlags args !! k = Some v -> k <> "" /\ coerced v = true).
Proof.
  split.
  - intros entries k v. apply (parseParams_loop_wellFormed entries ∅); [done|].
    apply map_Forall_empty.
  - intros args k v. unfold parseUnknownParamFlags.
    destruct (parseUnknownParamFlags_loop_wellFormed args ∅) as (m & Hm & _ & Hall);
      [done | apply map_Forall_empty |].
    change emptyObject with (plainObject ∅). rewrite Hm. apply Hall.
Qed.

End FlagMore.

(** ** The locator on any list of files *)

Module LocatorMore.
Import Cli.

Lemma sortByScore_cons x l : sortByScore (x :: l) = insertByScore x (sortByScore l).
Proof. reflexivity. Qed.

(** The sort puts first the first of the best. *)
Lemma sortByScore_head l1 x l2 :
  Forall (fun y => score y < score x) l1 ->
  Forall (fun y => score y <= score x) l2 ->
  exists r, sortByScore (l1 ++ x :: l2) = x :: r.
Proof.
  intros Hl1 Hl2. induction Hl1 as [|a l1 Ha Hl1 (r & IH)].
  - cbn [app]. rewrite sortByScore_cons.
    destruct (sortByScore l2) as [|y r] eqn:Hsort; [by exists []|].
    assert (Hy : In y l2) by (apply SpecProps.In_sortByScore; rewrite Hsort; by left).
    rewrite Forall_forall in Hl2. apply list_elem_of_In, Hl2 in Hy.
    cbn [insertByScore]. destruct (Z.ltb_spec (score x) (score y)); [lia|].
    by eexists.
  - cbn [app]. rewrite sortByScore_cons, IH. cbn [insertByScore].
    destruct (Z.ltb_spec (score a) (score x)); [|lia]. by eexists.
Qed.

Lemma insertByScore_perm x l : Permutation (insertByScore x l) (x :: l).
Proof.
  induction l as [|y l IH]; cbn [insertByScore]; [done|].
  destruct (score x <? score y); [|done].
  rewrite IH. apply perm_swap.
Qed.

Lemma sortByScore_perm l : Permutation (sortByScore l) l.
Proof.
  induction l as [|x l IH]; [done|].
  rewrite sortByScore_cons, insertByScore_perm. by constructor.
Qed.

Lemma scoreCandidates_unfold files key name :
  scoreCandidates files key name = sortByScore (keptCandidates key name files).
Proof. reflexivity. Qed.

Lemma kept_Forall (P : Scored -> Prop) key name files :
  Forall (fun f => P (candidate key name f)) files ->
  Forall P (keptCandidates key name files).
Proof.
  unfold keptCandidates.
  induction 1 as [|f files Hf Hfiles IH]; cbn [List.map List.filter]; [done|].
  destruct (0 <? score (candidate key name f)); [by constructor | done].
Qed.

Lemma kept_app key name before f after :
  0 < scoreYamlCandidate f key name ->
  keptCandidates key name (before ++ f :: after)
  = (keptCandidates key name before
     ++ candidate key name f :: keptCandidates key name after)%list.
Proof.
  intros Hf. unfold keptCandidates.
  rewrite List.map_app, List.filter_app. cbn [List.map List.filter].
  by destruct (Z.ltb_spec 0 (score (candidate key name f))); [|cbn in *; lia].
Qed.

Section Locator.
Variables (w : World) (key name : option string) (st : State).
Variables (before after : list string) (f : string).

#[local] Abbreviation sc := (fun g => scoreYamlCandidate g key name).

Hypothesis files_found : findYamlFiles w = Returns (before ++ f :: after)%list.
Hypothesis f_scores : 0 < sc f.
Hypothesis f_first : Forall (fun g => sc g < sc f) before.
Hypothesis f_best : Forall (fun g => sc g <= sc f) after.

Lemma scored_shape :
  exists r, scoreCandidates (before ++ f :: after)%list key name = candidate key name f :: r
            /\ Permutation r (keptCandidates key name before
                              ++ keptCandidates key name after)%list.
Proof using f_scores f_first f_best.
  rewrite scoreCandidates_unfold, kept_app by done.
  destruct (sortByScore_head (keptCandidates key name before) (candidate key name f)
              (keptCandidates key name after)) as [r Hr].
  - apply kept_Forall. exact f_first.
  - apply kept_Forall. exact f_best.
  - exists r. split; [done|].
    pose proof (sortByScore_perm
                  (keptCandidates key name before
                   ++ candidate key name f :: keptCandidates key name after)%list) as Hperm.
    rewrite Hr in Hperm. by apply Permutation_cons_app_inv in Hperm.
Qed.

Lemma locator_runs interactive :
  exists r,
    Permutation r (keptCandidates key name before ++ keptCandidates key name after)%list
    /\ selectLocalYamlFile w key name interactive st
       = match r with
         | [] => (Done (Some f), st)
         | _ :: _ =>
             match List.filter (fun item => score item =? sc f) r with
             | [] => (Done (Some f), st)
             | _ :: _ =>
                 if negb interactive then (Done (Some f), st)
                 else (selection <~ bind (ask (selectText w)) exitIfCancel ;;
                       ret (Some selection)) st
             end
         end.
Proof using files_found f_scores f_first f_best.
  destruct scored_shape as (r & Hscored & Hperm). exists r. split; [done|].
  unfold selectLocalYamlFile. unfold bind at 1. unfold call, lift.
  rewrite files_found. cbn [attempted]. rewrite Hscored.
  destruct r as [|y r]; [done|].
  cbn [List.filter score candidate file]. rewrite Z.eqb_refl.
  destruct (score y =? scoreYamlCandidate f key name);
    [|destruct (List.filter _ r)]; by destruct interactive.
Qed.

Lemma locator_not_interactive :
  selectLocalYamlFile w key name false st = (Done (Some f), st).
Proof using files_found f_scores f_first f_best.
  destruct (locator_runs false) as (r & _ & ->).
  destruct r; [done|]. by destruct (List.filter _ _).
Qed.

Lemma others_below r :
  Permutation r (keptCandidates key name before ++ keptCandidates key name after)%list ->
  Forall (fun g => sc g < sc f) after ->
  List.filter (fun item => score item =? sc f) r = [].
Proof using f_first.
  intros Hperm Hafter.
  assert (Hall : Forall (fun item => score item < sc f) r).
  { rewrite Hperm. apply Forall_app. split; by apply kept_Forall. }
  clear Hperm. induction Hall as [|y r Hy Hall IH]; [done|].
  cbn [List.filter]. by destruct (Z.eqb_spec (score y) (sc f)); [lia|].
Qed.

Lemma locator_single_best interactive :
  Forall (fun g => sc g < sc f) after ->
  selectLocalYamlFile w key name interactive st = (Done (Some f), st).
Proof using files_found f_scores f_first f_best.
  intros Hafter. destruct (locator_runs interactive) as (r & Hperm & ->).
  destruct r; [done|]. by rewrite (others_below _ Hperm Hafter).
Qed.

Lemma locator_tie :
  Exists (fun g => sc g = sc f) after ->
  selectLocalYamlFile w key name true st
  = (match selectText w (asked st) with
     | Some answer => Done (Some answer)
     | None => Exit 1
     end,
     {| asked := S (asked st); notices := notices st |}).
Proof using files_found f_scores f_first f_best.
  intros Htie. destruct (locator_runs true) as (r & Hperm & ->).
  assert (Hin : exists y, In y r /\ score y = sc f).
  { apply Exists_exists in Htie as (g & Hg & Hscore).
    exists (candidate key name g). split; [|done].
    apply list_elem_of_In. rewrite Hperm. apply elem_of_app. right.
    apply list_elem_of_In, filter_In. split.
    - apply in_map, list_elem_of_In, Hg.
    - apply Z.ltb_lt. cbn. cbn in Hscore. lia. }
  destruct Hin as (y & Hy & Hscore).
  destruct r as [|y0 r]; [done|].
  destruct (List.filter _ (y0 :: r)) as [|z zs] eqn:Hfilter.
  - assert (Hyin : In y (List.filter
                           (fun item => score item =? scoreYamlCandidate f key name)
                           (y0 :: r))).
    { apply filter_In. split; [done|]. by apply Z.eqb_eq. }
    by rewrite Hfilter in Hyin.
  - cbn [negb]. unfold bind, ask, exitIfCancel, ret, lift.
    by destruct (selectText w (asked st)).
Qed.
End Locator.

Lemma nothing_kept key name files :
  Forall (fun g => scoreYamlCandidate g key name <= 0) files ->
  keptCandidates key name files = [].
Proof.
  unfold keptCandidates.
  induction 1 as [|g files Hg Hfiles IH]; cbn [List.map List.filter]; [done|].
  by destruct (Z.ltb_spec 0 (score (candidate key name g))); [cbn in *; lia|].
Qed.

(** X7.  Without prompting, the locator returns the first file, in the order
    of the enumeration, among those with the highest score, provided that
    score is positive; and when no other file reaches that score it returns
    the file without asking even when prompting is allowed. *)
Theorem locator_returns_first_best
    (w : World) (key name : option string) (st : State)
    (before after : list string) (f : string) :
  findYamlFiles w = Returns (before ++ f :: after)%list ->
  0 < scoreYamlCandidate f key name ->
  Forall (fun g => scoreYamlCandidate g key name < scoreYamlCandidate f key name) before ->
  Forall (fun g => scoreYamlCandidate g key name <= scoreYamlCandidate f key name) after ->
  selectLocalYamlFile w key name false st = (Done (Some f), st)
  /\ (Forall (fun g => scoreYamlCandidate g key name < scoreYamlCandidate f key name) after ->
      forall interactive,
        selectLocalYamlFile w key name interactive st = (Done (Some f), st)).
Proof.
  intros Hfiles Hf Hbefore Hafter. split.
  - by apply (locator_not_interactive w key name st before after f).
  - intros Hstrict interactive.
    by apply (locator_single_best w key name st before after f).
Qed.

Lemma locator_returns_first_best_witness :
  let files := ["ci/ios.yml"; "ci/android-staging.yml"; "deploy/android_staging.yaml";
                "azure-pipelines.yml"] in
  let w := silentWorld (fun _ => Throws "YAMLParseError") files in
  let key := Some "android_staging" in
  findYamlFiles w
  = Returns (["ci/ios.yml"] ++ "ci/android-staging.yml"
                               :: ["deploy/android_staging.yaml"; "azure-pipelines.yml"])%list
  /\ 0 < scoreYamlCandidate "ci/android-staging.yml" key None
  /\ selectLocalYamlFile w key None false initial
     = (Done (Some "ci/android-staging.yml"), initial).
Proof.
  intros files w key.
  assert (Hscore : 0 < scoreYamlCandidate "ci/android-staging.yml" key None)
    by by vm_compute.
  split; [reflexivity|]. split; [exact Hscore|].
  assert (Hbefore : Forall (fun g => scoreYamlCandidate g key None
                                     < scoreYamlCandidate "ci/android-staging.yml" key None)
                      ["ci/ios.yml"]) by (repeat constructor; by vm_compute).
  assert (Hafter : Forall (fun g => scoreYamlCandidate g key None
                                    <= scoreYamlCandidate "ci/android-staging.yml" key None)
                     ["deploy/android_staging.yaml"; "azure-pipelines.yml"])
    by (repeat constructor; by vm_compute).
  exact (proj1 (locator_returns_first_best w key None initial ["ci/ios.yml"]
                  ["deploy/android_staging.yaml"; "azure-pipelines.yml"]
                  "ci/android-staging.yml" eq_refl Hscore Hbefore Hafter)).
Defined.

(** X8.  When no file of the enumeration has a positive score the locator
    finds nothing: it returns null without prompting, an empty enumeration
    included. *)
Theorem locator_no_match
    (w : World) (key name : option string) (st : State) (files : list string)
    (interactive : bool) :
  findYamlFiles w = Returns files ->
  Forall (fun g => scoreYamlCandidate g key name <= 0) files ->
  selectLocalYamlFile w key name interactive st = (Done None, st).
Proof.
  intros Hfiles Hnone. unfold selectLocalYamlFile, bind, call, lift.
  rewrite Hfiles. cbn [attempted].
  by rewrite scoreCandidates_unfold, nothing_kept.
Qed.

Lemma locator_no_match_witness :
  let w := silentWorld (fun _ => Throws "YAMLParseError") ["ci/ios.yml"; "docs/site.yaml"] in
  findYamlFiles w = Returns ["ci/ios.yml"; "docs/site.yaml"]
  /\ selectLocalYamlFile w (Some "android_staging") None true initial = (Done None, initial).
Proof.
  intros w. split; [reflexivity|].
  apply (locator_no_match w (Some "android_staging") None initial
           ["ci/ios.yml"; "docs/site.yaml"] true eq_refl).
  repeat constructor; by vm_compute.
Defined.

(** X9.  When several files share the highest (positive) score and prompting
    is allowed, the locator asks exactly once and returns the answer as it
    is; a cancelled menu ends the process with exit code 1. *)
Theorem locator_tie_asks_once
    (w : World) (key name : option string) (st : State)
    (before after : list string) (f : string) :
  findYamlFiles w = Returns (before ++ f :: after)%list ->
  0 < scoreYamlCandidate f key name ->
  Forall (fun g => scoreYamlCandidate g key name < scoreYamlCandidate f key name) before ->
  Forall (fun g => scoreYamlCandidate g key name <= scoreYamlCandidate f key name) after ->
  Exists (fun g => scoreYamlCandidate g key name = scoreYamlCandidate f key name) after ->
  selectLocalYamlFile w key name true st
  = (match selectText w (asked st) with
     | Some answer => Done (Some answer)
     | None => Exit 1
     end,
     {| asked := S (asked st); notices := notices st |}).
Proof. apply locator_tie. Qed.

Lemma locator_tie_asks_once_witness :
  let files := ["ci/ios.yml"; "ci/android-staging.yml"; "deploy/android_staging.yaml"] in
  let w := silentWorld (fun _ => Throws "YAMLParseError") files in
  let key := Some "android_staging" in
  findYamlFiles w
  = Returns (["ci/ios.yml"] ++ "ci/android-staging.yml" :: ["deploy/android_staging.yaml"])%list
  /\ scoreYamlCandidate "deploy/android_staging.yaml" key None
     = scoreYamlCandidate "ci/android-staging.yml" key None
  /\ selectLocalYamlFile w key None true initial
     = (Exit 1, {| asked := 1; notices := [] |}).
Proof.
  intros files w key. split; [reflexivity|]. split; [by vm_compute|].
  apply (locator_tie_asks_once w key None initial ["ci/ios.yml"]
           ["deploy/android_staging.yaml"] "ci/android-staging.yml" eq_refl).
  - by vm_compute.
  - repeat constructor; by vm_compute.
  - repeat constructor; by vm_compute.
  - constructor. by vm_compute.
Defined.

End LocatorMore.

(** ** The locator on the two example files *)

Module LocatorExamples.
Import Cli.

Lemma kept_without key name before f after :
  scoreYamlCandidate f key name <= 0 ->
  keptCandidates key name (before ++ f :: after)
  = keptCandidates key name (before ++ after).
Proof.
  intros Hf. unfold keptCandidates.
  rewrite !List.map_app, !List.filter_app. cbn [List.map List.filter].
  by destruct (Z.ltb_spec 0 (score (candidate key name f))); [cbn in *; lia|].
Qed.

(** The locator looks at the enumeration only through the candidates it
    keeps. *)
Lemma locator_of_kept w files files' key name interactive st :
  keptCandidates key name files = keptCandidates key name files' ->
  selectLocalYamlFile (withFiles w files) key name interactive st
  = selectLocalYamlFile (withFiles w files') key name interactive st.
Proof.
  intros Hkept. unfold selectLocalYamlFile, bind, call, lift.
  cbn [findYamlFiles withFiles attempted].
  by rewrite !LocatorMore.scoreCandidates_unfold, Hkept.
Qed.

(** C4.  The score is a function of the file path, the pipeline key and the
    pipeline name, and the locator's answer a function of the files found,
    the key, the name, whether it may ask, and the answer to its one
    question.  For the key [android_staging] (and no name),
    [ci/android-staging.yml] scores exactly 12: 8 because the normalized
    base name contains the normalized key, 4 because the normalized path
    does, and nothing from the other signals.  [ci/ios.yml] scores 0, and
    the locator discards it: wherever it stands among the files found, the
    locator answers as if it were not there; among any number of copies of
    it, [ci/android-staging.yml] is returned without a question; and alone
    it yields no file. *)
Theorem scoreYamlCandidate_examples :
  let key := Some "android_staging" in
  let android := "ci/android-staging.yml" in
  let ios := "ci/ios.yml" in
  (forall w w' files k n interactive st,
      findYamlFiles w = Returns files -> findYamlFiles w' = Returns files ->
      selectText w (asked st) = selectText w' (asked st) ->
      selectLocalYamlFile w k n interactive st = selectLocalYamlFile w' k n interactive st)
  /\ scoreYamlCandidate android key None = 8 + 4
  /\ (let base := toLowerCase (basename android (extname android)) in
      let keyNorm := normalizeForMatch key in
      keyNorm = "androidstaging"
      /\ normalizeForMatch (Some base) = "androidstaging"
      /\ normalizeForMatch (Some android) = "ciandroidstagingyml"
      /\ includes (normalizeForMatch (Some base)) keyNorm = true
      /\ includes (normalizeForMatch (Some android)) keyNorm = true
      /\ includes base "azure-pipelines" = false
      /\ includes (normalizeForMatch (Some android)) "pipeline" = false)
  /\ scoreYamlCandidate ios key None = 0
  /\ (forall files k n f,
         scoreYamlCandidate f k n = 0 ->
         ~ In f (List.map file (scoreCandidates files k n)))
  /\ (forall w before after interactive st,
         selectLocalYamlFile (withFiles w (before ++ ios :: after)) key None interactive st
         = selectLocalYamlFile (withFiles w (before ++ after)) key None interactive st)
  /\ (forall w before after interactive st,
         Forall (fun f => f = ios) before -> Forall (fun f => f = ios) after ->
         selectLocalYamlFile (withFiles w (before ++ android :: after)) key None
           interactive st
         = (Done (Some android), st))
  /\ (forall w files interactive st,
         Forall (fun f => f = ios) files ->
         selectLocalYamlFile (withFiles w files) key None interactive st = (Done None, st))
  /\ (forall interactive st,
         selectLocalYamlFile (silentWorld (fun _ => Throws "YAMLParseError") [ios; android])
           key None interactive st
         = (Done (Some android), st)).
Proof.
  intros key android ios.
  assert (Hios : scoreYamlCandidate ios key None = 0) by by vm_compute.
  assert (Handroid : scoreYamlCandidate android key None = 12) by by vm_compute.
  assert (Hcopies : forall files, Forall (fun f => f = ios) files ->
                      keptCandidates key None files = []).
  { intros files Hfiles. apply LocatorMore.nothing_kept.
    eapply Forall_impl; [exact Hfiles|]. intros f ->. by rewrite Hios. }
  split.
  { intros w w' files k n interactive st Hw Hw' Hanswer.
    unfold selectLocalYamlFile, bind, call, lift. rewrite Hw, Hw'. cbn [attempted].
    destruct (scoreCandidates files k n) as [|first [|second others]]; [done | done |].
    destruct (List.filter _ _) as [|one [|two more]]; [|done|];
      (destruct interactive; [|done]); unfold ask; cbn [negb]; by rewrite Hanswer. }
  split; [exact Handroid|].
  split; [by vm_compute|].
  split; [exact Hios|].
  split.
  { intros files k n f Hzero (item & <- & Hin)%in_map_iff.
    apply SpecProps.scoreCandidates_kept in Hin as (_ & Hscore & Hpos). lia. }
  split.
  { intros w before after interactive st. apply locator_of_kept, kept_without.
    by rewrite Hios. }
  split.
  { intros w before after interactive st Hbefore Hafter.
    unfold selectLocalYamlFile, bind, call, lift. cbn [findYamlFiles withFiles attempted].
    rewrite LocatorMore.scoreCandidates_unfold, LocatorMore.kept_app by (rewrite Handroid; lia).
    by rewrite !Hcopies. }
  split.
  { intros w files interactive st Hfiles.
    unfold selectLocalYamlFile, bind, call, lift. cbn [findYamlFiles withFiles attempted].
    by rewrite LocatorMore.scoreCandidates_unfold, Hcopies. }
  intros interactive st. unfold selectLocalYamlFile, bind, call, lift.
  cbn [findYamlFiles silentWorld attempted].
  replace (scoreCandidates [ios; android] key None)
    with [ {| file := android; score := 12 |} ] by by vm_compute.
  reflexivity.
Qed.

End LocatorExamples.

(** ** The walk of the project tree *)

Module TreeProps.
Import Tree.

Lemma scan_spec current entries queue results :
  scan current entries queue results
  = ((queue ++ subdirs current entries)%list, (results ++ filesOf current entries)%list).
Proof.
  revert queue results. induction entries as [|e entries IH]; intros queue results.
  - cbn. by rewrite !app_nil_r.
  - destruct e as [name|name listing|name]; cbn [scan subdirs filesOf].
    + destruct (isYamlName name); rewrite IH; [|done]. by rewrite <- app_assoc.
    + destruct (ignored name); rewrite IH; [done|]. by rewrite <- app_assoc.
    + apply IH.
Qed.

Lemma pop_snoc {A} (queue : list A) x : pop (queue ++ [x]) = Some (queue, x).
Proof.
  induction queue as [|y queue IH]; [done|].
  cbn [app pop]. by rewrite IH.
Qed.

Lemma visitPending_thrown d e : visitPending d (Throws e) = Throws e.
Proof. reflexivity. Qed.

Lemma visitQueue_thrown queue e :
  List.fold_right visitPending (Throws e) queue = Throws e.
Proof. induction queue as [|d queue IH]; [done|]. cbn. by rewrite IH. Qed.

Lemma visit_subdirs current entries acc :
  List.fold_right (visit current) acc entries
  = List.fold_right visitPending acc (subdirs current entries).
Proof.
  induction entries as [|e entries IH]; [done|].
  destruct e as [name|name listing|name]; cbn [List.fold_right subdirs visit]; try done.
  destruct (ignored name); [done|]. cbn [List.fold_right]. rewrite <- IH.
  unfold visitPending. cbn [fst snd].
  by destruct (List.fold_right (visit current) acc entries), listing.
Qed.

Lemma reads_subdirs current entries :
  list_sum (List.map reads entries) = readsOf (subdirs current entries).
Proof.
  induction entries as [|e entries IH]; [done|].
  change (list_sum (List.map reads (e :: entries)))
    with (reads e + list_sum (List.map reads entries))%nat.
  rewrite IH. destruct e as [name|name listing|name]; cbn [reads subdirs]; try done.
  by destruct (ignored name).
Qed.

Lemma readsOf_app q q' : readsOf (q ++ q') = (readsOf q + readsOf q')%nat.
Proof. unfold readsOf. by rewrite List.map_app, list_sum_app. Qed.

(** With fuel for every directory to read, the loop computes the walk. *)
Lemma walk_spec fuel queue results :
  (readsOf queue < fuel)%nat ->
  walk fuel queue results = Some (List.fold_right visitPending (Returns results) queue).
Proof.
  revert queue results. induction fuel as [|fuel IH]; intros queue results Hfuel; [lia|].
  cbn [walk]. destruct queue as [|d0 queue0] using rev_ind; [done|]. clear IHqueue0.
  rewrite pop_snoc. destruct d0 as [current [entries|e]].
  - rewrite scan_spec. rewrite IH.
    + rewrite !List.fold_right_app. cbn [List.fold_right]. f_equal. f_equal.
      change (visitPending (current, Returns entries) (Returns results))
        with (List.fold_right (visit current)
                (Returns (results ++ filesOf current entries)%list) entries).
      by rewrite visit_subdirs.
    + rewrite readsOf_app in *. rewrite <- reads_subdirs.
      unfold readsOf in Hfuel at 2. cbn in Hfuel. lia.
  - rewrite List.fold_right_app. cbn [List.fold_right].
    change (visitPending (current, Throws e) (Returns results)) with (@Throws (list string) e).
    by rewrite visitQueue_thrown.
Qed.

Lemma Dirent_all (P : Dirent -> Prop) :
  (forall name, P (FileEntry name)) ->
  (forall name, P (OtherEntry name)) ->
  (forall name e, P (DirEntry name (Throws e))) ->
  (forall name sub, Forall P sub -> P (DirEntry name (Returns sub))) ->
  forall e, P e.
Proof.
  intros Hfile Hother Hthrows Hdir.
  fix IH 1. intros [name|name [sub|e]|name]; [apply Hfile| |apply Hthrows|apply Hother].
  apply Hdir. induction sub as [|e sub IHsub]; constructor; [apply IH | apply IHsub].
Qed.

Lemma filesOf_In current entries path :
  In path (filesOf current entries)
  <-> exists name, In (FileEntry name) entries /\ isYamlName name = true
                   /\ path = child current name.
Proof.
  induction entries as [|e entries IH]; cbn [filesOf].
  - split; [done | by intros (? & [] & _)].
  - assert (Hskip : (exists name, In (FileEntry name) entries /\ isYamlName name = true
                                  /\ path = child current name)
                    -> exists name, In (FileEntry name) (e :: entries)
                                    /\ isYamlName name = true /\ path = child current name).
    { intros (name & ? & ? & ?). exists name. split; [by right | done]. }
    destruct e as [name|name listing|name].
    + destruct (isYamlName name) eqn:Hyaml; cbn [In]; rewrite IH; split.
      * intros [<- | H]; [|by apply Hskip]. exists name. split; [by left | done].
      * intros (n & [[= <-] | Hin] & Hy & ->); [by left|]. right. by exists n.
      * apply Hskip.
      * intros (n & [[= <-] | Hin] & Hy & ->); [congruence|]. by exists n.
    + rewrite IH. split; [apply Hskip|].
      intros (n & [[=] | Hin] & Hy & ->). by exists n.
    + rewrite IH. split; [apply Hskip|].
      intros (n & [[=] | Hin] & Hy & ->). by exists n.
Qed.

Lemma Listed_cases current entries path :
  Listed current entries path
  <-> In path (filesOf current entries) \/ ListedBelow current entries path.
Proof.
  rewrite filesOf_In. split.
  - intros [cur es name Hin Hyaml | cur es name sub p Hin Hign Hsub].
    + left. by exists name.
    + right. by exists name, sub.
  - intros [(name & Hin & Hyaml & ->) | (name & sub & Hin & Hign & Hsub)].
    + by apply listed_here.
    + by eapply listed_below.
Qed.

Lemma Unreadable_cons e entries : Unreadable entries -> Unreadable (e :: entries).
Proof.
  intros [es name m Hin Hign | es name sub Hin Hign Hsub].
  - eapply unreadable_here; [by right | done].
  - eapply unreadable_below; [by right | done | done].
Qed.

Lemma ListedBelow_cons e current entries path :
  ListedBelow current entries path -> ListedBelow current (e :: entries) path.
Proof. intros (name & sub & ? & ? & ?). exists name, sub. split; [by right | done]. Qed.

Lemma Unreadable_cases entries :
  Unreadable entries <->
  (exists name m, In (DirEntry name (Throws m)) entries /\ ignored name = false)
  \/ (exists name sub, In (DirEntry name (Returns sub)) entries
                       /\ ignored name = false /\ Unreadable sub).
Proof.
  split.
  - intros [es name m Hin Hign | es name sub Hin Hign Hsub].
    + left. by exists name, m.
    + right. by exists name, sub.
  - intros [(name & m & Hin & Hign) | (name & sub & Hin & Hign & Hsub)].
    + by eapply unreadable_here.
    + by eapply unreadable_below.
Qed.

(** The sub-directories of a directory, walked from [base]. *)
Lemma visit_entries current entries base :
  Forall WalkedBelow entries ->
  match List.fold_right (visit current) (Returns base) entries with
  | Returns files =>
      (exists more, files = (base ++ more)%list
                    /\ forall path, In path more <-> ListedBelow current entries path)
      /\ ~ Unreadable entries
  | Throws _ => Unreadable entries
  end.
Proof.
  induction 1 as [|e entries He Hentries IH]; cbn [List.fold_right].
  - split.
    + exists []. split; [by rewrite app_nil_r|].
      intros path. split; [done | by intros (? & ? & [] & _)].
    + rewrite Unreadable_cases. by intros [(? & ? & [] & _) | (? & ? & [] & _)].
  - assert (Hsame :
      (forall name sub, e = DirEntry name (Returns sub) -> ignored name = true) ->
      (forall name m, e = DirEntry name (Throws m) -> ignored name = true) ->
      match List.fold_right (visit current) (Returns base) entries with
      | Returns files =>
          (exists more, files = (base ++ more)%list
                        /\ forall path, In path more <-> ListedBelow current (e :: entries) path)
          /\ ~ Unreadable (e :: entries)
      | Throws _ => Unreadable (e :: entries)
      end).
    { intros Hnot Hnot'.
      destruct (List.fold_right (visit current) (Returns base) entries) as [files|m];
        [|by apply Unreadable_cons].
      destruct IH as [(more & -> & Hmore) Hread]. split.
      - exists more. split; [done|]. intros path. rewrite Hmore. split.
        + apply ListedBelow_cons.
        + intros (name & sub & [-> | Hin] & Hign & Hsub); [|by exists name, sub].
          specialize (Hnot name sub eq_refl). congruence.
      - rewrite Unreadable_cases.
        intros [(name & m & [-> | Hin] & Hign) | (name & sub & [-> | Hin] & Hign & Hsub)].
        + specialize (Hnot' name m eq_refl). congruence.
        + apply Hread. by eapply unreadable_here.
        + specialize (Hnot name sub eq_refl). congruence.
        + apply Hread. by eapply unreadable_below. }
    destruct e as [name|name listing|name]; cbn [visit].
    + by apply Hsame.
    + destruct (ignored name) eqn:Hign;
        [apply Hsame; intros ? ? [= <- _]; done|].
      destruct (List.fold_right (visit current) (Returns base) entries) as [files|m];
        [|by apply Unreadable_cons].
      destruct IH as [(more & -> & Hmore) Hread].
      destruct listing as [sub|m].
      * specialize (He (child current name) (base ++ more)%list).
        unfold visitPending in He. cbn [fst snd] in He.
        destruct (List.fold_right _ _ sub) as [files|m].
        -- destruct He as [(more' & -> & Hmore') Hread']. split.
           ++ exists (more ++ filesOf (child current name) sub ++ more')%list.
              split; [by rewrite <- !app_assoc|].
              intros path. rewrite in_app_iff, Hmore, Hmore'. split.
              ** intros [Hrest | Hsub]; [by apply ListedBelow_cons|].
                 exists name, sub. split; [by left | done].
              ** intros (n & sb & [[= <- <-] | Hin] & Hi & Hsub); [by right|].
                 left. by exists n, sb.
           ++ rewrite Unreadable_cases.
              intros [(n & m & [[=] | Hin] & Hi) | (n & sb & [[= <- <-] | Hin] & Hi & Hsub)].
              ** apply Hread. by eapply unreadable_here.
              ** done.
              ** apply Hread. by eapply unreadable_below.
        -- eapply unreadable_below; [by left | done | done].
      * eapply unreadable_here; [by left | done].
    + by apply Hsame.
Qed.

Lemma walked_all e : WalkedBelow e.
Proof.
  induction e as [name|name|name m|name sub IH] using Dirent_all; try done.
  intros current results. unfold visitPending. cbn [fst snd].
  pose proof (visit_entries current sub (results ++ filesOf current sub)%list IH) as H.
  destruct (List.fold_right _ _ sub) as [files|m]; [|done].
  destruct H as [(more & -> & Hmore) Hread]. split; [|done].
  exists more. split; [by rewrite <- app_assoc|].
  intros path. rewrite Listed_cases, in_app_iff, Hmore. done.
Qed.

(** X10.  The walk of the project tree ends on every tree, after one turn of
    its loop for each directory it reads.  When it ends with a list, the
    list holds exactly the files whose lower-cased extension is [.yml] or
    [.yaml] and that lie in the root or below directories none of which is
    ignored, the files of the root first; no directory it had to read was
    unreadable.  When it ends with an error, some directory outside the
    ignored ones could not be read. *)
Theorem findYamlFiles_lists (entries : list Dirent) (extra : nat) :
  match findYamlFiles (enoughFuel entries + extra) (Returns entries) with
  | Some (Returns files) =>
      (exists more, files = (filesOf "" entries ++ more)%list)
      /\ (forall path, In path files <-> Listed "" entries path)
      /\ ~ Unreadable entries
  | Some (Throws _) => Unreadable entries
  | None => False
  end.
Proof.
  unfold findYamlFiles. rewrite walk_spec.
  - cbn [List.fold_right].
    pose proof (walked_all (DirEntry "" (Returns entries)) "" []) as H.
    destruct (visitPending _ _) as [files|m]; [|done].
    destruct H as [(more & -> & Hmore) Hread]. cbn [app] in *.
    split; [by exists more|]. done.
  - unfold readsOf, enoughFuel. cbn. lia.
Qed.

End TreeProps.

(* --------------------------------------------------------------------- *)
(** ** The parameter prompts *)

Module PromptMore.
Import Cli Dialogue ObjectFacts.

Lemma afterPrompts_0 st : afterPrompts 0 st = st.
Proof. destruct st. unfold afterPrompts. cbn. f_equal. lia. Qed.

Lemma afterPrompts_S n st : afterPrompts n (afterPrompts 1 st) = afterPrompts (S n) st.
Proof. unfold afterPrompts. cbn. f_equal. lia. Qed.

(** One turn of the loop: a menu that cannot be built throws before
    anything is asked, a cancelled prompt ends the process, and any answer
    lets the loop go on with the object the answer leaves. *)
Lemma prompt_turn w param rest result st :
  promptForParameters_loop w (param :: rest) result st
  = if menuFails param then (Throw conversionError, st)
    else if cancelledAt w param (asked st) then (Exit 1, afterPrompts 1 st)
    else promptForParameters_loop w rest (answered w param (asked st) result)
           (afterPrompts 1 st).
Proof.
  assert (Hnext : {| asked := S (asked st); notices := notices st |} = afterPrompts 1 st).
  { unfold afterPrompts. f_equal. lia. }
  rewrite <- Hnext. clear Hnext.
  unfold menuFails, cancelledAt, answered, entered, declaredDefault.
  cbn [promptForParameters_loop]. cbv zeta.
  unfold bind, ask, exitIfCancel, ret, lift, throw.
  destruct (spec_values param) as [[|v0 vs]|].
  2:{ destruct (existsb unprintable (v0 :: vs)); [done|].
      by destruct (select w (asked st)). }
  all: destruct (String.eqb (toLowerCase (spec_type param)) "boolean");
    [by destruct (confirm w (asked st))|].
  all: destruct (text w (asked st)) as [input|]; [|done].
  all: destruct (String.eqb (trim input) "");
    [by destruct (isUndefined (spec_default param))|].
  all: by repeat match goal with |- context [if ?b then _ else _] => destruct b end.
Qed.

Lemma assign_keys (o : Plain) key v k :
  is_Some (own (assignProp o key v) !! k) -> is_Some (own o !! k) \/ k = key.
Proof.
  assert (Hinsert : is_Some (<[key := v]> (own o) !! k) -> is_Some (own o !! k) \/ k = key).
  { destruct (decide (key = k)) as [<-|Hne]; [by right|].
    rewrite lookup_insert_ne by done. by left. }
  unfold assignProp. destruct (String.eqb key "__proto__"); [|exact Hinsert].
  destruct (own o !! key); [exact Hinsert|].
  destruct (shadowsAccessor (proto o)); [exact Hinsert|].
  destruct v; by left.
Qed.

Lemma answered_keys w param n (o : Plain) k :
  is_Some (own (answered w param n o) !! k) -> is_Some (own o !! k) \/ k = spec_name param.
Proof.
  unfold answered. destruct (orElse _ _); [apply assign_keys | by left].
Qed.

Lemma prompt_loop_dialogue w specs result st :
  match promptForParameters_loop w specs result st with
  | (Done final, st') =>
      st' = afterPrompts (length specs) st
      /\ (forall i param, specs !! i = Some param ->
                          menuFails param = false
                          /\ cancelledAt w param (asked st + i) = false)
      /\ (forall k, is_Some (own final !! k) ->
                    is_Some (own result !! k) \/ In k (List.map spec_name specs))
  | (Exit c, st') =>
      c = 1
      /\ exists i param,
           specs !! i = Some param
           /\ menuFails param = false
           /\ cancelledAt w param (asked st + i) = true
           /\ (forall j p, (j < i)%nat -> specs !! j = Some p ->
                           menuFails p = false
                           /\ cancelledAt w p (asked st + j) = false)
           /\ st' = afterPrompts (S i) st
  | (Throw message, st') =>
      message = conversionError
      /\ exists i param,
           specs !! i = Some param
           /\ menuFails param = true
           /\ (forall j p, (j < i)%nat -> specs !! j = Some p ->
                           menuFails p = false
                           /\ cancelledAt w p (asked st + j) = false)
           /\ st' = afterPrompts i st
  end.
Proof.
  revert result st. induction specs as [|param rest IH]; intros result st.
  - cbn [promptForParameters_loop]. unfold ret. rewrite afterPrompts_0.
    split; [done|]. split; [done | by left].
  - rewrite prompt_turn. destruct (menuFails param) eqn:Hmenu.
    { split; [done|]. exists 0%nat, param. split; [done|]. split; [done|].
      split; [lia | by rewrite afterPrompts_0]. }
    destruct (cancelledAt w param (asked st)) eqn:Hcancel.
    { split; [done|]. exists 0%nat, param.
      split; [done|]. split; [done|]. rewrite Nat.add_0_r. split; [done|].
      split; [lia | done]. }
    specialize (IH (answered w param (asked st) result) (afterPrompts 1 st)).
    assert (Hpos : forall i, (asked (afterPrompts 1 st) + i = asked st + S i)%nat)
      by (intros; cbn; lia).
    assert (Hbefore : forall i,
      (forall j p, (j < i)%nat -> rest !! j = Some p ->
                   menuFails p = false
                   /\ cancelledAt w p (asked (afterPrompts 1 st) + j) = false) ->
      forall j p, (j < S i)%nat -> (param :: rest) !! j = Some p ->
                  menuFails p = false /\ cancelledAt w p (asked st + j) = false).
    { intros i Hi [|j] q Hj Hq.
      - injection Hq as <-. by rewrite Nat.add_0_r.
      - rewrite <- Hpos. apply Hi; [lia | done]. }
    destruct (promptForParameters_loop w rest _ (afterPrompts 1 st))
      as [[final|c|message] st'].
    + destruct IH as (-> & Hanswered & Hres). split; [by rewrite afterPrompts_S|].
      split.
      * intros [|i] p Hp.
        -- injection Hp as <-. by rewrite Nat.add_0_r.
        -- rewrite <- Hpos. by apply Hanswered.
      * intros k Hk. destruct (Hres k Hk) as [Hacc|Hin]; [|right; by right].
        destruct (answered_keys _ _ _ _ _ Hacc) as [?| ->]; [by left | right; by left].
    + destruct IH as (-> & i & p & Hp & Hm & Hc & Hearlier & ->). split; [done|].
      exists (S i), p. split; [done|]. split; [done|]. rewrite <- Hpos. split; [done|].
      split; [by apply Hbefore | by rewrite afterPrompts_S].
    + destruct IH as (-> & i & p & Hp & Hm & Hearlier & ->). split; [done|].
      exists (S i), p. split; [done|]. split; [done|].
      split; [by apply Hbefore | by rewrite afterPrompts_S].
Qed.

(** X11.  The parameter prompts go through the declared parameters in
    order and ask at most one question for each, reporting nothing.  They
    end in one of three ways: with a result, every question having been
    answered, whose names are all names of declared parameters; with the
    end of the process, code 1, at the first question that is cancelled;
    or with the conversion error, before the question is asked, at the
    first parameter whose menu cannot be built because one of its values
    has no text form.  Nothing else is thrown: an answer that is not JSON
    or not a number is kept as text. *)
Theorem promptForParameters_asks_each
    (w : World) (specs : list PipelineParamSpec) (st : State) :
  match promptForParameters w specs st with
  | (Done result, st') =>
      st' = afterPrompts (length specs) st
      /\ (forall i param, specs !! i = Some param ->
                          menuFails param = false
                          /\ cancelledAt w param (asked st + i) = false)
      /\ (forall k, is_Some (result !! k) -> In k (List.map spec_name specs))
  | (Exit c, st') =>
      c = 1
      /\ exists i param,
           specs !! i = Some param
           /\ menuFails param = false
           /\ cancelledAt w param (asked st + i) = true
           /\ (forall j p, (j < i)%nat -> specs !! j = Some p ->
                           menuFails p = false
                           /\ cancelledAt w p (asked st + j) = false)
           /\ st' = afterPrompts (S i) st
  | (Throw message, st') =>
      message = conversionError
      /\ exists i param,
           specs !! i = Some param
           /\ menuFails param = true
           /\ (forall j p, (j < i)%nat -> specs !! j = Some p ->
                           menuFails p = false
                           /\ cancelledAt w p (asked st + j) = false)
           /\ st' = afterPrompts i st
  end.
Proof.
  unfold promptForParameters, bind.
  pose proof (prompt_loop_dialogue w specs emptyObject st) as H.
  destruct (promptForParameters_loop w specs emptyObject st) as [[final|c|e] st'];
    [|done|done].
  cbn [ret]. destruct H as (? & ? & Hres). split; [done|]. split; [done|].
  intros k Hk. destruct (Hres k Hk) as [Hempty|?]; [|done].
  cbn in Hempty. rewrite lookup_empty in Hempty. by destruct Hempty.
Qed.

Lemma blank_turn w param rest result st :
  textual param = true ->
  blank (text w (asked st)) = true ->
  promptForParameters_loop w (param :: rest) result st
  = promptForParameters_loop w rest
      (defaultsFromSpecs_loop [param] result) (afterPrompts 1 st).
Proof.
  unfold textual, blank. intros Htext Hblank. rewrite prompt_turn.
  unfold menuFails, cancelledAt, answered, entered, declaredDefault.
  cbn [defaultsFromSpecs_loop]. cbv zeta.
  destruct (spec_values param) as [[|v0 vs]|]; try done.
  all: destruct (String.eqb (toLowerCase (spec_type param)) "boolean"); [done|].
  all: destruct (text w (asked st)) as [input|]; [|done].
  all: rewrite Hblank.
  all: by destruct (isUndefined (spec_default param)).
Qed.

Lemma defaults_loop_cons param rest acc :
  defaultsFromSpecs_loop (param :: rest) acc
  = defaultsFromSpecs_loop rest (defaultsFromSpecs_loop [param] acc).
Proof. cbn [defaultsFromSpecs_loop]. by destruct (negb _). Qed.

Lemma blank_loop w specs result st :
  forallb textual specs = true ->
  (forall i, (i < length specs)%nat -> blank (text w (asked st + i)) = true) ->
  promptForParameters_loop w specs result st
  = (Done (defaultsFromSpecs_loop specs result), afterPrompts (length specs) st).
Proof.
  revert result st. induction specs as [|param rest IH]; intros result st Htext Hblank.
  - cbn. by rewrite afterPrompts_0.
  - cbn [forallb] in Htext. apply andb_true_iff in Htext as [Hhead Hrest].
    rewrite blank_turn; [|done|].
    + rewrite IH; [by rewrite afterPrompts_S, <- defaults_loop_cons | done |].
      intros i Hi. replace (asked (afterPrompts 1 st) + i)%nat with (asked st + S i)%nat
        by (cbn; lia).
      apply Hblank. cbn [length]. lia.
    + specialize (Hblank 0%nat). rewrite Nat.add_0_r in Hblank.
      apply Hblank. cbn [length]. lia.
Qed.

(** X12.  Pressing Enter at every question gives the defaults: when every
    declared parameter is asked for in a text field (no list of values, not
    a boolean) and every answer is blank, the prompts yield exactly what the
    command uses with [--no-prompt], the defaults of the specs. *)
Theorem blank_answers_give_defaults
    (w : World) (specs : list PipelineParamSpec) (st : State) :
  forallb textual specs = true ->
  (forall i, (i < length specs)%nat -> blank (text w (asked st + i)) = true) ->
  promptForParameters w specs st
  = (Done (defaultsFromSpecs specs), afterPrompts (length specs) st).
Proof.
  intros Htext Hblank. unfold promptForParameters, bind.
  by rewrite blank_loop.
Qed.

Lemma blank_answers_give_defaults_witness :
  promptForParameters (typingWorld [" "; ""]) sampleSpecs initial
  = (Done (defaultsFromSpecs sampleSpecs), afterPrompts 2 initial).
Proof.
  apply (blank_answers_give_defaults (typingWorld [" "; ""]) sampleSpecs initial).
  - reflexivity.
  - intros [|[|i]] Hi; [reflexivity | reflexivity | cbn in Hi; lia].
Defined.

End PromptMore.

(** ** The parameter set handed to the trigger *)

Module TriggerProps.
Import Js Cli Dialogue ObjectFacts.












End TriggerProps.

(* --------------------------------------------------------------------- *)
(** ** Selection by identifier *)

Module SelectionMore.
Import Cli.

(** A catalog entry is listed as soon as its id is a number. *)
Lemma listConfigPipelines_loop_keeps key raw entries :
  In (key, raw) entries ->
  isNaN (entry_id raw) = false ->
  exists entry, In (key, entry) (listConfigPipelines_loop entries).
Proof.
  induction entries as [|[k e] entries IH]; [done|].
  cbn [listConfigPipelines_loop]. unfold normalizePipelineEntry.
  intros [[= -> ->] | Hin] Hid.
  - rewrite Hid. eexists. by left.
  - destruct (IH Hin Hid) as (entry & Hentry).
    exists entry. destruct (isNaN (entry_id e)); [done | by right].
Qed.

Lemma find_key_none (arg : string) (entries : list (string * PipelineEntry)) :
  List.find (fun e => String.eqb (fst e) arg) entries = None
  <-> forall entry, ~ In (arg, entry) entries.
Proof.
  split.
  - intros Hfind entry Hin.
    pose proof (find_none _ _ Hfind _ Hin) as H. cbn in H.
    by rewrite String.eqb_refl in H.
  - intros Hnone. apply SelectionProps.find_absent. intros [k e] Hin. cbn.
    apply String.eqb_neq. intros ->. by apply (Hnone e).
Qed.

Lemma unknown_key (arg : string) pipelines :
  List.find (fun e => String.eqb (fst e) arg) (listConfigPipelines pipelines) = None
  <-> forall raw, In (arg, raw) (default [] pipelines) -> isNaN (entry_id raw) = true.
Proof.
  rewrite find_key_none. split.
  - intros Hnone raw Hin. destruct (isNaN (entry_id raw)) eqn:Hid; [done|].
    destruct pipelines as [entries|]; [|done].
    destruct (listConfigPipelines_loop_keeps _ _ _ Hin Hid) as (entry & Hentry).
    by destruct (Hnone entry).
  - intros Hraw entry Hin.
    apply SelectionProps.listConfigPipelines_In in Hin as (Hid & raw & Hin & Heq).
    apply Hraw in Hin. congruence.
Qed.

(** X13.  With an identifier the selection asks nothing and reports
    nothing, and never ends the process.  It fails exactly when the
    identifier is not a number and the catalog has no entry of that key
    with a numeric id, with the message that names the identifier; a
    successful selection has the number as its id, or else the identifier
    as its key. *)
Theorem identified_pipeline_is_not_asked_for
    (w : World) (config : AzdoFileConfig) (arg : string) (st : State) :
  arg <> "" ->
  let r := resolvePipelineSelection w config (Some arg) st in
  snd r = st
  /\ (forall c, fst r <> Exit c)
  /\ (forall e,
        fst r = Throw e
        <-> e = "Unknown pipeline " +:+ quoted arg +:+ " in " +:+ CONFIG_FILENAME
            /\ isNaN (Number arg) = true
            /\ forall raw, In (arg, raw) (default [] (pipelines config)) ->
                           isNaN (entry_id raw) = true)
  /\ (forall selection,
        fst r = Done selection ->
        if isNaN (Number arg) then sel_key selection = Some arg
        else sel_id selection = Number arg).
Proof.
  intros Harg. apply String.eqb_neq in Harg.
  unfold resolvePipelineSelection, nonEmpty. rewrite Harg. cbn [negb].
  destruct (isNaN (Number arg)) eqn:Hnan; cbn [negb].
  - pose proof (unknown_key arg (pipelines config)) as Hunknown.
    destruct (List.find _ (listConfigPipelines (pipelines config)))
      as [[key entry]|] eqn:Hfind; cbn.
    + split; [done|]. split; [done|]. split.
      * intros e. split; [done|]. intros (_ & _ & Hraw).
        apply Hunknown in Hraw. done.
      * intros selection [= <-]. cbn. f_equal.
        apply find_some in Hfind as [_ Hkey]. by apply String.eqb_eq in Hkey.
    + split; [done|]. split; [done|]. split; [|done].
      intros e. split.
      * intros [= <-]. split; [done|]. split; [done|]. by apply Hunknown.
      * by intros (-> & _).
  - cbn. split; [done|]. split; [done|]. split.
    + intros e. split; [done | by intros (_ & ? & _)].
    + by intros selection [= <-].
Qed.

Lemma identified_pipeline_is_not_asked_for_witness :
  resolvePipelineSelection bareWorld (configOf [("android", androidEntry)])
    (Some "ios") initial
  = (Throw ("Unknown pipeline " +:+ quoted "ios" +:+ " in " +:+ CONFIG_FILENAME), initial).
Proof.
  assert (Harg : "ios" <> "") by done.
  pose proof (identified_pipeline_is_not_asked_for bareWorld
                (configOf [("android", androidEntry)]) "ios" initial Harg) as H.
  cbv zeta in H. destruct H as (Hst & _ & Hthrow & _).
  destruct (resolvePipelineSelection _ _ _ _) as [out st]. cbn [fst snd] in *.
  f_equal; [|exact Hst]. apply Hthrow. split; [done|]. split; [reflexivity|].
  intros raw [[=] | []].
Defined.

End SelectionMore.

(* --------------------------------------------------------------------- *)
(** ** The keys of the catalog *)

Module InitProps.
Import Js Cli Init.

Lemma alnum_cases c :
  is_alnum c = true ->
  is_underscore c = false /\ is_upper c = false
  /\ (code c =? 196) = false /\ (code c =? 226) = false.
Proof.
  unfold is_alnum, is_lower, is_digit, is_underscore, is_upper.
  rewrite orb_true_iff, !andb_true_iff, !Z.leb_le, andb_false_iff, !Z.leb_gt, !Z.eqb_neq.
  lia.
Qed.

Lemma underscore_cases c :
  is_underscore c = true ->
  is_alnum c = false /\ is_upper c = false
  /\ (code c =? 196) = false /\ (code c =? 226) = false.
Proof.
  unfold is_alnum, is_lower, is_digit, is_underscore, is_upper.
  rewrite orb_false_iff, !andb_false_iff, !Z.leb_gt, !Z.eqb_neq, Z.eqb_eq.
  lia.
Qed.

Lemma underscore_char c : is_underscore c = true -> c = "_"%char.
Proof.
  unfold is_underscore, code. intros H%Z.eqb_eq.
  rewrite <- (ascii_N_embedding c). by replace (N_of_ascii c) with 95%N by lia.
Qed.

(** [toLowerCase] leaves a character that is neither an upper-case letter
    nor the first byte of one of the two special characters. *)
Lemma toLowerCase_keeps c1 r1 :
  is_upper c1 = false -> (code c1 =? 196) = false -> (code c1 =? 226) = false ->
  toLowerCase (String c1 r1) = String c1 (toLowerCase r1).
Proof.
  intros H1 H2 H3. destruct r1 as [|c2 [|c3 r3]]; cbn [toLowerCase];
    rewrite H1, ?H2, ?H3; cbn [andb]; done.
Qed.

Lemma toLowerCase_tidy s : tidy s = true -> toLowerCase s = s.
Proof.
  induction s as [|c r IH]; [done|]. cbn [tidy].
  destruct (is_alnum c) eqn:Hc.
  - intros Hr. destruct (alnum_cases c Hc) as (_ & ? & ? & ?).
    rewrite toLowerCase_keeps by done. by rewrite IH.
  - intros [[Hu _]%andb_true_iff Hr]%andb_true_iff.
    destruct (underscore_cases c Hu) as (_ & ? & ? & ?).
    rewrite toLowerCase_keeps by done. by rewrite IH.
Qed.

(** *** The first replacement *)

Lemma underscoreRuns_tidy inRun s :
  tidy (underscoreRuns_from inRun s) = true
  /\ (inRun = true -> startsPlain (underscoreRuns_from inRun s) = true).
Proof.
  revert inRun. induction s as [|c r IH]; intros inRun; [done|].
  cbn [underscoreRuns_from]. destruct (is_alnum c) eqn:Hc.
  - cbn [tidy startsPlain]. rewrite Hc. destruct (alnum_cases c Hc) as (-> & _).
    split; [apply IH | done].
  - destruct inRun; [apply IH|]. split; [|done].
    destruct (IH true) as [Htidy Hstart]. specialize (Hstart eq_refl).
    cbn [tidy]. change (is_alnum "_") with false. change (is_underscore "_") with true.
    rewrite Htidy, andb_true_r. cbn [andb].
    destruct (underscoreRuns_from true r) as [|d r'] eqn:Hr; [done|].
    cbn [startsPlain] in Hstart. cbn [tidy] in Htidy.
    destruct (is_alnum d); [done|]. apply andb_true_iff in Htidy as [[Hd _]%andb_true_iff _].
    by rewrite Hd in Hstart.
Qed.

Lemma underscoreRuns_fixed inRun s :
  tidy s = true -> (inRun = true -> startsPlain s = true) ->
  underscoreRuns_from inRun s = s.
Proof.
  revert inRun. induction s as [|c r IH]; intros inRun; [done|].
  cbn [tidy underscoreRuns_from startsPlain]. destruct (is_alnum c) eqn:Hc.
  - intros Hr _. by rewrite IH.
  - intros [[Hu Hnext]%andb_true_iff Hr]%andb_true_iff Hstart.
    destruct inRun; [specialize (Hstart eq_refl); by rewrite Hu in Hstart|].
    rewrite (underscore_char c Hu), IH; [done | done |].
    intros _. destruct r as [|d r']; [done|]. cbn [startsPlain].
    by destruct (alnum_cases d Hnext) as (-> & _).
Qed.

Lemma underscoreRuns_alnum inRun s :
  removeNonAlnum (underscoreRuns_from inRun s) = removeNonAlnum s.
Proof.
  revert inRun. induction s as [|c r IH]; intros inRun; [done|].
  cbn [underscoreRuns_from removeNonAlnum]. fold (is_alnum c).
  destruct (is_alnum c) eqn:Hc.
  - cbn [removeNonAlnum]. fold (is_alnum c). by rewrite Hc, IH.
  - destruct inRun; [apply IH|]. cbn [removeNonAlnum].
    change (is_lower "_" || is_digit "_") with false. cbn beta iota. apply IH.
Qed.

(** *** The second replacement *)

Lemma dropLeading_tidy s :
  tidy s = true ->
  tidy (dropLeadingUnderscores s) = true
  /\ startsPlain (dropLeadingUnderscores s) = true.
Proof.
  induction s as [|c r IH]; [done|]. cbn [dropLeadingUnderscores].
  destruct (is_underscore c) eqn:Hu.
  - cbn [tidy]. destruct (underscore_cases c Hu) as (-> & _).
    intros [_ Hr]%andb_true_iff. by apply IH.
  - intros Htidy. split; [done|]. cbn [startsPlain]. by rewrite Hu.
Qed.

Lemma dropLeading_fixed s : startsPlain s = true -> dropLeadingUnderscores s = s.
Proof.
  destruct s as [|c r]; [done|]. cbn [startsPlain dropLeadingUnderscores].
  by destruct (is_underscore c).
Qed.

Lemma dropLeading_alnum s :
  removeNonAlnum (dropLeadingUnderscores s) = removeNonAlnum s.
Proof.
  induction s as [|c r IH]; [done|]. cbn [dropLeadingUnderscores].
  destruct (is_underscore c) eqn:Hu; [|done].
  cbn [removeNonAlnum]. fold (is_alnum c).
  by destruct (underscore_cases c Hu) as (-> & _).
Qed.

Lemma all_underscores_alnum s : all_underscores s = true -> removeNonAlnum s = "".
Proof.
  induction s as [|c r IH]; [done|]. cbn [all_underscores removeNonAlnum].
  intros [Hu Hr]%andb_true_iff. fold (is_alnum c).
  destruct (underscore_cases c Hu) as (-> & _). by apply IH.
Qed.

Lemma dropTrailing_alnum s :
  removeNonAlnum (dropTrailingUnderscores s) = removeNonAlnum s.
Proof.
  induction s as [|c r IH]; [done|]. cbn [dropTrailingUnderscores].
  destruct (all_underscores (String c r)) eqn:Hall.
  - by rewrite (all_underscores_alnum (String c r)).
  - cbn [removeNonAlnum]. by rewrite IH.
Qed.

Lemma dropTrailing_head c r :
  is_underscore c = false ->
  dropTrailingUnderscores (String c r) = String c (dropTrailingUnderscores r).
Proof. intros Hc. cbn [dropTrailingUnderscores all_underscores]. by rewrite Hc. Qed.

Lemma dropTrailing_cons c r :
  all_underscores (String c r) = false ->
  dropTrailingUnderscores (String c r) = String c (dropTrailingUnderscores r).
Proof. intros Hall. cbn [dropTrailingUnderscores]. by rewrite Hall. Qed.

Lemma slugTail_cons c r :
  slugTail (String c r)
  = if is_alnum c then slugTail r
    else is_underscore c
         && match r with String d _ => is_alnum d | "" => false end
         && slugTail r.
Proof. done. Qed.

Lemma before_alnum c d r :
  is_alnum d = true -> all_underscores (String c (String d r)) = false.
Proof.
  intros Hd. destruct (alnum_cases d Hd) as (Hu & _).
  cbn [all_underscores]. by rewrite Hu, andb_false_r.
Qed.

Lemma dropTrailing_tidy s : tidy s = true -> slugTail (dropTrailingUnderscores s) = true.
Proof.
  induction s as [|c r IH]; [done|]. cbn [tidy].
  destruct (is_alnum c) eqn:Hc.
  - intros Hr. destruct (alnum_cases c Hc) as (Hu & _).
    rewrite dropTrailing_head, slugTail_cons by done. rewrite Hc. by apply IH.
  - intros [[Hu Hnext]%andb_true_iff Hr]%andb_true_iff.
    destruct r as [|d r'].
    + cbn. by rewrite Hu.
    + destruct (alnum_cases d Hnext) as (Hd & _). specialize (IH Hr).
      rewrite dropTrailing_cons by by apply before_alnum.
      rewrite slugTail_cons, Hc, Hu, IH.
      rewrite dropTrailing_head by done. by rewrite Hnext.
Qed.

Lemma dropTrailing_fixed s : slugTail s = true -> dropTrailingUnderscores s = s.
Proof.
  induction s as [|c r IH]; [done|]. rewrite slugTail_cons.
  destruct (is_alnum c) eqn:Hc.
  - intros Hr. destruct (alnum_cases c Hc) as (Hu & _).
    rewrite dropTrailing_head by done. by rewrite IH.
  - intros [[Hu Hnext]%andb_true_iff Hr]%andb_true_iff.
    destruct r as [|d r']; [done|].
    rewrite dropTrailing_cons by by apply before_alnum.
    by rewrite IH.
Qed.

Lemma slugTail_tidy s : slugTail s = true -> tidy s = true.
Proof.
  induction s as [|c r IH]; [done|]. cbn [slugTail tidy].
  destruct (is_alnum c); [done|].
  intros [[-> Hnext]%andb_true_iff Hr]%andb_true_iff.
  rewrite IH by done. by destruct r; [|rewrite Hnext].
Qed.

Lemma isSlug_cases s :
  isSlug s = true <-> s <> "" /\ startsPlain s = true /\ slugTail s = true.
Proof.
  destruct s as [|c r]; [by split; [|intros (? & _)]|].
  unfold isSlug. cbn [startsPlain]. rewrite andb_true_iff. split.
  - intros [Hc Htail]. by destruct (alnum_cases c Hc) as (-> & _).
  - intros (_ & Hu & Htail). split; [|done].
    cbn [slugTail] in Htail. destruct (is_alnum c); [done|].
    apply negb_true_iff in Hu. by rewrite Hu in Htail.
Qed.

(** The slug before the fall-back to [pipeline]. *)
Lemma core_shape name :
  let core := dropTrailingUnderscores
                (dropLeadingUnderscores (underscoreRuns (toLowerCase name))) in
  core = "" \/ isSlug core = true.
Proof.
  intros core.
  destruct (underscoreRuns_tidy false (toLowerCase name)) as [Htidy _].
  apply dropLeading_tidy in Htidy as [Htidy Hstart].
  fold (underscoreRuns (toLowerCase name)) in Htidy, Hstart.
  pose proof (dropTrailing_tidy _ Htidy) as Htail. fold core in Htail.
  assert (Hplain : startsPlain core = true).
  { unfold core. destruct (dropLeadingUnderscores _) as [|c r]; [done|].
    cbn [startsPlain] in Hstart. apply negb_true_iff in Hstart.
    rewrite dropTrailing_head by done. cbn [startsPlain]. by rewrite Hstart. }
  destruct (decide (core = "")) as [?|Hne]; [by left | right].
  by apply isSlug_cases.
Qed.

Lemma slug_isSlug name : isSlug (slugifyPipelineName name) = true.
Proof.
  unfold slugifyPipelineName.
  destruct (core_shape name) as [-> | Hslug]; [done|].
  destruct (String.eqb _ "") eqn:Hempty; [done | exact Hslug].
Qed.

Lemma slug_fixed s : isSlug s = true -> slugifyPipelineName s = s.
Proof.
  intros (Hne & Hstart & Htail)%isSlug_cases. unfold slugifyPipelineName.
  pose proof (slugTail_tidy s Htail) as Htidy.
  rewrite toLowerCase_tidy by done. unfold underscoreRuns.
  rewrite underscoreRuns_fixed by done.
  rewrite dropLeading_fixed, dropTrailing_fixed by done.
  by apply String.eqb_neq in Hne as ->.
Qed.

(** X14.  The keys [init] derives from pipeline names are exactly the
    strings of the form [a-z0-9]+(_[a-z0-9]+)*: every slug has that form
    (it is never empty and has no underscore at either end or next to
    another), and a string of that form is its own slug, so that
    slugifying twice changes nothing. *)
Theorem slugifyPipelineName_shape :
  (forall name, isSlug (slugifyPipelineName name) = true)
  /\ (forall s, isSlug s = true -> slugifyPipelineName s = s)
  /\ (forall name,
        slugifyPipelineName (slugifyPipelineName name) = slugifyPipelineName name).
Proof.
  split; [apply slug_isSlug|]. split; [apply slug_fixed|].
  intros name. apply slug_fixed, slug_isSlug.
Qed.

(** X15.  A key derived from a name stands for the name in the search for
    the definition file: when the name has a letter or digit at all, the
    slug and the name normalise to the same text for matching, so that they
    match the same files. *)
Theorem slug_matches_like_name (name : string) :
  normalizeForMatch (Some name) <> "" ->
  normalizeForMatch (Some (slugifyPipelineName name)) = normalizeForMatch (Some name)
  /\ forall filePath other,
       scoreYamlCandidate filePath (Some (slugifyPipelineName name)) other
       = scoreYamlCandidate filePath (Some name) other.
Proof.
  intros Hnorm.
  assert (Heq : normalizeForMatch (Some (slugifyPipelineName name))
                = normalizeForMatch (Some name)).
  { unfold normalizeForMatch in *.
    assert (Hslug : String.eqb (slugifyPipelineName name) "" = false).
    { apply String.eqb_neq. intros Hempty.
      pose proof (slug_isSlug name) as H.
      by rewrite Hempty in H. }
    rewrite Hslug. destruct (String.eqb name "") eqn:Hname; [done|].
    unfold slugifyPipelineName.
    set (core := dropTrailingUnderscores _).
    assert (Hcore : removeNonAlnum core = removeNonAlnum (toLowerCase name)).
    { unfold core, underscoreRuns.
      by rewrite dropTrailing_alnum, dropLeading_alnum, underscoreRuns_alnum. }
    destruct (String.eqb core "") eqn:Hempty.
    - apply String.eqb_eq in Hempty. rewrite Hempty in Hcore. by rewrite <- Hcore in Hnorm.
    - destruct (core_shape name) as [Hnone | Hslug'].
      + fold core in Hnone. by rewrite Hnone in Hempty.
      + fold core in Hslug'. apply isSlug_cases in Hslug' as (_ & _ & Htail).
        by rewrite toLowerCase_tidy by by apply slugTail_tidy. }
  split; [done|]. intros filePath other. unfold scoreYamlCandidate. by rewrite Heq.
Qed.

Lemma slug_matches_like_name_witness :
  normalizeForMatch (Some (slugifyPipelineName "Android Staging")) = "androidstaging"
  /\ scoreYamlCandidate "ci/android-staging.yml"
       (Some (slugifyPipelineName "Android Staging")) None
     = scoreYamlCandidate "ci/android-staging.yml" (Some "Android Staging") None.
Proof.
  assert (Hname : normalizeForMatch (Some "Android Staging") <> "") by done.
  destruct (slug_matches_like_name "Android Staging" Hname) as [Hnorm Hscore].
  split; [rewrite Hnorm; vm_compute; reflexivity | apply Hscore].
Defined.

(** *** The catalog *)

Lemma underscore_inside s t : In "_"%char (chars (s +:+ String "_" t)).
Proof.
  induction s as [|c r IH]; [by left|].
  rewrite StringFacts.app_cons. by right.
Qed.

Lemma suffixed_key_differs s t : s +:+ "_" +:+ t <> "constructor".
Proof.
  intros H. pose proof (underscore_inside s t) as Hin.
  change (s +:+ String "_" t) with (s +:+ "_" +:+ t) in Hin. rewrite H in Hin.
  cbn in Hin. repeat destruct Hin as [[=] | Hin]. done.
Qed.

Lemma keyFor_cases toString map pipeline :
  let slug := slugifyPipelineName (info_name pipeline) in
  keyFor toString map pipeline <> "constructor"
  /\ (keyFor toString map pipeline = slug
      \/ keyFor toString map pipeline = slug +:+ "_" +:+ toString (info_id pipeline)).
Proof.
  unfold keyFor, taken. cbn zeta.
  destruct (map !! slugifyPipelineName (info_name pipeline)).
  - split; [apply suffixed_key_differs | by right].
  - destruct (String.eqb _ "constructor") eqn:Hc.
    + split; [apply suffixed_key_differs | by right].
    + split; [by apply String.eqb_neq | by left].
Qed.

Lemma buildPipelineMap_loop_app toString before after map :
  buildPipelineMap_loop toString (before ++ after) map
  = buildPipelineMap_loop toString after (buildPipelineMap_loop toString before map).
Proof.
  revert map. induction before as [|p before IH]; intros map; [done|].
  cbn [app buildPipelineMap_loop]. apply IH.
Qed.

Lemma buildPipelineMap_loop_entries toString pipelines map k v :
  buildPipelineMap_loop toString pipelines map !! k = Some v ->
  map !! k = Some v
  \/ (k <> "constructor"
      /\ exists pipeline,
           In pipeline pipelines /\ v = catalogEntry pipeline
           /\ (k = slugifyPipelineName (info_name pipeline)
               \/ k = slugifyPipelineName (info_name pipeline)
                      +:+ "_" +:+ toString (info_id pipeline))).
Proof.
  revert map. induction pipelines as [|p rest IH]; intros map; [by left|].
  cbn [buildPipelineMap_loop]. intros Hk.
  destruct (IH _ Hk) as [Hmap | (Hc & q & Hin & Hv & Hkey)].
  - destruct (keyFor_cases toString map p) as [Hc Hkey].
    destruct (decide (keyFor toString map p = k)) as [Heq|Hne].
    + rewrite Heq, lookup_insert_eq in Hmap. injection Hmap as <-.
      right. rewrite <- Heq. split; [done|]. exists p. split; [by left|]. by split.
    + left. by rewrite lookup_insert_ne in Hmap.
  - right. split; [done|]. exists q. split; [by right | done].
Qed.

Lemma buildPipelineMap_loop_size toString pipelines map :
  (size (buildPipelineMap_loop toString pipelines map)
   <= size map + length pipelines)%nat.
Proof.
  revert map. induction pipelines as [|p rest IH]; intros map; cbn [buildPipelineMap_loop].
  - cbn. lia.
  - etrans; [apply IH|]. cbn [length].
    pose proof (map_size_insert (keyFor toString map p) (catalogEntry p) map) as Hsize.
    destruct (map !! keyFor toString map p); cbn beta iota in Hsize;
      unfold id in Hsize; lia.
Qed.

(** X16.  Whatever the service lists, every entry of the catalog that
    [init] builds is one of the listed pipelines, stored under the slug of
    its name or under that slug followed by an underscore and its id; no
    entry is ever stored under the key [constructor]; the pipeline listed
    last always has an entry; and the catalog has at most as many entries as
    pipelines were listed. *)
Theorem buildPipelineMap_entries (toString : JsNumber -> string) :
  (forall pipelines k v,
      buildPipelineMap toString pipelines !! k = Some v ->
      k <> "constructor"
      /\ exists pipeline,
           In pipeline pipelines /\ v = catalogEntry pipeline
           /\ (k = slugifyPipelineName (info_name pipeline)
               \/ k = slugifyPipelineName (info_name pipeline)
                      +:+ "_" +:+ toString (info_id pipeline)))
  /\ (forall pipelines pipeline,
         exists k,
           buildPipelineMap toString (pipelines ++ [pipeline]) !! k
           = Some (catalogEntry pipeline))
  /\ (forall pipelines,
         (size (buildPipelineMap toString pipelines) <= length pipelines)%nat).
Proof.
  split; [|split].
  - intros pipelines k v Hk.
    apply buildPipelineMap_loop_entries in Hk as [Hempty | H]; [|done].
    by rewrite lookup_empty in Hempty.
  - intros pipelines pipeline. unfold buildPipelineMap.
    rewrite buildPipelineMap_loop_app. cbn [buildPipelineMap_loop].
    eexists. apply lookup_insert_eq.
  - intros pipelines.
    pose proof (buildPipelineMap_loop_size toString pipelines ∅) as H.
    by rewrite map_size_empty in H.
Qed.

Lemma buildPipelineMap_loop_distinct toString pipelines map :
  NoDup ((fun p => slugifyPipelineName (info_name p)) <$> pipelines) ->
  (forall p, p ∈ pipelines -> taken map (slugifyPipelineName (info_name p)) = false) ->
  buildPipelineMap_loop toString pipelines map
  = list_to_map ((fun p => (slugifyPipelineName (info_name p), catalogEntry p))
                   <$> pipelines) ∪ map.
Proof.
  revert map. induction pipelines as [|p rest IH]; intros map Hdup Hfree.
  - cbn. by rewrite (left_id_L ∅ (∪)).
  - rewrite fmap_cons in Hdup. apply NoDup_cons in Hdup as [Hp Hrest].
    cbn [buildPipelineMap_loop]. rewrite fmap_cons, list_to_map_cons.
    assert (Hkey : keyFor toString map p = slugifyPipelineName (info_name p)).
    { unfold keyFor. rewrite (Hfree p); [done | by left]. }
    rewrite Hkey, IH; [|done|].
    + rewrite <- insert_union_l. apply symmetry, insert_union_r.
      apply not_elem_of_list_to_map_1. by rewrite <- list_fmap_compose.
    + intros q Hq. specialize (Hfree q (list_elem_of_further _ _ _ Hq)).
      unfold taken in *.
      rewrite lookup_insert_ne; [done|]. intros Heq. apply Hp.
      rewrite Heq. by apply (list_elem_of_fmap_2 (fun p => slugifyPipelineName (info_name p))).
Qed.

(** X17.  When the listed pipelines have pairwise different slugs, none of
    them [constructor], the catalog has one entry for each pipeline, stored
    under the slug of its name; no id is appended to any key. *)
Theorem buildPipelineMap_distinct
    (toString : JsNumber -> string) (pipelines : list PipelineInfo) :
  NoDup ((fun p => slugifyPipelineName (info_name p)) <$> pipelines) ->
  "constructor" ∉ (fun p => slugifyPipelineName (info_name p)) <$> pipelines ->
  buildPipelineMap toString pipelines
  = list_to_map ((fun p => (slugifyPipelineName (info_name p), catalogEntry p))
                   <$> pipelines)
  /\ size (buildPipelineMap toString pipelines) = length pipelines.
Proof.
  intros Hdup Hc.
  assert (Heq : buildPipelineMap toString pipelines
                = list_to_map ((fun p => (slugifyPipelineName (info_name p),
                                          catalogEntry p)) <$> pipelines)).
  { unfold buildPipelineMap. rewrite buildPipelineMap_loop_distinct; [|done|].
    - by rewrite (right_id_L ∅ (∪)).
    - intros p Hp. unfold taken. rewrite lookup_empty. apply String.eqb_neq.
      intros Heq. apply Hc. rewrite <- Heq.
      by apply (list_elem_of_fmap_2 (fun p => slugifyPipelineName (info_name p))). }
  split; [done|]. rewrite Heq, map_size_list_to_map.
  - by rewrite length_fmap.
  - by rewrite <- list_fmap_compose.
Qed.

Lemma buildPipelineMap_distinct_witness :
  buildPipelineMap digitsOf
    [ {| info_id := ofZ 12; info_name := "Android Staging" |};
      {| info_id := ofZ 13; info_name := "iOS (release)" |} ]
  = {[ "android_staging" := (ofZ 12, "Android Staging");
       "ios_release" := (ofZ 13, "iOS (release)") ]}.
Proof.
  pose proof (buildPipelineMap_distinct digitsOf
    [ {| info_id := ofZ 12; info_name := "Android Staging" |};
      {| info_id := ofZ 13; info_name := "iOS (release)" |} ]) as H.
  destruct H as [-> _].
  - vm_compute. apply NoDup_ListNoDup. repeat constructor; cbn; intuition discriminate.
  - vm_compute. intros Hin%list_elem_of_In. cbn in Hin. intuition discriminate.
  - by vm_compute.
Defined.

(** *** The poll interval *)

(** X18.  The poll interval that [build] and [init] use is always a
    positive number: whatever is given, never NaN, zero or negative.  On a
    text it is the number that [run] accepts for [--poll], and 7000 where
    [run] rejects the text. *)
Theorem parsePollMs_positive :
  (forall value,
      isNaN (parsePollMs value) = false /\ notPositive (parsePollMs value) = false)
  /\ (forall poll,
         parsePollMs (PollText poll)
         = if pollAccepted poll then Number poll else ofZ 7000).
Proof.
  split.
  - assert (Hcheck : forall n,
      isNaN (if isNaN n || notPositive n then ofZ 7000 else n) = false
      /\ notPositive (if isNaN n || notPositive n then ofZ 7000 else n) = false).
    { intros n. destruct (isNaN n || notPositive n) eqn:H; [done|].
      by apply orb_false_iff in H. }
    intros [|s|n]; cbn [parsePollMs]; [done| |apply Hcheck].
    destruct (String.eqb s ""); [done | apply Hcheck].
  - intros poll. cbn [parsePollMs]. unfold pollAccepted.
    destruct (String.eqb poll "") eqn:Hempty.
    + apply String.eqb_eq in Hempty as ->. by vm_compute.
    + by destruct (isNaN (Number poll) || notPositive (Number poll)).
Qed.

End InitProps.

(* --------------------------------------------------------------------- *)
(** ** The service client: branches and the stored definition *)

Module ClientProps.
Import Js Cli Client.

Lemma removePrefix_app p rest : removePrefix p (p +:+ rest) = Some rest.
Proof.
  induction p as [|a p IH]; [by destruct rest|].
  rewrite StringFacts.app_cons. cbn [removePrefix]. by rewrite Ascii.eqb_refl.
Qed.

Lemma removePrefix_Some p s rest : removePrefix p s = Some rest -> s = p +:+ rest.
Proof.
  revert s. induction p as [|a p IH]; intros s.
  - destruct s; cbn [removePrefix]; by intros [= <-].
  - destruct s as [|b s]; [done|]. cbn [removePrefix].
    destruct (Ascii.eqb a b) eqn:Hab; [|done].
    apply Ascii.eqb_eq in Hab as ->. intros ->%IH. by rewrite StringFacts.app_cons.
Qed.

Lemma prefix_removePrefix p s :
  String.prefix p s = true <-> exists rest, removePrefix p s = Some rest.
Proof.
  split.
  - revert s. induction p as [|a p IH]; intros s.
    + intros _. exists s. by destruct s.
    + destruct s as [|b s]; [done|]. cbn [String.prefix removePrefix].
      destruct (ascii_dec a b) as [->|Hne]; [|done].
      rewrite Ascii.eqb_refl. apply IH.
  - intros [rest ->%removePrefix_Some]. apply StringFacts.prefix_app.
Qed.

Lemma stripHeads_cases branch :
  (startsWith branch "refs/heads/" = true
   /\ branch = "refs/heads/" +:+ stripHeads branch)
  \/ (startsWith branch "refs/heads/" = false /\ stripHeads branch = branch).
Proof.
  unfold stripHeads, startsWith.
  destruct (removePrefix "refs/heads/" branch) as [rest|] eqn:Hrest.
  - left. split; [apply prefix_removePrefix; by exists rest|].
    by apply removePrefix_Some.
  - right. split; [|done]. destruct (String.prefix _ _) eqn:Hp; [|done].
    apply prefix_removePrefix in Hp as [rest Hp]. congruence.
Qed.

Lemma heads_is_ref rest : startsWith ("refs/heads/" +:+ rest) "refs/" = true.
Proof.
  change ("refs/heads/" +:+ rest) with ("refs/" +:+ ("heads/" +:+ rest)).
  apply StringFacts.prefix_app.
Qed.

Lemma not_own_suffix (p s : string) : p <> "" -> s <> p +:+ s.
Proof.
  intros Hp Heq. apply (f_equal len) in Heq. rewrite StringFacts.len_app in Heq.
  destruct p as [|a p]; [done|]. rewrite StringFacts.len_cons in Heq.
  pose proof (StringFacts.len_nonneg p). lia.
Qed.

Lemma normalizeBranch_Some branch name :
  normalizeBranch (Some branch) = Some name <-> branch <> "" /\ name = stripHeads branch.
Proof.
  unfold normalizeBranch, nonEmpty.
  destruct (String.eqb_spec branch "") as [->|Hne]; cbn [negb].
  - split; [done | by intros [? _]].
  - split; [by intros [= <-] | by intros [_ ->]].
Qed.

(** The version [getPipelineYaml] asks for when the branch it is given
    normalizes to [name]. *)
Lemma yamlRequest_version pipeline branch query path type name :
  yamlRequest pipeline branch = Fetch query path type ->
  normalizeBranch branch = Some name ->
  q_version query = if nonEmpty name then Some name else None.
Proof.
  unfold yamlRequest. intros Hrequest Hname.
  destruct (configuration pipeline) as [cfg|]; [|done].
  destruct (negb (bool_decide _)); [done|].
  destruct (cfg_repository cfg) as [repo|]; [|done].
  destruct (_ || _); [done|].
  injection Hrequest as <- _ _. cbn [q_version]. by rewrite Hname.
Qed.

(** X19.  The ref a run is asked for always begins with [refs/], and
    asking again changes nothing.  [normalizeBranch] gives no branch for the
    empty text only, and otherwise the input without its [refs/heads/]
    prefix; the ref of the run is [refs/heads/] followed by that branch
    exactly when the input begins with [refs/heads/] or does not begin with
    [refs/] at all.  So the file [getPipelineYaml] asks for is read from
    the branch the run is triggered on exactly when, besides, the input is
    neither empty nor [refs/heads/] itself: for the empty input the request
    is the one made without a branch, while the run is asked on
    [refs/heads/]; for a tag the two differ. *)
Theorem run_ref_and_definition_branch :
  (forall branch, startsWith (refName branch) "refs/" = true)
  /\ (forall branch, refName (refName branch) = refName branch)
  /\ (forall branch, normalizeBranch (Some branch) = None <-> branch = "")
  /\ (forall branch name,
        normalizeBranch (Some branch) = Some name ->
        (refName branch = "refs/heads/" +:+ name
         <-> startsWith branch "refs/heads/" = true \/ startsWith branch "refs/" = false))
  /\ (forall pipeline branch query path type,
        yamlRequest pipeline (Some branch) = Fetch query path type ->
        (exists name, normalizeBranch (Some branch) = Some name
                      /\ q_version query = Some name
                      /\ refName branch = "refs/heads/" +:+ name)
        <-> branch <> "" /\ branch <> "refs/heads/"
            /\ (startsWith branch "refs/heads/" = true \/ startsWith branch "refs/" = false))
  /\ (forall pipeline,
        yamlRequest pipeline (Some "") = yamlRequest pipeline None
        /\ refName "" = "refs/heads/")
  /\ (normalizeBranch (Some "refs/tags/v1") = Some "refs/tags/v1"
      /\ refName "refs/tags/v1" = "refs/tags/v1"
      /\ normalizeBranch (Some "refs/heads/main") = Some "main"
      /\ refName "main" = "refs/heads/main").
Proof.
  assert (Href : forall branch, startsWith (refName branch) "refs/" = true).
  { intros branch. unfold refName.
    destruct (startsWith branch "refs/") eqn:H; [done | apply heads_is_ref]. }
  assert (Hsame : forall branch,
             refName branch = "refs/heads/" +:+ stripHeads branch
             <-> startsWith branch "refs/heads/" = true \/ startsWith branch "refs/" = false).
  { intros branch. unfold refName.
    destruct (stripHeads_cases branch) as [[Hheads Heq] | [Hheads ->]].
    + assert (Hrefs : startsWith branch "refs/" = true).
      { rewrite Heq. apply heads_is_ref. }
      rewrite Hrefs. split; [by left | done].
    + destruct (startsWith branch "refs/") eqn:Hrefs.
      * split; [|by intros [?|?]; congruence].
        intros Heq. by apply not_own_suffix in Heq.
      * split; [by right | done]. }
  split; [done|]. split.
  { intros branch. unfold refName at 1. by rewrite Href. }
  split.
  { intros branch. unfold normalizeBranch, nonEmpty.
    by destruct (String.eqb_spec branch "") as [->|Hne]. }
  split.
  { intros branch name [_ ->]%normalizeBranch_Some. apply Hsame. }
  split.
  { intros pipeline branch query path type Hrequest. split.
    - intros (name & Hname & Hversion & Hrun).
      pose proof (yamlRequest_version _ _ _ _ _ _ Hrequest Hname) as Hv.
      rewrite Hversion in Hv. unfold nonEmpty in Hv.
      destruct (String.eqb_spec name "") as [->|Hne]; [done|].
      apply normalizeBranch_Some in Hname as [Hbranch ->].
      split; [done|]. split; [by intros ->|]. by apply Hsame.
    - intros (Hbranch & Hheads & Hcases).
      exists (stripHeads branch).
      assert (Hname : normalizeBranch (Some branch) = Some (stripHeads branch))
        by by apply normalizeBranch_Some.
      split; [done|]. split; [|by apply Hsame].
      rewrite (yamlRequest_version _ _ _ _ _ _ Hrequest Hname). unfold nonEmpty.
      destruct (String.eqb_spec (stripHeads branch) "") as [Hempty|Hne]; [|done].
      exfalso. destruct (stripHeads_cases branch) as [[_ Heq] | [_ Heq]].
      + rewrite Hempty in Heq. by apply Hheads.
      + rewrite Hempty in Heq. by apply Hbranch. }
  split; [done|]. by vm_compute.
Qed.
(** What [getPipelineYaml] asks the repository for. *)
Lemma yamlRequest_fetch pipeline branch query path type :
  yamlRequest pipeline branch = Fetch query path type ->
  type = "azureReposGit" /\ path <> "" /\ q_path query = path
  /\ q_repository query <> "" /\ q_version query <> Some ""
  /\ exists cfg, configuration pipeline = Some cfg /\ cfg_path cfg = Some path
                 /\ cfg_type cfg = Some "yaml".
Proof.
  unfold yamlRequest. destruct (configuration pipeline) as [cfg|]; [|done].
  destruct (bool_decide (cfg_type cfg = Some "yaml")) eqn:Hyaml; [|done].
  apply bool_decide_eq_true in Hyaml. cbn [negb].
  destruct (cfg_repository cfg) as [repo|]; [|done].
  destruct (present (repo_id repo)) eqn:Hid; [|done].
  destruct (bool_decide (repo_type repo = Some "azureReposGit")); [|done].
  destruct (present (cfg_path cfg)) eqn:Hpath; [|done]. cbn [negb orb].
  intros [= Hq Hp' Ht]. subst query path type. cbn [q_path q_repository q_version].
  unfold present, nonEmpty in Hid, Hpath.
  destruct (cfg_path cfg) as [p|] eqn:Hp; [|done].
  destruct (repo_id repo) as [i|]; [|done].
  apply negb_true_iff, String.eqb_neq in Hid, Hpath. cbn.
  split; [done|]. split; [done|]. split; [done|]. split; [done|]. split.
  - destruct (present (orElse _ _)) eqn:Hb; [|done].
    intros Hempty. by rewrite Hempty in Hb.
  - exists cfg. split; [done|]. split; [done | exact Hyaml].
Qed.

Lemma yamlRequest_answer pipeline branch info :
  yamlRequest pipeline branch = Answer info -> content info = None.
Proof.
  unfold yamlRequest. destruct (configuration pipeline) as [cfg|]; [|by intros [= <-]].
  destruct (negb _); [by intros [= <-]|].
  destruct (cfg_repository cfg) as [repo|]; [|by intros [= <-]].
  destruct (_ || _); [by intros [= <-] | done].
Qed.

(** X20.  The client returns a definition text only for a pipeline of type
    [yaml] whose repository is an Azure Repos Git repository with an id and
    whose configuration has a path: the returned information then names
    that repository type and that path.  The file it asks for never has an
    empty repository, path or version; in every other case it asks for no
    file and returns no text.  It fails exactly when one of its two
    requests fails, with the error of that request. *)
Theorem definition_text_needs_git_and_path
    (definition : Attempt PipelineDefinition)
    (items : ItemsQuery -> Attempt (option string)) (branch : option string) :
  match getPipelineYaml definition items branch with
  | Returns info =>
      exists pipeline,
        definition = Returns pipeline
        /\ match yamlRequest pipeline branch with
           | Answer answer => info = answer /\ content info = None
           | Fetch query path type =>
               items query = Returns (content info)
               /\ repositoryType info = Some "azureReposGit"
               /\ yaml_path info = Some path /\ path <> ""
               /\ q_path query = path /\ q_repository query <> ""
               /\ q_version query <> Some ""
               /\ exists cfg, configuration pipeline = Some cfg
                              /\ cfg_path cfg = Some path
                              /\ cfg_type cfg = Some "yaml"
           end
  | Throws e =>
      definition = Throws e
      \/ exists pipeline query path type,
           definition = Returns pipeline
           /\ yamlRequest pipeline branch = Fetch query path type
           /\ items query = Throws e
  end.
Proof.
  unfold getPipelineYaml. destruct definition as [pipeline|e]; [|by left].
  destruct (yamlRequest pipeline branch) as [answer|query path type] eqn:Hreq.
  - exists pipeline. split; [done|]. rewrite Hreq. split; [done|].
    by eapply yamlRequest_answer.
  - destruct (items query) as [text|e] eqn:Hitems.
    + exists pipeline. split; [done|]. rewrite Hreq.
      apply yamlRequest_fetch in Hreq as (-> & ? & ? & ? & ? & ?). by cbn.
    + right. by exists pipeline, query, path, type.
Qed.


(** X22.  The file the catalog names comes first: when it can be read and
    is not empty, its text is the definition, labelled with its path, and
    neither the service nor the project tree is consulted and nothing is
    asked. *)
Theorem catalog_file_comes_first
    (w : World) (options : BuildOptions) (selection : PipelineSelection)
    (branch path text : string) (st : State) :
  sel_path selection = Some path ->
  path <> "" ->
  readFile w path = Returns text ->
  text <> "" ->
  findDefinition w options selection branch st
  = (Done {| yamlContent := Some text; yamlLabel := Some path;
             repoType := None; yamlError := None |}, st).
Proof.
  intros Hpath Hne Hread Htext.
  apply String.eqb_neq in Hne, Htext.
  unfold findDefinition, searchLocalPath, bind. rewrite Hpath. unfold nonEmpty.
  rewrite Hne. cbn [negb]. unfold readLocalYaml, tryCatch, bind, call, lift, attempted, ret.
  rewrite Hread. cbn [present]. unfold nonEmpty. rewrite Htext. cbn [negb].
  unfold searchRemote, searchLocator, found. cbn [yamlContent present default from_option id].
  unfold nonEmpty. rewrite Htext. cbn [negb]. unfold ret at 1.
  cbn [yamlContent present]. unfold nonEmpty. by rewrite Htext.
Qed.

Lemma catalog_file_comes_first_witness :
  findDefinition brokenYamlWorld (sampleOptions true)
    (sampleSelection (Some "azure-pipelines.yml")) "develop" initial
  = (Done {| yamlContent := Some "parameters: ["; yamlLabel := Some "azure-pipelines.yml";
             repoType := None; yamlError := None |}, initial).
Proof.
  apply (catalog_file_comes_first brokenYamlWorld (sampleOptions true)
           (sampleSelection (Some "azure-pipelines.yml")) "develop"
           "azure-pipelines.yml" "parameters: [" initial); done.
Defined.

End ClientProps.

(* --------------------------------------------------------------------- *)
(** ** The environment *)

Module ConfigProps.
Import Js Cli Config.

Lemma len_positive s : (0 <? len s) = negb (len s =? 0).
Proof. pose proof (StringFacts.len_nonneg s). lia. Qed.

Lemma len_zero s : (len s =? 0) = true <-> s = "".
Proof.
  rewrite Z.eqb_eq. destruct s as [|c r]; [done|].
  rewrite StringFacts.len_cons. pose proof (StringFacts.len_nonneg r).
  split; [lia | done].
Qed.

Lemma filled_Some (env : gmap string string) (name : string) :
  filled (env !! name) = true ->
  exists value, env !! name = Some value /\ value <> "" /\ trim value <> "".
Proof.
  unfold filled, nonEmpty. destruct (env !! name) as [value|]; [|done].
  rewrite len_positive. intros [Hv Ht]%andb_true_iff. exists value.
  split; [done|]. split.
  - by apply negb_true_iff, String.eqb_neq in Hv.
  - intros Hblank. apply len_zero in Hblank. by rewrite Hblank in Ht.
Qed.

Lemma requireEnv_filled (env : gmap string string) (name : string) :
  requireEnv env name
  = if filled (env !! name) then (Returns (default "" (env !! name)), [])
    else missingEnv name.
Proof.
  unfold requireEnv, filled. destruct (env !! name) as [value|]; [|done].
  rewrite len_positive. by destruct (nonEmpty value), (len (trim value) =? 0).
Qed.

Lemma optionalEnv_present (env : gmap string string) (name : string) :
  present (optionalEnv env name) = filled (env !! name).
Proof.
  unfold optionalEnv. destruct (filled (env !! name)) eqn:Hfilled; [|done].
  apply filled_Some in Hfilled as (value & -> & Hv & _). cbn. unfold nonEmpty.
  by apply String.eqb_neq in Hv as ->.
Qed.

Lemma optionalEnv_Some (env : gmap string string) (name value : string) :
  optionalEnv env name = Some value ->
  env !! name = Some value /\ trim value <> "".
Proof.
  unfold optionalEnv. destruct (filled (env !! name)) eqn:Hfilled; [|done].
  apply filled_Some in Hfilled as (v & Hv & _ & Ht). rewrite Hv. by intros [= <-].
Qed.

Lemma defaultBranchOf_nonempty env : defaultBranchOf env <> "".
Proof.
  unfold defaultBranchOf, nonEmpty. destruct (env !! "AZDO_DEFAULT_BRANCH") as [v|]; [|done].
  destruct (String.eqb (trim v) "") eqn:Ht; [done|]. by apply String.eqb_neq.
Qed.

Lemma missing_not_reported {A : Type} name (st : State) :
  reported (@Throw A ("Missing env " +:+ name), st) = notices st.
Proof.
  unfold reported, startsWith. by rewrite StringFacts.prefix_app.
Qed.

(** X23.  Reading the environment fails exactly when one of the variables
    it insists on (the token; for [init] and [run] also the organisation
    URL and the project) is unset, empty or blank.  The error then names
    the first such variable, in that order, one error line naming it is
    logged first, and the commands report nothing more for it (the exit
    code being 1).  When it returns, nothing is logged, the values are
    those of the environment, unchanged and not blank, and the default
    branch is never empty. *)
Theorem environment_errors_name_first_missing
    (requireOrgProject : bool) (env : gmap string string) :
  match getAzdoEnv requireOrgProject env with
  | (Returns e, lines) =>
      lines = [] /\ firstMissing requireOrgProject env = None
      /\ env !! "AZDO_PAT" = Some (env_pat e) /\ trim (env_pat e) <> ""
      /\ env_defaultBranch e <> ""
      /\ (forall v, env_orgUrl e = Some v ->
                    env !! "AZDO_ORG_URL" = Some v /\ trim v <> "")
      /\ (forall v, env_project e = Some v ->
                    env !! "AZDO_PROJECT" = Some v /\ trim v <> "")
      /\ (requireOrgProject = true ->
          is_Some (env_orgUrl e) /\ is_Some (env_project e))
  | (Throws message, lines) =>
      exists name,
        firstMissing requireOrgProject env = Some name
        /\ message = "Missing env " +:+ name
        /\ head lines = Some (ErrorLine ("Missing required env: " +:+ name))
        /\ forall st : State,
             reported (@Throw unit message, st) = notices st
             /\ exitCode (@Throw unit message, st) = 1
  end.
Proof.
  unfold getAzdoEnv, firstMissing. rewrite requireEnv_filled.
  destruct (filled (env !! "AZDO_PAT")) eqn:Hpat.
  - pose proof (optionalEnv_present env "AZDO_ORG_URL") as Horg.
    pose proof (optionalEnv_present env "AZDO_PROJECT") as Hproject.
    assert (Hreturns :
      (requireOrgProject = true ->
       filled (env !! "AZDO_ORG_URL") = true /\ filled (env !! "AZDO_PROJECT") = true) ->
      let e := {| env_orgUrl := optionalEnv env "AZDO_ORG_URL";
                  env_project := optionalEnv env "AZDO_PROJECT";
                  env_pat := default "" (env !! "AZDO_PAT");
                  env_defaultBranch := defaultBranchOf env |} in
      @nil Line = [] /\ List.find (fun name => negb (filled (env !! name)))
                          (required requireOrgProject) = None
      /\ env !! "AZDO_PAT" = Some (env_pat e) /\ trim (env_pat e) <> ""
      /\ env_defaultBranch e <> ""
      /\ (forall v, env_orgUrl e = Some v ->
                    env !! "AZDO_ORG_URL" = Some v /\ trim v <> "")
      /\ (forall v, env_project e = Some v ->
                    env !! "AZDO_PROJECT" = Some v /\ trim v <> "")
      /\ (requireOrgProject = true ->
          is_Some (env_orgUrl e) /\ is_Some (env_project e))).
    { intros Hrequired e. split; [done|]. split.
      - unfold required. destruct requireOrgProject; cbn [List.find]; rewrite Hpat; [|done].
        by destruct (Hrequired eq_refl) as [-> ->].
      - destruct (filled_Some _ _ Hpat) as (pat & Hv & _ & Ht). subst e. cbn.
        rewrite Hv. cbn. split; [done|]. split; [done|].
        split; [apply defaultBranchOf_nonempty|].
        split; [apply optionalEnv_Some|]. split; [apply optionalEnv_Some|].
        intros Hreq. destruct (Hrequired Hreq) as [Ho Hp].
        unfold optionalEnv. rewrite Ho, Hp.
        apply filled_Some in Ho as (? & -> & _). apply filled_Some in Hp as (? & -> & _).
        by split; eexists. }
    destruct requireOrgProject; cbn [andb]; [|by apply Hreturns].
    rewrite Horg, Hproject.
    destruct (filled (env !! "AZDO_ORG_URL")) eqn:Ho; cbn [negb].
    + destruct (filled (env !! "AZDO_PROJECT")) eqn:Hp; cbn [negb].
      * by apply Hreturns.
      * exists "AZDO_PROJECT". cbn [required List.find]. rewrite Hpat, Ho, Hp.
        split; [done|]. split; [done|]. split; [done|]. intros st.
        split; [apply (missing_not_reported "AZDO_PROJECT") | done].
    + exists "AZDO_ORG_URL". cbn [required List.find]. rewrite Hpat, Ho.
      split; [done|]. split; [done|]. split; [done|]. intros st.
      split; [apply (missing_not_reported "AZDO_ORG_URL") | done].
  - exists "AZDO_PAT". split.
    + unfold required. destruct requireOrgProject; cbn [List.find]; by rewrite Hpat.
    + split; [done|]. split; [done|]. intros st.
      split; [apply (missing_not_reported "AZDO_PAT") | done].
Qed.

End ConfigProps.

(* --------------------------------------------------------------------- *)
(** ** The [run] action *)

Module RunProps.
Import Js Cli Init Commands.

Lemma failed_code triggered waitedWith message :
  code (failed triggered waitedWith message) = 1.
Proof. done. Qed.

Lemma completedWith_code triggered waitedWith completed :
  code (completedWith triggered waitedWith completed) = 0
  <-> Azdo.result completed = Some "succeeded".
Proof.
  unfold completedWith. destruct (bool_decide _) eqn:H; cbn.
  - by apply bool_decide_eq_true in H.
  - by apply bool_decide_eq_false in H.
Qed.

(** X24.  The [run] action ends with exit code 0 exactly when the
    environment is complete, [--pipeline] converts to a number, the trigger
    request succeeds and, unless [--no-wait] is given, [--poll] is a
    positive number and the wait returns a run whose result is
    [succeeded]; in every other case the exit code is 1. *)
Theorem run_exit_code
    (config : Attempt Config.AzdoConfig)
    (trigger : TriggerRunInput -> Attempt Azdo.RunInfo)
    (wait : JsNumber -> Z -> Attempt Azdo.RunInfo) (options : RunOptions) :
  let ended := runAction config trigger wait options in
  (code ended = 0 \/ code ended = 1)
  /\ (code ended = 0
      <-> exists c run,
            config = Returns c
            /\ isNaN (Number (run_pipeline options)) = false
            /\ trigger (runInput c options) = Returns run
            /\ (run_wait options = false
                \/ pollAccepted (run_poll options) = true
                   /\ exists completed,
                        wait (Number (run_poll options)) (Azdo.run_id run)
                        = Returns completed
                        /\ Azdo.result completed = Some "succeeded")).
Proof.
  cbv zeta. unfold runAction, pollAccepted.
  destruct config as [c|e]; [|split; [by right | split; [done | by intros (? & ? & [=] & _)]]].
  destruct (isNaN (Number (run_pipeline options))) eqn:Hid;
    [split; [by right | split; [done | by intros (? & ? & _ & [=] & _)]]|].
  destruct (trigger (runInput c options)) as [run|e] eqn:Htrigger;
    [|split; [by right|]; split; [done|];
      intros (c' & run & [= <-] & _ & Hrun & _); congruence].
  destruct (run_wait options) eqn:Hwait.
  - destruct (isNaN (Number (run_poll options)) || notPositive (Number (run_poll options)))
      eqn:Hpoll; cbn [negb].
    + split; [by right|]. split; [done|].
      intros (c' & run' & _ & _ & _ & [[=] | [[=] _]]).
    + destruct (wait (Number (run_poll options)) (Azdo.run_id run))
        as [completed|e] eqn:Hwaited.
      * split.
        -- unfold completedWith. destruct (bool_decide _); [by left | by right].
        -- rewrite completedWith_code. split.
           ++ intros Hresult. exists c, run. split; [done|]. split; [done|].
              split; [done|]. right. split; [done|]. by exists completed.
           ++ intros (c' & run' & [= <-] & _ & Hrun & [[=] | [_ (final & Hfinal & ?)]]).
              congruence.
      * split; [by right|]. split; [done|].
        intros (c' & run' & [= <-] & _ & Hrun & [[=] | [_ (final & Hfinal & ?)]]).
        congruence.
  - split; [by left|]. split; [|done]. intros _. exists c, run.
    split; [done|]. split; [done|]. split; [done | by left].
Qed.

(** X25.  The [run] action looks at [--poll] only after the run is
    started: with a [--poll] that is not a positive number (and without
    [--no-wait]) it has already sent the trigger request when it fails, with
    exit code 1, the message about [--poll], and no wait. *)
Theorem run_checks_poll_after_trigger
    (config : Config.AzdoConfig)
    (trigger : TriggerRunInput -> Attempt Azdo.RunInfo)
    (wait : JsNumber -> Z -> Attempt Azdo.RunInfo) (options : RunOptions)
    (run : Azdo.RunInfo) :
  isNaN (Number (run_pipeline options)) = false ->
  trigger (runInput config options) = Returns run ->
  run_wait options = true ->
  pollAccepted (run_poll options) = false ->
  runAction (Returns config) trigger wait options
  = {| triggered := Some (runInput config options); waitedWith := None;
       errors := ["--poll must be a positive number"]; code := 1 |}.
Proof.
  intros Hid Htrigger Hwait Hpoll. unfold runAction, pollAccepted in *.
  rewrite Hid, Htrigger, Hwait. apply negb_false_iff in Hpoll. by rewrite Hpoll.
Qed.

Lemma run_checks_poll_after_trigger_witness :
  runAction (Returns sampleConfig) (fun _ => Returns (sampleRun None))
    (fun _ _ => Returns (sampleRun (Some "succeeded"))) (sampleRunOptions "" "0")
  = {| triggered :=
         Some {| pipelineId := ofZ 0; branch := "develop";
                 parameters := {[ "env" := VStr "qa" ]} |};
       waitedWith := None;
       errors := ["--poll must be a positive number"]; code := 1 |}.
Proof.
  rewrite (run_checks_poll_after_trigger sampleConfig (fun _ => Returns (sampleRun None))
             (fun _ _ => Returns (sampleRun (Some "succeeded")))
             (sampleRunOptions "" "0") (sampleRun None)); by vm_compute.
Defined.

End RunProps.

(* --------------------------------------------------------------------- *)
(** ** The [.env] file *)

Module EnvFileProps.
Import Js EnvFile.

(** *** A blank line has no equals sign *)

Lemma ws_prefix_plain s r :
  ws_prefix s = Some r ->
  exists w, s = w +:+ r /\ ~ In "="%char (chars w).
Proof.
  assert (Hchar : forall c, code c <> 61 -> c <> "="%char) by (by intros c Hc ->).
  unfold ws_prefix. destruct s as [|c1 r1]; [done|].
  destruct (is_ascii_ws c1) eqn:H1.
  { intros [= <-]. exists (String c1 ""). split; [done|]. cbn. intros [Heq|[]].
    revert Heq. apply Hchar.
    unfold is_ascii_ws in H1. lia. }
  destruct r1 as [|c2 r2]; [done|].
  destruct ((code c1 =? 194) && (code c2 =? 160)) eqn:H2.
  { intros [= <-]. exists (String c1 (String c2 "")). split; [done|].
    cbn. intros [Heq|[Heq|[]]]; revert Heq; apply Hchar; lia. }
  destruct r2 as [|c3 r3]; [done|].
  match goal with |- (if ?b then _ else _) = _ -> _ => destruct b eqn:H3 end; [|done].
  intros [= <-]. exists (String c1 (String c2 (String c3 ""))). split; [done|].
  cbn. intros [Heq|[Heq|[Heq|[]]]]; revert Heq; apply Hchar; lia.
Qed.

Lemma In_chars_app c a b : In c (chars (a +:+ b)) <-> In c (chars a) \/ In c (chars b).
Proof.
  induction a as [|x a IH]; [cbn; tauto|].
  rewrite StringFacts.app_cons. cbn. fold (chars (a +:+ b)) (chars a). tauto.
Qed.

Lemma trimStart_fuel_split n s :
  exists w, s = w +:+ trimStart_fuel n s /\ ~ In "="%char (chars w).
Proof.
  revert s. induction n as [|n IH]; intros s; [exists ""; split; [done | by intros []]|].
  cbn [trimStart_fuel]. destruct (ws_prefix s) as [r|] eqn:Hws;
    [|exists ""; split; [done | by intros []]].
  apply ws_prefix_plain in Hws as (w & -> & Hw).
  destruct (IH r) as (w' & Hr & Hw'). exists (w +:+ w'). split.
  - by rewrite StringFacts.app_assoc', <- Hr.
  - rewrite In_chars_app. tauto.
Qed.

Lemma trimEnd_empty s : trimEnd s = "" -> trimStart s = "".
Proof.
  destruct s as [|c r]; [done|]. cbn [trimEnd]. unfold all_ws.
  by destruct (trimStart (String c r)).
Qed.

Lemma blank_plain s : trim s = "" -> ~ In "="%char (chars s).
Proof.
  unfold trim. intros Hend%trimEnd_empty.
  destruct (trimStart_fuel_split (String.length s) s) as (w & Hs & Hw).
  fold (trimStart s) in Hs.
  destruct (trimStart_fuel_split (String.length (trimStart s)) (trimStart s))
    as (w' & Hs' & Hw').
  fold (trimStart (trimStart s)) in Hs'. rewrite Hend, StringFacts.app_empty_r in Hs'.
  rewrite Hs, Hs', In_chars_app. tauto.
Qed.

Lemma prefix_split p s : String.prefix p s = true -> exists rest, s = p +:+ rest.
Proof.
  revert s. induction p as [|a p IH]; intros s; [by exists s|].
  destruct s as [|b s]; [done|]. cbn [String.prefix].
  destruct (ascii_dec a b) as [->|]; [|done].
  intros [rest ->]%IH. exists rest. by rewrite StringFacts.app_cons.
Qed.

Lemma key_line_not_blank key l : isKeyLine key l = true -> trim l <> "".
Proof.
  unfold isKeyLine, startsWith. intros [rest ->]%prefix_split Hblank%blank_plain.
  apply Hblank. rewrite !In_chars_app. left. right. by left.
Qed.

Lemma written_line_is_key_line key value : isKeyLine key (key +:+ "=" +:+ value) = true.
Proof.
  unfold isKeyLine, startsWith. rewrite <- StringFacts.app_assoc'.
  apply StringFacts.prefix_app.
Qed.

(** *** The lines written *)

Lemma dropFinalBlank_cases out :
  dropFinalBlank out = out
  \/ exists final, out = (dropFinalBlank out ++ [final])%list /\ trim final = "".
Proof.
  induction out as [|l [|l' rest] IH]; [by left| |].
  - cbn [dropFinalBlank]. destruct (String.eqb (trim l) "") eqn:Hl; [|by left].
    right. exists l. split; [done | by apply String.eqb_eq].
  - change (dropFinalBlank (l :: l' :: rest)) with (l :: dropFinalBlank (l' :: rest)).
    destruct IH as [-> | (final & Heq & Hblank)]; [by left|].
    right. exists final. split; [|done]. cbn [app]. by rewrite <- Heq.
Qed.

Lemma replaced_lines key line lines :
  isKeyLine key line = true ->
  let out := List.map (fun l => if isKeyLine key l then line else l) lines in
  (forall l, In l out -> isKeyLine key l = true -> l = line)
  /\ (existsb (isKeyLine key) lines = true -> In line out)
  /\ List.filter (fun l => negb (isKeyLine key l)) out
     = List.filter (fun l => negb (isKeyLine key l)) lines.
Proof.
  intros Hline. induction lines as [|l lines (IHkey & IHin & IHrest)]; [done|].
  cbn [List.map existsb List.filter]. destruct (isKeyLine key l) eqn:Hl; cbn [orb negb].
  - rewrite Hline. cbn [negb]. split; [|split; [by left | done]].
    intros l' [<- | Hin] Hkey; [done | by apply IHkey].
  - rewrite Hl. cbn [negb]. split; [|split; [by right; apply IHin | by rewrite IHrest]].
    intros l' [<- | Hin] Hkey; [congruence | by apply IHkey].
Qed.

(** The lines written for a file that has the lines [lines]. *)
Lemma upsertLines_spec (key value : string) (lines : list string) :
  let line := key +:+ "=" +:+ value in
  let out := upsertLines key value lines in
  In line out
  /\ (forall l, In l out -> isKeyLine key l = true -> l = line)
  /\ (exists dropped,
        List.filter (fun l => negb (isKeyLine key l)) lines
        = (List.filter (fun l => negb (isKeyLine key l)) out ++ dropped)%list
        /\ (dropped = [] \/ exists final, dropped = [final] /\ trim final = ""))
  /\ (length out <= S (length lines))%nat.
Proof.
  intros line out. pose proof (written_line_is_key_line key value) as Hline.
  fold line in Hline.
  destruct (replaced_lines key line lines Hline) as (Hkey & Hin & Hrest).
  set (mapped := List.map (fun l => if isKeyLine key l then line else l) lines) in *.
  set (before := if existsb (isKeyLine key) lines then mapped else (mapped ++ [line])%list).
  assert (Hout : out = dropFinalBlank before) by done.
  assert (Hbefore : In line before
                    /\ (forall l, In l before -> isKeyLine key l = true -> l = line)
                    /\ List.filter (fun l => negb (isKeyLine key l)) before
                       = List.filter (fun l => negb (isKeyLine key l)) lines
                    /\ (length before <= S (length lines))%nat).
  { unfold before. destruct (existsb (isKeyLine key) lines).
    - split; [by apply Hin|]. split; [done|]. split; [done|].
      unfold mapped. rewrite length_map. lia.
    - split; [apply in_or_app; right; by left|]. split.
      + intros l [Hl | [<- | []]]%in_app_or Hk; [by apply Hkey | done].
      + split.
        * rewrite List.filter_app. cbn [List.filter]. rewrite Hline. cbn [negb].
          by rewrite app_nil_r.
        * rewrite length_app. unfold mapped. rewrite length_map. cbn. lia. }
  destruct Hbefore as (Hhas & Hall & Hothers & Hlen). rewrite Hout.
  destruct (dropFinalBlank_cases before) as [-> | (final & Heq & Hblank)].
  - split; [done|]. split; [done|]. split; [|done].
    exists []. split; [by rewrite app_nil_r, Hothers | by left].
  - assert (Hfinal : isKeyLine key final = false).
    { destruct (isKeyLine key final) eqn:Hk; [|done].
      by apply key_line_not_blank in Hk. }
    split; [|split; [|split]].
    + rewrite Heq in Hhas. apply in_app_or in Hhas as [? | [Hsame | []]]; [done|].
      rewrite Hsame in Hfinal. congruence.
    + intros l Hl. apply Hall. rewrite Heq. apply in_or_app. by left.
    + exists [final]. split; [|right; by exists final].
      rewrite <- Hothers. rewrite Heq at 1. rewrite List.filter_app. cbn [List.filter].
      by rewrite Hfinal.
    + rewrite Heq, length_app in Hlen. cbn in Hlen. lia.
Qed.

(** X26.  Whatever the [.env] file holds, and also when there is none, the
    content written is a sequence of lines, each ended by a line feed, that
    contains the line [key=value]; every written line that begins with
    [key=] is that line (each earlier setting of the key is replaced); the
    lines of the file that do not begin with [key=] are written back
    unchanged and in order, except that a blank last line is dropped; and
    at most one line is added. *)
Theorem upsert_sets_the_key (existing : option string) (key value : string) :
  let line := key +:+ "=" +:+ value in
  exists out,
    upsertEnvVar existing key value = joinLines out +:+ newline
    /\ In line out
    /\ (forall l, In l out -> isKeyLine key l = true -> l = line)
    /\ (existing = None -> out = [line])
    /\ (forall content,
          existing = Some content ->
          (exists dropped,
             List.filter (fun l => negb (isKeyLine key l)) (splitLines content)
             = (List.filter (fun l => negb (isKeyLine key l)) out ++ dropped)%list
             /\ (dropped = [] \/ exists final, dropped = [final] /\ trim final = ""))
          /\ (length out <= S (length (splitLines content)))%nat).
Proof.
  intros line. destruct existing as [content|].
  - exists (upsertLines key value (splitLines content)).
    destruct (upsertLines_spec key value (splitLines content))
      as (Hin & Hkey & Hothers & Hlen).
    split; [done|]. split; [done|]. split; [done|]. split; [done|].
    by intros ? [= <-].
  - exists [line]. split; [done|]. split; [by left|]. split.
    + by intros l [<- | []].
    + split; [done | by intros ? [=]].
Qed.

End EnvFileProps.

(* --------------------------------------------------------------------- *)
(** ** Parameters declared as a mapping *)

Module SpecMore.
Import Js Cli.

Lemma defaults_of_mapping (props : list (string * JsValue)) (o : Plain) :
  NoDup props.*1 ->
  Forall (fun kv => isUndefined kv.2 = false) props ->
  own o !! "__proto__" = None ->
  proto o = StandardProto \/ "__proto__" ∉ props.*1 ->
  own (defaultsFromSpecs_loop
         (List.map (fun '(name, value) =>
                      {| spec_name := name; spec_type := inferParamType value;
                         spec_default := value; spec_values := None |}) props) o)
  = delete "__proto__" (list_to_map props) ∪ own o.
Proof.
  revert o. induction props as [|[k v] props IH]; intros o Hdup Hdef Hown Hproto.
  - cbn. by rewrite delete_empty, (left_id_L ∅ (∪)).
  - rewrite fmap_cons in Hdup. apply NoDup_cons in Hdup as [Hk Hdup].
    apply Forall_cons in Hdef as [Hv Hdef]. cbn [snd fst] in Hv, Hk.
    cbn [List.map defaultsFromSpecs_loop spec_default spec_name]. rewrite Hv. cbn [negb].
    rewrite list_to_map_cons. destruct (decide (k = "__proto__")) as [->|Hne].
    + assert (Hstandard : proto o = StandardProto).
      { destruct Hproto as [?|Hnot]; [done|]. destruct Hnot. rewrite fmap_cons. by left. }
      rewrite delete_insert_eq.
      assert (Hsame : own (assignProp o "__proto__" v) = own o).
      { unfold assignProp. cbn [String.eqb Ascii.eqb Bool.eqb]. rewrite Hown, Hstandard.
        cbn [shadowsAccessor]. by destruct v. }
      rewrite IH; [by rewrite Hsame | done | done | by rewrite Hsame | by right].
    + rewrite ObjectFacts.assign_other by done.
      rewrite IH; [|done|done| |].
      * cbn [own]. rewrite delete_insert_ne by done. rewrite <- insert_union_l.
        apply symmetry, insert_union_r. apply lookup_delete_None. right.
        by apply not_elem_of_list_to_map_1.
      * cbn [own]. by rewrite lookup_insert_ne.
      * cbn [proto]. destruct Hproto as [?|Hnot]; [by left | right].
        intros Hin. apply Hnot. rewrite fmap_cons. by right.
Qed.

(** X27.  For parameters declared as a mapping, the defaults are the
    mapping itself, but for one name: the extractor yields one spec for
    each entry, in order, typed by its value, and with [--no-prompt] the
    parameters taken from the specs are exactly the entries of the mapping
    (a null value included) other than an entry named [__proto__], which
    is lost. *)
Theorem mapping_defaults_are_the_mapping
    (w : World) (yamlText : string) (doc : JsValue) (props : list (string * JsValue)) :
  YAML_parse w yamlText = Returns doc ->
  getProp doc "parameters" = VObj props ->
  NoDup props.*1 ->
  Forall (fun kv => isUndefined kv.2 = false) props ->
  exists specs,
    extractParamsFromYaml w yamlText = Returns specs
    /\ spec_name <$> specs = props.*1
    /\ spec_default <$> specs = props.*2
    /\ Forall (fun spec => spec_type spec = inferParamType (spec_default spec)
                           /\ spec_values spec = None) specs
    /\ defaultsFromSpecs specs = delete "__proto__" (list_to_map props).
Proof.
  intros Hparse Hparams Hdup Hdef. unfold extractParamsFromYaml.
  rewrite Hparse, Hparams. cbn [truthy negb]. eexists. split; [done|].
  split; [|split; [|split]].
  - clear. induction props as [|[k v] props IH]; [done|]. cbn. by rewrite IH.
  - clear. induction props as [|[k v] props IH]; [done|]. cbn. by rewrite IH.
  - clear. induction props as [|[k v] props IH]; [done|]. by constructor.
  - unfold defaultsFromSpecs. rewrite defaults_of_mapping; [|done|done|done|by left].
    change (own emptyObject) with (∅ : gmap string JsValue).
    by rewrite (right_id_L ∅ (∪)).
Qed.

Lemma mapping_defaults_are_the_mapping_witness :
  exists specs,
    extractParamsFromYaml
      (silentWorld
         (fun _ => Returns (VObj [("trigger", VNull);
                                  ("parameters",
                                   VObj [("c", VNum (ofZ 3));
                                         ("__proto__", VObj [("x", VNum (ofZ 1))]);
                                         ("d", VNull)])]))
         []) "parameters: {c: 3, __proto__: {x: 1}, d: null}"
    = Returns specs
    /\ spec_name <$> specs = ["c"; "__proto__"; "d"]
    /\ defaultsFromSpecs specs = {[ "c" := VNum (ofZ 3); "d" := VNull ]}.
Proof.
  destruct (mapping_defaults_are_the_mapping
              (silentWorld
                 (fun _ => Returns (VObj [("trigger", VNull);
                                          ("parameters",
                                           VObj [("c", VNum (ofZ 3));
                                                 ("__proto__", VObj [("x", VNum (ofZ 1))]);
                                                 ("d", VNull)])])) [])
              "parameters: {c: 3, __proto__: {x: 1}, d: null}"
              (VObj [("trigger", VNull);
                     ("parameters",
                      VObj [("c", VNum (ofZ 3));
                            ("__proto__", VObj [("x", VNum (ofZ 1))]);
                            ("d", VNull)])])
              [("c", VNum (ofZ 3)); ("__proto__", VObj [("x", VNum (ofZ 1))]); ("d", VNull)])
    as (specs & Hspecs & Hnames & _ & _ & Hdefaults).
  - reflexivity.
  - reflexivity.
  - apply NoDup_ListNoDup. repeat constructor; cbn; intuition discriminate.
  - by repeat constructor.
  - exists specs. split; [exact Hspecs|]. split; [exact Hnames|].
    rewrite Hdefaults. by vm_compute.
Defined.

End SpecMore.

(* --------------------------------------------------------------------- *)
(** ** The branch of the [build] action *)

Module BranchProps.
Import Js Cli Branch.

Lemma default_nonempty (fallback : string) (value : option string) :
  fallback <> "" -> value <> Some "" -> default fallback value <> "".
Proof. destruct value as [v|]; cbn; [congruence | done]. Qed.

Lemma environment_default_branch env e lines :
  Config.getAzdoEnv false env = (Returns e, lines) ->
  Config.env_defaultBranch e <> "".
Proof.
  unfold Config.getAzdoEnv. destruct (Config.requireEnv env "AZDO_PAT") as [[pat|?] ?]; [|done].
  cbn [andb]. intros [= <- _]. apply ConfigProps.defaultBranchOf_nonempty.
Qed.

Lemma enterBranch_cases w branch st :
  branch <> "" ->
  match enterBranch w branch st with
  | (Done chosen, st') =>
      chosen <> "" /\ st' = {| asked := S (asked st); notices := notices st |}
  | (Exit c, _) => c = 1
  | (Throw _, _) => False
  end.
Proof.
  intros Hbranch. unfold enterBranch, bind, ask, exitIfCancel, ret, lift.
  destruct (text w (asked st)) as [answer|]; [|done]. unfold nonEmpty.
  destruct (String.eqb (trim answer) "") eqn:Hblank; cbn [negb]; [done|].
  split; [by apply String.eqb_neq | done].
Qed.

(** X28.  The branch the [build] action settles on is never empty,
    provided no source gives an empty text: the default branch of the
    environment is never empty, a blank answer keeps the branch selected
    so far, and any other answer is used without its surrounding white
    space.  With [--branch], or with [--no-prompt], nothing is asked and
    the branch is the first one given among [--branch], the catalog entry,
    the defaults of the configuration file and the environment.  Otherwise
    at most two questions are asked, nothing is reported, and only a
    cancelled question ends the process, with code 1. *)
Theorem build_branch_is_never_empty
    (w : World) (prompt : bool) (branches : list string) (src : Sources)
    (env : gmap string string) (e : Config.AzdoEnv) (lines : list Config.Line)
    (st : State) :
  Config.getAzdoEnv false env = (Returns e, lines) ->
  fromEnv src = Config.env_defaultBranch e ->
  given src <> Some "" ->
  fromCatalog src <> Some "" ->
  fromDefaults src <> Some "" ->
  match chooseBranch w prompt branches src st with
  | (Done branch, st') =>
      branch <> "" /\ notices st' = notices st
      /\ (asked st <= asked st' <= asked st + 2)%nat
      /\ (prompt = false \/ is_Some (given src) -> branch = preselected src /\ st' = st)
  | (Exit c, _) => c = 1 /\ prompt = true /\ given src = None
  | (Throw _, _) => False
  end.
Proof.
  intros Henv Hfrom Hgiven Hcatalog Hdefaults.
  assert (Hpre : preselected src <> "").
  { unfold preselected. repeat apply default_nonempty; try done.
    rewrite Hfrom. by eapply environment_default_branch. }
  unfold chooseBranch.
  assert (Hasks : present (given src) = false -> given src = None).
  { destruct (given src) as [b|] eqn:Hb; [|done]. cbn. unfold nonEmpty.
    intros Hempty%negb_false_iff%String.eqb_eq. by subst b. }
  destruct (present (given src)) eqn:Hpresent; cbn [negb andb].
  { split; [done|]. split; [done|]. split; [lia | done]. }
  specialize (Hasks eq_refl). destruct prompt.
  2:{ split; [done|]. split; [done|]. split; [lia | done]. }
  assert (Hnot : true = false \/ is_Some (given src) -> False).
  { intros [? | [? Hsome]]; [done | congruence]. }
  unfold bind at 1. unfold bind at 1. unfold ask at 1. unfold exitIfCancel at 1.
  unfold ret, lift.
  destruct (selectText w (asked st)) as [method|]; [|done].
  set (st1 := {| asked := S (asked st); notices := notices st |}).
  assert (Henter :
    match enterBranch w (preselected src) st1 with
    | (Done branch, st') =>
        branch <> "" /\ notices st' = notices st
        /\ (asked st <= asked st' <= asked st + 2)%nat
        /\ (true = false \/ is_Some (given src) -> branch = preselected src /\ st' = st)
    | (Exit c, _) => c = 1 /\ true = true /\ given src = None
    | (Throw _, _) => False
    end).
  { pose proof (enterBranch_cases w (preselected src) st1 Hpre) as H.
    destruct (enterBranch w (preselected src) st1) as [[chosen|c|?] st']; [| |done].
    - destruct H as [? ->]. split; [done|]. split; [done|]. cbn. split; [lia|].
      intros ?. by destruct Hnot.
    - by subst c. }
  destruct (String.eqb method "enter"); [exact Henter|].
  destruct branches as [|b0 bs]; [exact Henter|].
  unfold bind, ask, exitIfCancel, ret, lift.
  destruct (selectText w (asked st1)) as [selected|]; [|done].
  unfold nonEmpty. destruct (String.eqb selected "") eqn:Hsel; cbn [negb].
  - split; [done|]. split; [done|]. cbn. split; [lia|]. intros ?. by destruct Hnot.
  - split; [by apply String.eqb_neq|]. split; [done|]. cbn. split; [lia|].
    intros ?. by destruct Hnot.
Qed.

Lemma build_branch_is_never_empty_witness :
  chooseBranch bareWorld false []
    {| given := None; fromCatalog := Some "release"; fromDefaults := None;
       fromEnv := "develop" |} initial
  = (Done "release", initial).
Proof.
  assert (Henv : Config.getAzdoEnv false Config.sampleEnv
                 = (Returns {| Config.env_orgUrl := Some "https://dev.azure.com/org";
                               Config.env_project := None;
                               Config.env_pat := "s3cr3t";
                               Config.env_defaultBranch := "develop" |}, []))
    by (by vm_compute).
  pose proof (build_branch_is_never_empty bareWorld false []
    {| given := None; fromCatalog := Some "release"; fromDefaults := None;
       fromEnv := "develop" |} _ _ _ initial Henv eq_refl) as H.
  cbn [given fromCatalog fromDefaults] in H.
  assert (H1 : @None string <> Some "") by done.
  assert (H2 : Some "release" <> Some "") by done.
  specialize (H H1 H2 H1).
  destruct (chooseBranch _ _ _ _ _) as [[branch|c|m] st']; [|by destruct H as (_ & [=] & _)|done].
  destruct H as (_ & _ & _ & Hsame). by destruct Hsame as [-> ->]; [left|].
Defined.

End BranchProps.

(* --------------------------------------------------------------------- *)
(** ** Trimming twice *)

Module TrimFacts.
Import Js.

Lemma ws_prefix_shorter s r :
  ws_prefix s = Some r -> (String.length r < String.length s)%nat.
Proof.
  unfold ws_prefix. destruct s as [|c1 [|c2 [|c3 r3]]]; try done.
  - destruct (is_ascii_ws c1); [|done]. intros [= <-]. cbn. lia.
  - destruct (is_ascii_ws c1); [intros [= <-]; cbn; lia|].
    destruct (_ && _); [|done]. intros [= <-]. cbn. lia.
  - destruct (is_ascii_ws c1); [intros [= <-]; cbn; lia|].
    destruct ((code c1 =? 194) && (code c2 =? 160)); [intros [= <-]; cbn; lia|].
    match goal with |- (if ?b then _ else _) = _ -> _ => destruct b end; [|done].
    intros [= <-]. cbn. lia.
Qed.

(** A white-space character at the head of a string is one at the head of
    every extension of the string. *)
Lemma ws_prefix_app a b r :
  ws_prefix a = Some r -> ws_prefix (a +:+ b) = Some (r +:+ b).
Proof.
  unfold ws_prefix. destruct a as [|c1 [|c2 [|c3 r3]]]; try done;
    rewrite ?StringFacts.app_cons.
  - destruct (is_ascii_ws c1); [|done]. by intros [= <-].
  - destruct (is_ascii_ws c1); [by intros [= <-]|].
    destruct (_ && _); [|done]. by intros [= <-].
  - destruct (is_ascii_ws c1); [by intros [= <-]|].
    destruct ((code c1 =? 194) && (code c2 =? 160)); [by intros [= <-]|].
    match goal with |- (if ?b then _ else _) = _ -> _ => destruct b end; [|done].
    by intros [= <-].
Qed.

(** No white-space character at the head of a string, none at the head of
    a part of it that begins it. *)
Lemma ws_prefix_none a b :
  a <> "" -> ws_prefix (a +:+ b) = None -> ws_prefix a = None.
Proof.
  intros Ha Hnone. destruct (ws_prefix a) as [r|] eqn:Hws; [|done].
  by rewrite (ws_prefix_app a b r Hws) in Hnone.
Qed.

Lemma trimStart_fuel_enough n m s :
  (String.length s <= n)%nat -> (String.length s <= m)%nat ->
  trimStart_fuel n s = trimStart_fuel m s.
Proof.
  revert m s. induction n as [|n IH]; intros m s Hn Hm.
  - destruct s; [|cbn in Hn; lia]. by destruct m.
  - destruct m as [|m].
    + destruct s; [done | cbn in Hm; lia].
    + cbn [trimStart_fuel]. destruct (ws_prefix s) as [r|] eqn:Hws; [|done].
      apply ws_prefix_shorter in Hws. apply IH; lia.
Qed.

Lemma trimStart_step s r : ws_prefix s = Some r -> trimStart s = trimStart r.
Proof.
  intros Hws. unfold trimStart. pose proof (ws_prefix_shorter s r Hws) as Hlen.
  destruct (String.length s) as [|n] eqn:Hs; [lia|].
  cbn [trimStart_fuel]. rewrite Hws. apply trimStart_fuel_enough; lia.
Qed.

Lemma trimStart_stop s : ws_prefix s = None -> trimStart s = s.
Proof.
  intros Hws. unfold trimStart. destruct (String.length s); [done|].
  cbn [trimStart_fuel]. by rewrite Hws.
Qed.

Lemma trimStart_done s : ws_prefix (trimStart s) = None.
Proof.
  remember (String.length s) as n eqn:Hn. revert s Hn.
  induction n as [n IH] using lt_wf_ind. intros s ->.
  destruct (ws_prefix s) as [r|] eqn:Hws.
  - rewrite (trimStart_step s r Hws). eapply IH; [|done]. by apply ws_prefix_shorter.
  - by rewrite trimStart_stop.
Qed.

(** Made of white space only. *)
Lemma all_ws_step s r : ws_prefix s = Some r -> all_ws s = all_ws r.
Proof. intros Hws. unfold all_ws. by rewrite (trimStart_step s r Hws). Qed.

Lemma all_ws_app a b : all_ws a = true -> all_ws b = true -> all_ws (a +:+ b) = true.
Proof.
  remember (String.length a) as n eqn:Hn. revert a Hn.
  induction n as [n IH] using lt_wf_ind. intros a -> Ha Hb.
  destruct (ws_prefix a) as [r|] eqn:Hws.
  - rewrite (all_ws_step _ _ (ws_prefix_app a b r Hws)).
    rewrite (all_ws_step a r Hws) in Ha.
    eapply IH; [|done|done|done]. by apply ws_prefix_shorter.
  - unfold all_ws in Ha. rewrite trimStart_stop in Ha by done.
    destruct a; [done | done].
Qed.

Lemma trimEnd_split t : exists w, t = trimEnd t +:+ w /\ all_ws w = true.
Proof.
  induction t as [|c r (w & Hr & Hw)]; [by exists ""|].
  cbn [trimEnd]. destruct (all_ws (String c r)) eqn:Hall.
  - by exists (String c r).
  - exists w. rewrite StringFacts.app_cons. by rewrite <- Hr.
Qed.

Lemma trimEnd_twice t : trimEnd (trimEnd t) = trimEnd t.
Proof.
  induction t as [|c r IH]; [done|]. cbn [trimEnd].
  destruct (all_ws (String c r)) eqn:Hall; [done|].
  cbn [trimEnd]. rewrite IH.
  destruct (all_ws (String c (trimEnd r))) eqn:Hall'; [|done].
  destruct (trimEnd_split r) as (w & Hr & Hw).
  pose proof (all_ws_app _ _ Hall' Hw) as H.
  rewrite StringFacts.app_cons, <- Hr in H. congruence.
Qed.

Lemma trimStart_of_trimEnd t : ws_prefix t = None -> trimStart (trimEnd t) = trimEnd t.
Proof.
  intros Hws. destruct (trimEnd_split t) as (w & Ht & _).
  destruct (trimEnd t) as [|c r] eqn:Hend; [done|].
  apply trimStart_stop. apply (ws_prefix_none _ w); [done|]. by rewrite <- Ht.
Qed.

Lemma trim_twice s : trim (trim s) = trim s.
Proof.
  unfold trim. rewrite trimStart_of_trimEnd by apply trimStart_done.
  apply trimEnd_twice.
Qed.

(** What is trimmed away holds nothing else: a text and its trimmed form
    are blank together. *)
Lemma trim_blank s : trim s = "" <-> all_ws s = true.
Proof.
  unfold trim, all_ws. split.
  - intros H. destruct (trimStart s) as [|c r] eqn:Hs; [done|].
    cbn [trimEnd] in H. destruct (all_ws (String c r)) eqn:Hall; [|done].
    unfold all_ws in Hall. rewrite trimStart_stop in Hall; [done|].
    rewrite <- Hs. apply trimStart_done.
  - by destruct (trimStart s).
Qed.

End TrimFacts.

(* --------------------------------------------------------------------- *)
(** ** The stored token *)

Module PatStoreProps.
Import Js Cli PatStore.

Lemma loadStoredPat_Some parse file pat :
  loadStoredPat parse file = Some pat ->
  pat <> "" /\ trim pat = pat
  /\ exists raw parsed p,
       file = Some raw /\ parse raw = Returns parsed
       /\ getProp parsed "pat" = VStr p /\ pat = trim p.
Proof.
  unfold loadStoredPat. destruct file as [raw|]; [|done].
  destruct (parse raw) as [parsed|] eqn:Hparse; [|done].
  destruct (getProp parsed "pat") as [| | | |p| |] eqn:Hpat; try done.
  destruct (0 <? len (trim p)) eqn:Hlen; [|done]. intros [= <-].
  split; [|split; [apply TrimFacts.trim_twice | by exists raw, parsed, p]].
  intros Hempty. by rewrite Hempty in Hlen.
Qed.

(** X29.  A token that is saved is the token that is loaded: when the
    parser reads back what was written, [saveStoredPat] followed by
    [loadStoredPat] gives the token without its surrounding white space, and
    the configuration module resolves it; a blank token is refused with
    [PAT cannot be empty] and nothing is written. *)
Theorem saved_token_is_loaded
    (parse : string -> Attempt JsValue) (stringify : JsValue -> string)
    (now pat : string) :
  parse (stringify (payload (trim pat) now) +:+ String (chr 10) "")
  = Returns (payload (trim pat) now) ->
  match saveStoredPat stringify now pat with
  | Returns written =>
      trim pat <> ""
      /\ loadStoredPat parse (Some written) = Some (trim pat)
      /\ hasStoredPat parse (Some written) = true
      /\ resolvePat parse (Some written) = Returns (trim pat)
  | Throws message => message = "PAT cannot be empty" /\ trim pat = ""
  end.
Proof.
  intros Hback. unfold saveStoredPat.
  destruct (String.eqb (trim pat) "") eqn:Hblank; [by apply String.eqb_eq in Hblank|].
  pose proof Hblank as Hne. apply String.eqb_neq in Hne.
  assert (Hload : loadStoredPat parse
                    (Some (stringify (payload (trim pat) now) +:+ String (chr 10) ""))
                  = Some (trim pat)).
  { unfold loadStoredPat. rewrite Hback.
    change (getProp (payload (trim pat) now) "pat") with (VStr (trim pat)).
    cbn beta iota. rewrite TrimFacts.trim_twice.
    destruct (0 <? len (trim pat)) eqn:Hlen; [done|].
    destruct (trim pat); [done|]. rewrite StringFacts.len_cons in Hlen.
    pose proof (StringFacts.len_nonneg s). lia. }
  split; [done|]. split; [done|]. unfold hasStoredPat, resolvePat.
  by rewrite Hload, Hblank.
Qed.

Lemma saved_token_is_loaded_witness :
  saveStoredPat (fun _ => "{}") "2024-05-01T10:00:00.000Z" " s3cr3t "
  = Returns ("{}" +:+ String (chr 10) "")
  /\ loadStoredPat (fun _ => Returns (payload "s3cr3t" "2024-05-01T10:00:00.000Z"))
       (Some ("{}" +:+ String (chr 10) ""))
     = Some "s3cr3t".
Proof.
  assert (Hback : (fun _ : string => Returns (payload "s3cr3t" "2024-05-01T10:00:00.000Z"))
                    ((fun _ : JsValue => "{}")
                       (payload (trim " s3cr3t ") "2024-05-01T10:00:00.000Z")
                     +:+ String (chr 10) "")
                  = Returns (payload (trim " s3cr3t ") "2024-05-01T10:00:00.000Z"))
    by (by vm_compute).
  pose proof (saved_token_is_loaded _ _ _ _ Hback) as H.
  change (saveStoredPat (fun _ => "{}") "2024-05-01T10:00:00.000Z" " s3cr3t ")
    with (@Returns string ("{}" +:+ String (chr 10) "")) in H.
  destruct H as (_ & Hload & _). split; [done | exact Hload].
Defined.

(** X30.  A token that is loaded is never empty and has no surrounding
    white space, whatever the credentials file holds.  Resolving the token
    fails exactly when nothing is loaded (no file, a file that is not JSON,
    a [pat] that is not a string or is blank); its error, unlike the error
    for a missing variable, is reported by the commands, with exit code
    1. *)
Theorem stored_token_is_trimmed
    (parse : string -> Attempt JsValue) (file : option string) :
  (forall pat, loadStoredPat parse file = Some pat -> pat <> "" /\ trim pat = pat)
  /\ hasStoredPat parse file = bool_decide (is_Some (loadStoredPat parse file))
  /\ match resolvePat parse file with
     | Returns pat => loadStoredPat parse file = Some pat
     | Throws message =>
         loadStoredPat parse file = None
         /\ message = "Not authenticated. Run azdo login first."
         /\ forall st : State,
              reported (@Throw unit message, st) = (notices st ++ [Reported message])%list
              /\ exitCode (@Throw unit message, st) = 1
     end.
Proof.
  split; [|split].
  - intros pat Hload. by apply loadStoredPat_Some in Hload as (? & ? & _).
  - unfold hasStoredPat. destruct (loadStoredPat parse file) as [pat|] eqn:Hload.
    + apply loadStoredPat_Some in Hload as (Hne & _).
      apply String.eqb_neq in Hne as ->. symmetry. apply bool_decide_eq_true. by eexists.
    + symmetry. apply bool_decide_eq_false. by intros [? ?].
  - unfold resolvePat. destruct (loadStoredPat parse file) as [pat|] eqn:Hload.
    + apply loadStoredPat_Some in Hload as (Hne & _).
      by apply String.eqb_neq in Hne as ->.
    + split; [done|]. split; [done|]. intros st. by split.
Qed.

End PatStoreProps.
